(** * film-cli: the stream resolution pipeline of [main.go]

    A shallow embedding of the Go program (the current generation of the
    source, with [Deobfuscate]) and of the library functions it calls,
    followed by the properties of the pipeline.

    Conventions.
    - A Go [string] is a sequence of bytes: [gostring] is [list ascii].
      String literals are written [str "..."].
    - A Go [rune] (int32) and an [int] are [Z].
    - A function returning [(T, error)] returns [result T]; each
      [fmt.Errorf] call site of the program is one constructor of [error],
      carrying the arguments of its format string.
    - [log.Printf], [log.Println] and [fmt.Println] only write to the
      standard streams and are left out. *)

From Stdlib Require Import Ascii String ZArith Lia DecimalString.
From stdpp Require Import base numbers list strings gmap.

Local Open Scope Z_scope.
Local Open Scope list_scope.

(** ** Go strings and bytes *)

Abbreviation gostring := (list ascii).
Abbreviation rune := Z (only parsing).

(** [len(s)] and [s[i]]; indexing out of range is a run-time panic,
    here [None]. *)
Definition len {A} (l : list A) : Z := Z.of_nat (length l).

Definition at_ {A} (l : list A) (i : Z) : option A :=
  if i <? 0 then None else l !! Z.to_nat i.

Definition str (s : string) : gostring := list_ascii_of_string s.

(** [uint(b)] for a byte [b]. *)
Definition byteZ (c : ascii) : Z := Z.of_N (N_of_ascii c).

(** [byte(x)]: the low eight bits of [x]. *)
Definition byte_of (x : Z) : ascii := ascii_of_N (Z.to_N (Z.land x 0xFF)).

Definition beq (a b : ascii) : bool := Ascii.eqb a b.

(** [lo <= c && c <= hi] on bytes. *)
Definition between (lo hi : Z) (c : ascii) : bool :=
  (lo <=? byteZ c) && (byteZ c <=? hi).

(** ** unicode/utf8 *)
Module utf8.

Definition RuneError : rune := 0xFFFD.
Definition RuneSelf : Z := 0x80.
Definition MaxRune : rune := 0x10FFFF.
Definition surrogateMin : rune := 0xD800.
Definition surrogateMax : rune := 0xDFFF.

Definition locb : Z := 0x80.
Definition hicb : Z := 0xBF.
Definition maskx : Z := 0x3F.
Definition mask2 : Z := 0x1F.
Definition mask3 : Z := 0x0F.
Definition mask4 : Z := 0x07.

(** The table [first] together with [acceptRanges]: what a first byte
    announces. *)
Inductive lead : Type :=
| ASCII                              (* as: the byte is the rune *)
| Invalid                            (* xx: RuneError, width 1 *)
| Lead (sz : nat) (lo hi : Z).       (* size and accepted range of byte 1 *)

Definition first (s0 : ascii) : lead :=
  let x := byteZ s0 in
  if x <? 0x80 then ASCII
  else if x <? 0xC2 then Invalid
  else if x <? 0xE0 then Lead 2 locb hicb
  else if x =? 0xE0 then Lead 3 0xA0 hicb
  else if x <? 0xED then Lead 3 locb hicb
  else if x =? 0xED then Lead 3 locb 0x9F
  else if x <? 0xF0 then Lead 3 locb hicb
  else if x =? 0xF0 then Lead 4 0x90 hicb
  else if x <? 0xF4 then Lead 4 locb hicb
  else if x =? 0xF4 then Lead 4 locb 0x8F
  else Invalid.

(** [utf8.DecodeRuneInString]: the first rune of [s] and its width in
    bytes; [(RuneError, 0)] on the empty string and [(RuneError, 1)] on
    an invalid or truncated encoding. *)
Definition DecodeRuneInString (s : gostring) : rune * nat :=
  match s with
  | [] => (RuneError, 0%nat)
  | s0 :: t =>
      match first s0 with
      | ASCII => (byteZ s0, 1%nat)
      | Invalid => (RuneError, 1%nat)
      | Lead sz lo hi =>
          if (length s <? sz)%nat then (RuneError, 1%nat) else
          match t with
          | [] => (RuneError, 1%nat)
          | s1 :: t1 =>
              if negb (between lo hi s1) then (RuneError, 1%nat) else
              if (sz <=? 2)%nat then
                (Z.lor (Z.shiftl (Z.land (byteZ s0) mask2) 6)
                       (Z.land (byteZ s1) maskx), 2%nat)
              else
              match t1 with
              | [] => (RuneError, 1%nat)
              | s2 :: t2 =>
                  if negb (between locb hicb s2) then (RuneError, 1%nat) else
                  if (sz <=? 3)%nat then
                    (Z.lor (Z.lor (Z.shiftl (Z.land (byteZ s0) mask3) 12)
                                  (Z.shiftl (Z.land (byteZ s1) maskx) 6))
                           (Z.land (byteZ s2) maskx), 3%nat)
                  else
                  match t2 with
                  | [] => (RuneError, 1%nat)
                  | s3 :: _ =>
                      if negb (between locb hicb s3) then (RuneError, 1%nat) else
                      (Z.lor (Z.lor (Z.lor
                         (Z.shiftl (Z.land (byteZ s0) mask4) 18)
                         (Z.shiftl (Z.land (byteZ s1) maskx) 12))
                         (Z.shiftl (Z.land (byteZ s2) maskx) 6))
                         (Z.land (byteZ s3) maskx), 4%nat)
                  end
              end
          end
      end
  end.

(** [utf8.RuneStart]. *)
Definition RuneStart (b : ascii) : bool :=
  negb (Z.land (byteZ b) 0xC0 =? 0x80).

(** The backward scan of [DecodeLastRuneInString],
    [for start--; start >= lim; start-- { if RuneStart(s[start]) { break } }],
    entered after the first [start--]; it runs at most [UTFMax] times. *)
Fixpoint scan_start (fuel : nat) (s : gostring) (lim start : Z) : Z :=
  match fuel with
  | O => start
  | S k =>
      if start <? lim then start
      else match at_ s start with
           | Some b => if RuneStart b then start
                       else scan_start k s lim (start - 1)
           | None => start
           end
  end.

(** [utf8.DecodeLastRuneInString]. *)
Definition DecodeLastRuneInString (s : gostring) : rune * nat :=
  let e := len s in
  match at_ s (e - 1) with
  | None => (RuneError, 0%nat)
  | Some last =>
      if byteZ last <? RuneSelf then (byteZ last, 1%nat) else
      let lim := Z.max (e - 4) 0 in
      let start := scan_start 4 s lim (e - 1 - 1) in
      let start := Z.max start 0 in
      let '(r, size) := DecodeRuneInString (drop (Z.to_nat start) s) in
      if start + Z.of_nat size =? e then (r, size) else (RuneError, 1%nat)
  end.

(** [utf8.EncodeRune] / [utf8.AppendRune]: the bytes of one rune;
    surrogates and values out of range are written as [RuneError]. *)
Definition encode3 (r : rune) : gostring :=
  [ byte_of (Z.lor 0xE0 (Z.shiftr r 12));
    byte_of (Z.lor 0x80 (Z.land (Z.shiftr r 6) maskx));
    byte_of (Z.lor 0x80 (Z.land r maskx)) ].

Definition EncodeRune (r : rune) : gostring :=
  if (0 <=? r) && (r <=? 0x7F) then [byte_of r]
  else if (0 <=? r) && (r <=? 0x7FF) then
    [ byte_of (Z.lor 0xC0 (Z.shiftr r 6));
      byte_of (Z.lor 0x80 (Z.land r maskx)) ]
  else if (r <? 0) || (MaxRune <? r)
          || ((surrogateMin <=? r) && (r <=? surrogateMax)) then
    encode3 RuneError
  else if r <=? 0xFFFF then encode3 r
  else
    [ byte_of (Z.lor 0xF0 (Z.shiftr r 18));
      byte_of (Z.lor 0x80 (Z.land (Z.shiftr r 12) maskx));
      byte_of (Z.lor 0x80 (Z.land (Z.shiftr r 6) maskx));
      byte_of (Z.lor 0x80 (Z.land r maskx)) ].

End utf8.

(** [[]rune(s)]: the runes of [s], one [RuneError] per invalid byte. The
    loop consumes at least one byte per rune, so [length s] iterations
    are enough. *)
Fixpoint runes_loop (fuel : nat) (s : gostring) : list rune :=
  match fuel with
  | O => []
  | S k =>
      match s with
      | [] => []
      | _ :: _ =>
          let '(r, size) := utf8.DecodeRuneInString s in
          r :: runes_loop k (drop size s)
      end
  end.

Definition runes_of_string (s : gostring) : list rune :=
  runes_loop (length s) s.

(** [string(rs)] for a rune slice [rs]. *)
Definition string_of_runes (rs : list rune) : gostring :=
  concat (map utf8.EncodeRune rs).

(** ** unicode *)
Module unicode.

(** [unicode.IsSpace]: the Latin-1 switch, then the [White_Space] range
    table above Latin-1. *)
Definition IsSpace (r : rune) : bool :=
  if (0 <=? r) && (r <=? 0xFF) then
    (r =? 0x09) || (r =? 0x0A) || (r =? 0x0B) || (r =? 0x0C) || (r =? 0x0D)
    || (r =? 0x20) || (r =? 0x85) || (r =? 0xA0)
  else
    (r =? 0x1680) || ((0x2000 <=? r) && (r <=? 0x200A))
    || (r =? 0x2028) || (r =? 0x2029) || (r =? 0x202F) || (r =? 0x205F)
    || (r =? 0x3000).

End unicode.

(** ** strings *)
Module strings.

(** [strings.HasPrefix]. *)
Fixpoint HasPrefix (s prefix : gostring) : bool :=
  match prefix, s with
  | [], _ => true
  | p :: prefix', c :: s' => beq p c && HasPrefix s' prefix'
  | _ :: _, [] => false
  end.

(** [strings.Contains(s, sep)] for a separator of one byte, the only
    kind the program uses. *)
Definition Contains (s : gostring) (sep : ascii) : bool :=
  existsb (beq sep) s.

(** [strings.Split(s, sep)] for a separator of one byte: the pieces
    between the separators, [[""]] for the empty string. *)
Fixpoint Split (s : gostring) (sep : ascii) : list gostring :=
  match s with
  | [] => [[]]
  | c :: s' =>
      if beq c sep then [] :: Split s' sep
      else match Split s' sep with
           | piece :: pieces => (c :: piece) :: pieces
           | [] => [[c]]
           end
  end.

(** [strings.SplitN(s, sep, 2)] for a separator of one byte: cut at the
    first separator, or [[s]] when there is none. *)
Fixpoint SplitN2 (s : gostring) (sep : ascii) : list gostring :=
  match s with
  | [] => [[]]
  | c :: s' =>
      if beq c sep then [[]; s']
      else match SplitN2 s' sep with
           | piece :: pieces => (c :: piece) :: pieces
           | [] => [[c]]
           end
  end.

(** [strings.Trim(s, cutset)] for a cutset of one ASCII byte. *)
Fixpoint trimLeftByte (s : gostring) (c : ascii) : gostring :=
  match s with
  | x :: s' => if beq x c then trimLeftByte s' c else s
  | [] => []
  end.

Definition trimRightByte (s : gostring) (c : ascii) : gostring :=
  reverse (trimLeftByte (reverse s) c).

Definition Trim (s : gostring) (c : ascii) : gostring :=
  trimRightByte (trimLeftByte s c) c.

(** The table [asciiSpace]. *)
Definition asciiSpace (c : ascii) : bool :=
  let x := byteZ c in
  (x =? 0x09) || (x =? 0x0A) || (x =? 0x0B) || (x =? 0x0C) || (x =? 0x0D)
  || (x =? 0x20).

(** [strings.TrimLeftFunc(s, f)]: [indexFunc] ranges over the runes of
    [s] and stops at the first one that [f] rejects. *)
Fixpoint trimLeftFunc_loop (fuel : nat) (f : rune -> bool) (s : gostring)
  : gostring :=
  match fuel with
  | O => []
  | S k =>
      match s with
      | [] => []
      | _ :: _ =>
          let '(r, size) := utf8.DecodeRuneInString s in
          if f r then trimLeftFunc_loop k f (drop size s) else s
      end
  end.

Definition TrimLeftFunc (s : gostring) (f : rune -> bool) : gostring :=
  trimLeftFunc_loop (length s) f s.

(** [lastIndexFunc(s, f, false)]: the index of the last rune that [f]
    rejects, [-1] if there is none. *)
Fixpoint lastIndexFunc_loop (fuel : nat) (f : rune -> bool) (s : gostring)
  (i : Z) : Z :=
  match fuel with
  | O => -1
  | S k =>
      if 0 <? i then
        let '(r, size) :=
          utf8.DecodeLastRuneInString (take (Z.to_nat i) s) in
        let i := i - Z.of_nat size in
        if f r then lastIndexFunc_loop k f s i else i
      else -1
  end.

(** [strings.TrimRightFunc]. *)
Definition TrimRightFunc (s : gostring) (f : rune -> bool) : gostring :=
  let i := lastIndexFunc_loop (S (length s)) f s (len s) in
  let i :=
    match at_ s i with
    | Some b =>
        if utf8.RuneSelf <=? byteZ b then
          i + Z.of_nat (snd (utf8.DecodeRuneInString (drop (Z.to_nat i) s)))
        else i + 1
    | None => i + 1
    end in
  take (Z.to_nat i) s.

Definition TrimFunc (s : gostring) (f : rune -> bool) : gostring :=
  TrimRightFunc (TrimLeftFunc s f) f.

(** [strings.TrimSpace]: the ASCII fast path from both ends, falling
    back to the rune-aware functions at the first non-ASCII byte. *)
Fixpoint trimSpace_right (rs : gostring) : gostring :=
  match rs with
  | [] => []
  | c :: rs' =>
      if utf8.RuneSelf <=? byteZ c then
        TrimRightFunc (reverse rs) unicode.IsSpace
      else if asciiSpace c then trimSpace_right rs'
      else reverse rs
  end.

Fixpoint TrimSpace (s : gostring) : gostring :=
  match s with
  | [] => []
  | c :: s' =>
      if utf8.RuneSelf <=? byteZ c then TrimFunc s unicode.IsSpace
      else if asciiSpace c then TrimSpace s'
      else trimSpace_right (reverse s)
  end.

End strings.

(** ** fmt *)
Module fmt.

(** The operands the program passes to [Sprintf]. *)
Inductive operand : Type :=
| S_ (s : gostring)     (* a string (or a named string type) *)
| D_ (n : Z).           (* an int *)

(** Decimal rendering of an int, as [%d] prints it. *)
Definition itoa (n : Z) : gostring :=
  str (NilZero.string_of_int (Z.to_int n)).

Definition typed (a : operand) : gostring :=
  match a with
  | S_ s => str "string=" ++ s
  | D_ n => str "int=" ++ itoa n
  end.

Fixpoint extra (args : list operand) : gostring :=
  match args with
  | [] => []
  | [a] => typed a
  | a :: args' => typed a ++ str ", " ++ extra args'
  end.

(** One verb applied to one operand; a verb that does not fit the
    operand prints [%!verb(type=value)]. *)
Definition verb (v : ascii) (a : operand) : gostring :=
  match a with
  | S_ s => if beq v "s" then s else str "%!" ++ [v] ++ str "(" ++ typed a ++ str ")"
  | D_ n => if beq v "d" then itoa n else str "%!" ++ [v] ++ str "(" ++ typed a ++ str ")"
  end.

(** [fmt.Sprintf] for formats made of literal text, [%%] and verbs
    without flags, width or precision. *)
Fixpoint Sprintf (format : gostring) (args : list operand) : gostring :=
  match format with
  | [] =>
      match args with
      | [] => []
      | _ :: _ => str "%!(EXTRA " ++ extra args ++ str ")"
      end
  | c :: rest =>
      if beq c "%" then
        match rest with
        | [] => str "%!(NOVERB)"
        | v :: rest' =>
            if beq v "%" then v :: Sprintf rest' args
            else match args with
                 | [] => str "%!" ++ [v] ++ str "(MISSING)" ++ Sprintf rest' []
                 | a :: args' => verb v a ++ Sprintf rest' args'
                 end
        end
      else c :: Sprintf rest args
  end.

End fmt.

(** ** encoding/base64, [StdEncoding] *)
Module base64.

Definition encodeStd : gostring :=
  str "ABCDEFGHIJKLMNOPQRSTUVWXYZabcdefghijklmnopqrstuvwxyz0123456789+/".

Definition padChar : ascii := "="%char.

(** [enc.encode[i]]. *)
Definition encode (i : Z) : ascii :=
  default "="%char (at_ encodeStd i).

(** [enc.decodeMap[c]], built from the alphabet: the index of [c] in
    it, [None] standing for the entry [0xff]. *)
Fixpoint index_of (c : ascii) (alphabet : gostring) (i : Z) : option Z :=
  match alphabet with
  | [] => None
  | a :: alphabet' => if beq a c then Some i else index_of c alphabet' (i + 1)
  end.

Definition decodeMap (c : ascii) : option Z := index_of c encodeStd 0.

(** [EncodeToString]: three bytes become four characters; a tail of
    one or two bytes is padded with [=]. *)
Fixpoint EncodeToString (src : gostring) : gostring :=
  match src with
  | b0 :: b1 :: b2 :: rest =>
      let val := Z.lor (Z.lor (Z.shiftl (byteZ b0) 16) (Z.shiftl (byteZ b1) 8))
                       (byteZ b2) in
      encode (Z.land (Z.shiftr val 18) 0x3F)
      :: encode (Z.land (Z.shiftr val 12) 0x3F)
      :: encode (Z.land (Z.shiftr val 6) 0x3F)
      :: encode (Z.land val 0x3F)
      :: EncodeToString rest
  | [b0; b1] =>
      let val := Z.lor (Z.shiftl (byteZ b0) 16) (Z.shiftl (byteZ b1) 8) in
      [ encode (Z.land (Z.shiftr val 18) 0x3F);
        encode (Z.land (Z.shiftr val 12) 0x3F);
        encode (Z.land (Z.shiftr val 6) 0x3F);
        padChar ]
  | [b0] =>
      let val := Z.shiftl (byteZ b0) 16 in
      [ encode (Z.land (Z.shiftr val 18) 0x3F);
        encode (Z.land (Z.shiftr val 12) 0x3F);
        padChar; padChar ]
  | [] => []
  end.

(** [CorruptInputError(offset)]. *)
Inductive CorruptInputError : Type := Corrupt (offset : Z).

Definition isNewline (c : ascii) : bool := beq c "010" || beq c "013".

(** Number of leading ['\r'] and ['\n'] characters. *)
Fixpoint newlines (s : gostring) : nat :=
  match s with
  | c :: s' => if isNewline c then S (newlines s') else O
  | [] => O
  end.

(** The bytes of a quantum of [dlen] characters whose sextets are
    packed in [val]: [dlen - 1] bytes. *)
Definition quantum (dlen : nat) (val : Z) : gostring :=
  take (dlen - 1)
    [byte_of (Z.shiftr val 16); byte_of (Z.shiftr val 8); byte_of val].

(** What follows the first [=] of a quantum, at offset [si]: with
    [j = 2] a second [=] (after newlines), then only newlines. *)
Definition padding (j : nat) (val : Z) (si : Z) (rest : gostring)
  : gostring + CorruptInputError :=
  let total := si + len rest in
  let second :=
    match j with
    | 2%nat =>
        let k := newlines rest in
        let si := si + Z.of_nat k in
        match drop k rest with
        | [] => inr (Corrupt total)
        | c :: rest' =>
            if beq c padChar then inl (si + 1, rest')
            else inr (Corrupt (si - 1))
        end
    | _ => inl (si, rest)
    end in
  match second with
  | inr e => inr e
  | inl (si, rest) =>
      let k := newlines rest in
      let si := si + Z.of_nat k in
      match drop k rest with
      | [] => inl (quantum j (Z.shiftl val (6 * Z.of_nat (4 - j))))
      | _ :: _ => inr (Corrupt si)
      end
  end.

(** [Decode] as the repetition of [decodeQuantum]: [si] is the offset
    of the next character, [j] the number of sextets of the current
    quantum read so far and [val] these sextets, packed. *)
Fixpoint decode (src : gostring) (si : Z) (j : nat) (val : Z)
  : gostring + CorruptInputError :=
  match src with
  | [] =>
      match j with
      | O => inl []
      | _ => inr (Corrupt (si - Z.of_nat j))
      end
  | c :: rest =>
      let si := si + 1 in
      match decodeMap c with
      | Some out =>
          let val := Z.lor (Z.shiftl val 6) out in
          match j with
          | 3%nat =>
              match decode rest si 0 0 with
              | inl bytes => inl (quantum 4 val ++ bytes)
              | inr e => inr e
              end
          | _ => decode rest si (S j) val
          end
      | None =>
          if isNewline c then decode rest si j val
          else if negb (beq c padChar) then inr (Corrupt (si - 1))
          else match j with
               | 0%nat | 1%nat => inr (Corrupt (si - 1))
               | _ => padding j val si rest
               end
      end
  end.

(** [StdEncoding.DecodeString]. *)
Definition DecodeString (s : gostring) : gostring + CorruptInputError :=
  decode s 0 0 0.

End base64.

(** ** Errors and results *)

(** The error values of the program: one constructor per [fmt.Errorf]
    call site (its message in the comment), with the operands of the
    format string; [%w] wraps the error of a library call. *)
Inductive error : Type :=
| LibraryError (msg : gostring)
    (* an error returned by net/http, io, os or the HTML parser *)
| CorruptInput (e : base64.CorruptInputError)
    (* illegal base64 data at input byte %d *)
| ErrMovieEmptyID
    (* cannot build movie URL: imdbId is empty *)
| ErrTVEmptyID
    (* cannot build tv URL: imdbId is empty *)
| ErrSeasonEpisodeUnset (imdbId : gostring)
    (* cannot build tv URL for imdbId %q: season and episode must be set *)
| ErrUnsupportedMedia (type imdbId : gostring)
    (* unsupported media type %q for imdbId %q *)
| ErrCreatingRequest (url : gostring) (cause : error)
    (* creating request for %q: %w *)
| ErrFetchingPage (url : gostring) (cause : error)
    (* fetching page %q: %w *)
| ErrStatusCode (status : Z) (url : gostring)
    (* unexpected status code %d for page %q *)
| ErrReadingBody (url : gostring) (cause : error)
    (* reading page body %q: %w *)
| ErrParsingEmbed (cause : error)
    (* parsing embed HTML: %w *)
| ErrNoIframeSrc
    (* no iframe src found for RCP URL *)
| ErrNoProRCPURL
    (* no ProRCP URL found in RCP page *)
| ErrParsingProRCP (cause : error)
    (* parsing ProRCP HTML: %w *)
| ErrNoHiddenDiv
    (* no hidden div found *)
| ErrDeobfuscating (cause : error)
    (* deobfuscating content: %w *)
| ErrNoComponents
    (* failed to extract necessary components for decoding *)
| ErrDecodingBase64 (cause : error)
    (* decoding Base64: %w *)
| ErrFetchingMaster (url : gostring) (cause : error)
    (* fetching master playlist %q: %w *)
| ErrMasterStatus (status : Z) (url : gostring)
    (* unexpected status %d for master playlist %q *)
| ErrReadingMaster (url : gostring) (cause : error)
    (* reading master playlist %q: %w *)
| ErrNoVariants (url : gostring).
    (* no stream variants found in master playlist %q *)

(** The outcome of a call: a value, an error value, or a run-time panic
    (an index out of range). *)
Inductive result (A : Type) : Type :=
| Ok (a : A)
| Err (e : error)
| Panic.
Arguments Ok {A} a.
Arguments Err {A} e.
Arguments Panic {A}.

Definition rbind {A B} (r : result A) (f : A -> result B) : result B :=
  match r with
  | Ok a => f a
  | Err e => Err e
  | Panic => Panic
  end.

Declare Scope go_scope.
Delimit Scope go_scope with go.
Notation "x <- r ;; k" := (rbind r (fun x => k))
  (at level 100, r at next level, right associativity) : go_scope.

(** [l[i]] as an expression: a panic when [i] is out of range. *)
Definition index {A} (l : list A) (i : Z) : result A :=
  match at_ l i with
  | Some a => Ok a
  | None => Panic
  end.

(** [l[i] = v] as a statement. *)
Definition assign {A} (l : list A) (i : Z) (v : A) : result (list A) :=
  match at_ l i with
  | Some _ => Ok (<[Z.to_nat i := v]> l)
  | None => Panic
  end.

(** A counted loop [for i := 0; i < n; i += step { s = body(i, s) }]
    over the indices [from, from+step, ...]; [count] iterations. *)
Fixpoint for_loop {S} (count : nat) (i step : Z)
    (body : Z -> S -> result S) (s : S) : result S :=
  match count with
  | O => Ok s
  | Datatypes.S k =>
      match body i s with
      | Ok s' => for_loop k (i + step) step body s'
      | Err e => Err e
      | Panic => Panic
      end
  end.

(** ** The program: the token decoder *)

(** Step 1 of [Deobfuscate]:
    [for i := 0; i < n/2; i++ { runes[i], runes[n-1-i] = runes[n-1-i], runes[i] }]. *)
Definition swap (n : Z) (i : Z) (runes : list rune) : result (list rune) :=
  (a <- index runes (n - 1 - i) ;;
   b <- index runes i ;;
   runes <- assign runes i a ;;
   assign runes (n - 1 - i) b)%go.

Definition reverse_in_place (runes : list rune) : result (list rune) :=
  let n := len runes in
  for_loop (Z.to_nat (n / 2)) 0 1 (swap n) runes.

(** Step 2: [for i := 0; i < n; i += 2 { filtered = append(filtered, runes[i]) }]. *)
Definition every_second (runes : list rune) : result (list rune) :=
  let n := len runes in
  for_loop (Z.to_nat ((n + 1) / 2)) 0 2
    (fun i filtered => r <- index runes i ;; Ok (filtered ++ [r]))%go [].

(** [Deobfuscate]: reverse the runes, keep every second one, decode the
    result as base64. *)
Definition Deobfuscate (obfCode : gostring) : result gostring :=
  (let runes := runes_of_string obfCode in
   runes <- reverse_in_place runes ;;
   filtered <- every_second runes ;;
   let filteredStr := string_of_runes filtered in
   match base64.DecodeString filteredStr with
   | inr e => Err (ErrDecodingBase64 (CorruptInput e))
   | inl decodedBytes => Ok decodedBytes
   end)%go.

(** ** The program: the entry URL *)

(** [MediaType] is a named string type. *)
Definition MediaType := gostring.
Definition Movie : MediaType := str "movie".
Definition TV : MediaType := str "tv".

Record ResolveOptions : Type := {
  IMDBID : gostring;
  Type_ : MediaType;
  Season : Z;
  Episode : Z
}.

Record StreamVariant : Type := {
  Resolution : gostring;
  Bandwidth : gostring;
  URL : gostring
}.

Definition seq_dec (a b : gostring) : bool := bool_decide (a = b).

Definition vidsrcBase : gostring := str "https://vidsrc-embed.ru".

Definition buildEmbedURL (o : ResolveOptions) : result gostring :=
  if seq_dec o.(Type_) Movie then
    if seq_dec o.(IMDBID) [] then Err ErrMovieEmptyID
    else Ok (fmt.Sprintf (str "%s/embed/movie?imdb=%s")
               [fmt.S_ vidsrcBase; fmt.S_ o.(IMDBID)])
  else if seq_dec o.(Type_) TV then
    if seq_dec o.(IMDBID) [] then Err ErrTVEmptyID
    else if (o.(Season) =? 0) || (o.(Episode) =? 0) then
      Err (ErrSeasonEpisodeUnset o.(IMDBID))
    else Ok (fmt.Sprintf (str "%s/embed/tv?imdb=%s&season=%d&episode=%d")
               [fmt.S_ vidsrcBase; fmt.S_ o.(IMDBID);
                fmt.D_ o.(Season); fmt.D_ o.(Episode)])
  else Err (ErrUnsupportedMedia o.(Type_) o.(IMDBID)).

(** ** regexp: the fragment the program's patterns are written in *)
Module regexp.

(** A pattern is a sequence of atoms: a literal byte, or a byte class
    under a greedy [*] or [+]. The classes and literals of the
    program's patterns are ASCII, so matching bytes and matching runes
    agree. *)
Inductive atom : Type :=
| Lit (c : ascii)
| Star (class : ascii -> bool)
| Plus (class : ascii -> bool).

(** [before (group) after]: a pattern with one capturing group. *)
Record Regexp : Type := {
  before : list atom;
  group : list atom;
  after : list atom
}.

Definition lits (s : gostring) : list atom := map Lit s.

(** Greedy repetition of a class, then the continuation [k]; the
    longest repetition is tried first. *)
Fixpoint star {A} (class : ascii -> bool) (k : gostring -> option A)
    (s : gostring) : option A :=
  match s with
  | c :: s' =>
      if class c then
        match star class k s' with
        | Some r => Some r
        | None => k s
        end
      else k s
  | [] => k s
  end.

(** Match the atoms at the start of [s], then the continuation. *)
Fixpoint atoms {A} (p : list atom) (k : gostring -> option A)
    (s : gostring) : option A :=
  match p with
  | [] => k s
  | Lit c :: p' =>
      match s with
      | x :: s' => if beq x c then atoms p' k s' else None
      | [] => None
      end
  | Star class :: p' => star class (atoms p' k) s
  | Plus class :: p' =>
      match s with
      | x :: s' => if class x then star class (atoms p' k) s' else None
      | [] => None
      end
  end.

(** The text consumed between [s] and its suffix [rest]. *)
Definition consumed (s rest : gostring) : gostring :=
  take (length s - length rest) s.

(** A match of the whole pattern at the start of [s]: the matched text
    and the text of the group. *)
Definition match_here (re : Regexp) (s : gostring)
  : option (gostring * gostring) :=
  atoms re.(before) (fun s1 =>
    atoms re.(group) (fun s2 =>
      atoms re.(after) (fun s3 =>
        Some (consumed s s3, consumed s1 s2)) s2) s1) s.

(** [re.FindStringSubmatch(s)]: the leftmost match and its group, [nil]
    when there is no match. *)
Fixpoint FindStringSubmatch (re : Regexp) (s : gostring) : list gostring :=
  match match_here re s with
  | Some (whole, sub) => [whole; sub]
  | None =>
      match s with
      | _ :: s' => FindStringSubmatch re s'
      | [] => []
      end
  end.

(** The class [\s] of RE2: [[\t\n\f\r ]]. *)
Definition perl_space (c : ascii) : bool :=
  beq c "009" || beq c "010" || beq c "012" || beq c "013" || beq c " ".

(** The class [[^']]. *)
Definition not_quote (c : ascii) : bool := negb (beq c "'").

End regexp.

(** ** golang.org/x/net/html and goquery: documents and selections *)
Module html.
#[local] Set Warnings "-register-all".

Inductive NodeType : Type :=
| ErrorNode | TextNode | DocumentNode | ElementNode | CommentNode
| DoctypeNode.

Record Attribute : Type := { Key : gostring; Val : gostring }.

(** A node with its children, first to last. *)
Inductive Node : Type :=
| mkNode (Type_ : NodeType) (Data : gostring) (Attr : list Attribute)
         (children : list Node).

Definition Type_ (n : Node) := let 'mkNode t _ _ _ := n in t.
Definition Data (n : Node) := let 'mkNode _ d _ _ := n in d.
Definition Attr (n : Node) := let 'mkNode _ _ a _ := n in a.
Definition children (n : Node) := let 'mkNode _ _ _ c := n in c.

Definition isElement (n : Node) : bool :=
  match Type_ n with ElementNode => true | _ => false end.

Definition isText (n : Node) : bool :=
  match Type_ n with TextNode => true | _ => false end.

End html.

Module goquery.
Import html.

(** The attribute part of a selector. *)
Inductive attrSelector : Type :=
| AttrEquals (key val : gostring)        (* [key='val'] and #id *)
| AttrContains (key val : gostring).     (* [key*='val'] *)

(** A compound selector: an element name and one attribute test. *)
Record Selector : Type := { tag : gostring; attr : attrSelector }.

(** [strings.Contains(s, substr)]. *)
Fixpoint ContainsStr (s substr : gostring) : bool :=
  strings.HasPrefix s substr
  || match s with
     | _ :: s' => ContainsStr s' substr
     | [] => false
     end.

(** cascadia's [matchAttribute]: some attribute named [key] passes [f]. *)
Definition matchAttribute (n : Node) (key : gostring)
    (f : gostring -> bool) : bool :=
  isElement n
  && existsb (fun a => bool_decide (Key a = key) && f (Val a)) (Attr n).

Definition matches (sel : Selector) (n : Node) : bool :=
  isElement n && bool_decide (Data n = sel.(tag))
  && match sel.(attr) with
     | AttrEquals key val =>
         matchAttribute n key (fun s => bool_decide (s = val))
     | AttrContains key val =>
         negb (bool_decide (val = []))
         && matchAttribute n key (fun s => ContainsStr s val)
     end.

(** cascadia's [MatchAll]: the matching nodes among [n] and its
    descendants, in document order. *)
Fixpoint MatchAll (sel : Selector) (n : Node) : list Node :=
  (if matches sel n then [n] else [])
  ++ flat_map (MatchAll sel) (children n).

(** A selection is the list of its nodes. [doc.Find(selector)]: the
    matching descendants of the document node. *)
Definition Find (doc : Node) (sel : Selector) : list Node :=
  flat_map (fun c => if isElement c then MatchAll sel c else [])
           (children doc).

(** [s.First()]. *)
Definition First (s : list Node) : list Node := take 1 s.

(** [s.Attr(name)]: the attribute of the first node of the selection. *)
Definition Attr_ (s : list Node) (name : gostring) : option gostring :=
  match s with
  | [] => None
  | n :: _ =>
      match filter (fun a => Key a = name) (Attr n) with
      | a :: _ => Some (Val a)
      | [] => None
      end
  end.

(** [s.Text()]: the text nodes below the nodes of the selection, in
    document order. *)
Fixpoint nodeText (n : Node) : gostring :=
  (if isText n then Data n else [])
  ++ flat_map nodeText (children n).

Definition Text (s : list Node) : gostring := flat_map nodeText s.

End goquery.

(** ** The outside world: network, file system and parsing libraries *)

(** A GET request as the program builds it: the URL and the [Referer]
    header, when set. *)
Record Request : Type := {
  reqURL : gostring;
  reqReferer : option gostring
}.

(** A response: its status code and what [io.ReadAll(resp.Body)]
    returns. *)
Record Response : Type := {
  StatusCode : Z;
  Body : gostring + error
}.

(** What the program does to the outside world, in order. *)
Inductive event : Type :=
| EvDo (req : Request)                         (* client.Do / client.Get *)
| EvMkdirAll (path : gostring)                 (* os.MkdirAll *)
| EvWriteFile (path : gostring) (data : gostring).  (* os.WriteFile *)

(** The library calls the program relies on and does not define. The
    answers of the network and of the file system may depend on what
    happened before ([list event], oldest first). *)
Class Env : Type := {
  (* goquery.NewDocumentFromReader(strings.NewReader(s)) *)
  NewDocumentFromReader : gostring -> html.Node + error;
  (* net/url: url.Parse, URL.ResolveReference, URL.String *)
  url_URL : Type;
  url_Parse : gostring -> url_URL + error;
  url_ResolveReference : url_URL -> url_URL -> url_URL;
  url_String : url_URL -> gostring;
  (* the error of http.NewRequest("GET", url, nil), if it fails *)
  http_NewRequest : gostring -> option error;
  (* the round trip of the shared client, redirects followed *)
  client_RoundTrip : list event -> Request -> Response + error;
  (* os.MkdirAll(path, 0755) and os.WriteFile(path, data, 0644) *)
  os_MkdirAll : list event -> gostring -> option error;
  os_WriteFile : list event -> gostring -> gostring -> option error
}.

(** A computation that acts on the world: from the events so far to an
    outcome and the events after it. *)
Definition M (A : Type) : Type := list event -> result A * list event.

Definition ret {A} (a : A) : M A := fun h => (Ok a, h).
Definition fail {A} (e : error) : M A := fun h => (Err e, h).
Definition lift {A} (r : result A) : M A := fun h => (r, h).

Definition bind {A B} (m : M A) (f : A -> M B) : M B :=
  fun h =>
    match m h with
    | (Ok a, h') => f a h'
    | (Err e, h') => (Err e, h')
    | (Panic, h') => (Panic, h')
    end.

(** [v, err := f(); if err != nil { handle }]: the error as a value. *)
Definition attempt {A} (m : M A) : M (A + error) :=
  fun h =>
    match m h with
    | (Ok a, h') => (Ok (inl a), h')
    | (Err e, h') => (Ok (inr e), h')
    | (Panic, h') => (Panic, h')
    end.

Declare Scope io_scope.
Delimit Scope io_scope with io.
Notation "x <- m ;; k" := (bind m (fun x => k))
  (at level 100, m at next level, right associativity) : io_scope.
Notation "m ;;; k" := (bind m (fun _ => k))
  (at level 100, right associativity) : io_scope.

Definition StatusOK : Z := 200.

Section Program.
Context `{Env}.

(** [client.Do(req)]. *)
Definition client_Do (req : Request) : M (Response + error) :=
  fun h => (Ok (client_RoundTrip h req), h ++ [EvDo req]).

(** [client.Get(url)]: a request without headers. *)
Definition client_Get (url : gostring) : M (Response + error) :=
  match http_NewRequest url with
  | Some e => ret (inr e)
  | None => client_Do {| reqURL := url; reqReferer := None |}
  end.

Definition MkdirAll (path : gostring) : M (option error) :=
  fun h => (Ok (os_MkdirAll h path), h ++ [EvMkdirAll path]).

Definition WriteFile (path data : gostring) : M (option error) :=
  fun h => (Ok (os_WriteFile h path data), h ++ [EvWriteFile path data]).

(** [fetchContent]. *)
Definition fetchContent (url referer : gostring) : M gostring :=
  match http_NewRequest url with
  | Some err => fail (ErrCreatingRequest url err)
  | None =>
      let req :=
        {| reqURL := url;
           reqReferer := if seq_dec referer [] then None else Some referer |} in
      (resp <- client_Do req ;;
       match resp with
       | inr err => fail (ErrFetchingPage url err)
       | inl resp =>
           if negb (resp.(StatusCode) =? StatusOK) then
             fail (ErrStatusCode resp.(StatusCode) url)
           else
             match resp.(Body) with
             | inr err => fail (ErrReadingBody url err)
             | inl body => ret body
             end
       end)%io
  end.

(** [extractRCPURL]: [doc.Find("iframe#player_iframe").Attr("src")]. *)
Definition iframe_player : goquery.Selector :=
  {| goquery.tag := str "iframe";
     goquery.attr := goquery.AttrEquals (str "id") (str "player_iframe") |}.

Definition extractRCPURL (embedHTML : gostring) : result gostring :=
  match NewDocumentFromReader embedHTML with
  | inr err => Err (ErrParsingEmbed err)
  | inl doc =>
      match goquery.Attr_ (goquery.Find doc iframe_player) (str "src") with
      | Some src => if seq_dec src [] then Err ErrNoIframeSrc else Ok src
      | None => Err ErrNoIframeSrc
      end
  end.

(** [regexp.MustCompile(`src: '(/prorcp/[^']+)`)]. *)
Definition proRCP_re : regexp.Regexp :=
  {| regexp.before := regexp.lits (str "src: '");
     regexp.group :=
       regexp.lits (str "/prorcp/") ++ [regexp.Plus regexp.not_quote];
     regexp.after := [] |}.

(** [extractProRCPURL]. *)
Definition extractProRCPURL (rcpHTML : gostring) : result gostring :=
  let match_ := regexp.FindStringSubmatch proRCP_re rcpHTML in
  if len match_ <? 2 then Err ErrNoProRCPURL
  else index match_ 1.

End Program.

Section Pipeline.
Context `{Env}.

Definition cloudnestra : gostring := str "https://cloudnestra.com".

(** [script[src*='/sV05kUlNvOdOxvtC/']] and [div[style='display:none;']]. *)
Definition script_sel : goquery.Selector :=
  {| goquery.tag := str "script";
     goquery.attr := goquery.AttrContains (str "src") (str "/sV05kUlNvOdOxvtC/") |}.

Definition hidden_div : goquery.Selector :=
  {| goquery.tag := str "div";
     goquery.attr := goquery.AttrEquals (str "style") (str "display:none;") |}.

(** Part 1 of [decodeStreamURL]: fetch the script the page names and
    save it; every failure is logged and ignored. *)
Definition saveScript (doc : html.Node) : M unit :=
  let scriptSel := goquery.Find doc script_sel in
  if 0 <? len scriptSel then
    match goquery.Attr_ (goquery.First scriptSel) (str "src") with
    | Some src =>
        let fullURL := cloudnestra ++ src in
        (r <- attempt (fetchContent fullURL cloudnestra) ;;
         match r with
         | inr _ => ret tt
         | inl jsContent =>
             err <- MkdirAll (str "scripts") ;;
             match err with
             | Some _ => ret tt
             | None =>
                 let scriptPath := str "scripts/prorcp.js" in
                 _ <- WriteFile scriptPath jsContent ;;
                 ret tt
             end
         end)%io
    | None => ret tt
    end
  else ret tt.

(** Part 2 of [decodeStreamURL]: the trimmed text of the first hidden
    div, the variable [divContent]. *)
Definition hiddenDivContent (doc : html.Node) : result gostring :=
  let divSel := goquery.Find doc hidden_div in
  if 0 <? len divSel then
    Ok (strings.TrimSpace (goquery.Text (goquery.First divSel)))
  else Err ErrNoHiddenDiv.

(** Part 3 of [decodeStreamURL]: decode the content. *)
Definition decodeContent (divContent : gostring) : result gostring :=
  if negb (seq_dec divContent []) then
    match Deobfuscate divContent with
    | Ok decodedURL => Ok decodedURL
    | Err err => Err (ErrDeobfuscating err)
    | Panic => Panic
    end
  else Err ErrNoComponents.

(** [decodeStreamURL]. *)
Definition decodeStreamURL (proRCPHTML : gostring) : M gostring :=
  match NewDocumentFromReader proRCPHTML with
  | inr err => fail (ErrParsingProRCP err)
  | inl doc =>
      (saveScript doc ;;;
       divContent <- lift (hiddenDivContent doc) ;;
       lift (decodeContent divContent))%io
  end.

(** [ResolveVariants]: the six stages up to the master playlist URL. *)
Definition ResolveVariants (o : ResolveOptions) : M gostring :=
  (embedURL <- lift (buildEmbedURL o) ;;
   embedHTML <- fetchContent embedURL [] ;;
   rcpURL <- lift (extractRCPURL embedHTML) ;;
   rcpHTML <- fetchContent (str "https:" ++ rcpURL) [] ;;
   proRCPURL <- lift (extractProRCPURL rcpHTML) ;;
   proRCPHTML <- fetchContent (cloudnestra ++ proRCPURL) cloudnestra ;;
   hlsURL <- decodeStreamURL proRCPHTML ;;
   ret hlsURL)%io.

(** [for i, x := range l { s = body(i, x, s) }]. *)
Fixpoint range_loop {A S} (l : list A) (i : Z)
    (body : Z -> A -> S -> result S) (s : S) : result S :=
  match l with
  | [] => Ok s
  | x :: l' =>
      match body i x s with
      | Ok s' => range_loop l' (i + 1) body s'
      | Err e => Err e
      | Panic => Panic
      end
  end.

(** [parseAttributes]: the [KEY=VALUE] parts of a comma-separated
    line, as a map. *)
Definition parseAttributes (line : gostring)
  : result (gmap gostring gostring) :=
  let parts := strings.Split line "," in
  range_loop parts 0
    (fun _ part attrs =>
       if strings.Contains part "=" then
         (let kv := strings.SplitN2 (strings.TrimSpace part) "=" in
          key <- index kv 0 ;;
          v <- index kv 1 ;;
          let val := strings.Trim v "034" in
          Ok (<[key := val]> attrs))%go
       else Ok attrs)
    ∅.

(** [attrs[key]]: the empty string for a missing key. *)
Definition map_get (attrs : gmap gostring gostring) (key : gostring)
  : gostring :=
  default [] (attrs !! key).

(** [resolveRelativeURL]. *)
Definition resolveRelativeURL (baseStr refStr : gostring) : gostring :=
  match url_Parse baseStr with
  | inr _ => refStr
  | inl base =>
      match url_Parse refStr with
      | inr _ => refStr
      | inl ref => url_String (url_ResolveReference base ref)
      end
  end.

Definition STREAM_INF : gostring := str "#EXT-X-STREAM-INF".

(** The body of the loop over the lines of the playlist. *)
Definition variantOfLine (masterURL : gostring) (lines : list gostring)
    (i : Z) (line : gostring) (variants : list StreamVariant)
  : result (list StreamVariant) :=
  let line := strings.TrimSpace line in
  if strings.HasPrefix line STREAM_INF then
    (attrs <- parseAttributes line ;;
     let resolution := map_get attrs (str "RESOLUTION") in
     let bandwidth := map_get attrs (str "BANDWIDTH") in
     if i + 1 <? len lines then
       next <- index lines (i + 1) ;;
       let urlLine := strings.TrimSpace next in
       if negb (seq_dec urlLine []) && negb (strings.HasPrefix urlLine (str "#"))
       then
         let abs := resolveRelativeURL masterURL urlLine in
         let variant :=
           {| Resolution := resolution; Bandwidth := bandwidth; URL := abs |} in
         Ok (variants ++ [variant])
       else Ok variants
     else Ok variants)%go
  else Ok variants.

(** The second half of [ResolveStreams]: the variants of a playlist
    body, an error if there are none. *)
Definition parseVariants (masterURL body : gostring)
  : result (list StreamVariant) :=
  let lines := strings.Split body "010" in
  rbind (range_loop lines 0 (variantOfLine masterURL lines) [])
    (fun variants =>
       if len variants =? 0 then Err (ErrNoVariants masterURL)
       else Ok variants).

(** [ResolveStreams]. *)
Definition ResolveStreams (o : ResolveOptions) : M (list StreamVariant) :=
  (masterURL <- ResolveVariants o ;;
   resp <- client_Get masterURL ;;
   match resp with
   | inr err => fail (ErrFetchingMaster masterURL err)
   | inl resp =>
       if negb (resp.(StatusCode) =? StatusOK) then
         fail (ErrMasterStatus resp.(StatusCode) masterURL)
       else
         match resp.(Body) with
         | inr err => fail (ErrReadingMaster masterURL err)
         | inl body => lift (parseVariants masterURL body)
         end
   end)%io.

End Pipeline.

(** ** Reference functions the loops of the program are compared with *)

(** The elements at the even indices [0, 2, 4, ...] of a list. *)
Fixpoint evens {A} (l : list A) : list A :=
  match l with
  | [] => []
  | x :: l' => x :: match l' with [] => [] | _ :: l'' => evens l'' end
  end.

(** The state [l'] of the slice [l] after [k] swaps of the reversal loop:
    the first and the last [k] elements are exchanged, mirrored. *)
Definition swapped {A} (k : nat) (l l' : list A) : Prop :=
  length l' = length l
  /\ forall j : nat, (j < length l)%nat ->
       l' !! j = if (j <? k)%nat || (length l - k <=? j)%nat
                 then l !! (length l - 1 - j)%nat else l !! j.


(** A rune that [string(rs)] writes as it is: a Unicode scalar value.
    Any other value is written as [RuneError]. *)
Definition valid (r : rune) : bool :=
  (0 <=? r) && (r <=? utf8.MaxRune)
  && negb ((utf8.surrogateMin <=? r) && (r <=? utf8.surrogateMax)).

Definition sanitize (r : rune) : rune := if valid r then r else utf8.RuneError.

(** ASCII text: every byte is below [RuneSelf]. *)
Definition isASCII (s : gostring) : Prop := Forall (fun c => byteZ c < 0x80) s.

(** The two conditions [acceptRanges] puts on the second byte of a
    three-byte and of a four-byte encoding. *)
Definition accept3 (y0 y1 : Z) : Prop :=
  (y0 = 0xE0 -> 0xA0 <= y1) /\ (y0 = 0xED -> y1 <= 0x9F).

Definition accept4 (y0 y1 : Z) : Prop :=
  (y0 = 0xF0 -> 0x90 <= y1) /\ (y0 = 0xF4 -> y1 <= 0x8F).

(** ** The forward obfuscation

    Modelled from the spec: the obfuscator is not part of the program.
    Section 8 of the specification describes it: base64-encode the
    plaintext, insert a filler character at every odd position, reverse.
    [interleave text filler] puts the fillers after the characters of
    [text], one each as long as there are fillers. *)
Fixpoint interleave (text filler : list rune) : list rune :=
  match text with
  | [] => []
  | c :: text' =>
      match filler with
      | [] => text
      | f :: filler' => c :: f :: interleave text' filler'
      end
  end.

Definition obfuscate (plaintext : gostring) (filler : list rune) : gostring :=
  let text := map byteZ (base64.EncodeToString plaintext) in
  string_of_runes (reverse (interleave text filler)).

(** ** Reference notions for the pattern of [extractProRCPURL] *)

(** The text left after the longest prefix of bytes of a class. *)
Fixpoint skip_class (class : ascii -> bool) (s : gostring) : gostring :=
  match s with
  | c :: s' => if class c then skip_class class s' else s
  | [] => []
  end.

(** The literal prefix of a match of the program's pattern. *)
Definition proRCP_prefix : gostring := str "src: '/prorcp/".

(** [s] starts with a match of [src: '(/prorcp/[^']+)]: the literal
    prefix and at least one byte other than a quote. *)
Definition proRCP_at (s : gostring) : Prop :=
  exists c rest, s = proRCP_prefix ++ c :: rest /\ c <> "'"%char.

(** Modelled from the spec: the pattern [src:\s*'(/prorcp/[^']+)'] that
    section 4.2 of the specification gives for this extraction. *)
Definition spec_proRCP_re : regexp.Regexp :=
  {| regexp.before :=
       regexp.lits (str "src:") ++ [regexp.Star regexp.perl_space]
       ++ regexp.lits (str "'");
     regexp.group :=
       regexp.lits (str "/prorcp/") ++ [regexp.Plus regexp.not_quote];
     regexp.after := regexp.lits (str "'") |}.

(** ** Reference notions for documents *)

(** [inside n p]: the node [n] is [p] or one of its descendants. *)
Inductive inside : html.Node -> html.Node -> Prop :=
| inside_self (n : html.Node) : inside n n
| inside_child (n c p : html.Node) :
    In c (html.children p) -> inside n c -> inside n p.

(** A [div] element with an attribute [style] whose value is exactly
    [display:none;]. *)
Definition is_hidden_div (n : html.Node) : Prop :=
  html.isElement n = true /\ html.Data n = str "div"
  /\ exists a, In a (html.Attr n)
       /\ html.Key a = str "style" /\ html.Val a = str "display:none;".

(** The document contains such a [div]: below one of the elements of
    the document node. *)
Definition contains_hidden_div (doc : html.Node) : Prop :=
  exists c n, In c (html.children doc) /\ html.isElement c = true
              /\ inside n c /\ is_hidden_div n.

(** Modelled from the spec: section 4.5 asks that the decoded string be a
    syntactically valid absolute URL, a check the program does not have.
    An absolute URL starts with a scheme and a colon (RFC 3986, 4.3);
    [has_scheme] is this necessary condition. *)
Definition is_alpha (c : ascii) : bool :=
  between 0x41 0x5A c || between 0x61 0x7A c.

Definition is_scheme_char (c : ascii) : bool :=
  is_alpha c || between 0x30 0x39 c || beq c "+" || beq c "-" || beq c ".".

Definition has_scheme (s : gostring) : bool :=
  match s with
  | c :: s' =>
      is_alpha c
      && match skip_class is_scheme_char s' with
         | x :: _ => beq x ":"
         | [] => false
         end
  | [] => false
  end.

(** ** A fixture: canned pages and documents

    An instance of [Env] for examples: the network answers from a table
    of pages (404 for any other URL), the HTML parser from a table of
    documents, the file system accepts every write, and references are
    resolved against the directory of the base, which is what RFC 3986
    gives for a relative path without dot segments. *)
Record Fixture : Type := {
  pages : list (gostring * (Z * gostring));
  documents : list (gostring * html.Node)
}.

Fixpoint assoc {V} (k : gostring) (table : list (gostring * V)) : option V :=
  match table with
  | [] => None
  | (k', v) :: table' => if seq_dec k k' then Some v else assoc k table'
  end.

Definition empty_document : html.Node :=
  html.mkNode html.DocumentNode [] [] [].

Definition directory (base : gostring) : gostring :=
  reverse (skip_class (fun c => negb (beq c "/")) (reverse base)).

#[local] Instance fixture_env (f : Fixture) : Env := {|
  NewDocumentFromReader s := inl (default empty_document (assoc s f.(documents)));
  url_URL := gostring;
  url_Parse s := inl s;
  url_ResolveReference base ref := directory base ++ ref;
  url_String u := u;
  http_NewRequest _ := None;
  client_RoundTrip _ req :=
    match assoc req.(reqURL) f.(pages) with
    | Some (status, body) => inl {| StatusCode := status; Body := inl body |}
    | None => inl {| StatusCode := 404; Body := inl [] |}
    end;
  os_MkdirAll _ _ := None;
  os_WriteFile _ _ _ := None
|}.

(** The pages of a title, with the status of the entry page, the hidden
    token and the master playlist left open. *)
Definition element (tag : string) (attrs : list (string * string))
    (children : list html.Node) : html.Node :=
  html.mkNode html.ElementNode (str tag)
    (map (fun kv => {| html.Key := str (fst kv); html.Val := str (snd kv) |}) attrs)
    children.

Definition text (data : string) : html.Node :=
  html.mkNode html.TextNode (str data) [] [].

Definition document (children : list html.Node) : html.Node :=
  html.mkNode html.DocumentNode [] [] children.

Definition embed_page : gostring := str "<embed page>".
Definition rcp_page : gostring :=
  str "$('<iframe>', { id: 'player_iframe', src: '/prorcp/OTk0', frameborder: 0 })".
Definition prorcp_page : gostring := str "<prorcp page>".

Definition embed_doc : html.Node :=
  document [element "html" [] [element "body" []
    [element "iframe" [("id", "player_iframe"); ("src", "//cloudnestra.com/rcp/YTUz")] []]]].

Definition prorcp_doc (token : string) : html.Node :=
  document [element "html" [] [element "body" []
    [element "div" [("id", "xTyBxQyGTA"); ("style", "display:none;")]
       [text token]]]].

Definition title_fixture (status : Z) (token : string) (playlist : string) : Fixture := {|
  pages :=
    [ (str "https://vidsrc-embed.ru/embed/movie?imdb=tt0137523", (status, embed_page));
      (str "https://cloudnestra.com/rcp/YTUz", (200, rcp_page));
      (str "https://cloudnestra.com/prorcp/OTk0", (200, prorcp_page));
      (str "https://cdn.example.com/movie/master.m3u8", (200, str playlist)) ];
  documents := [ (embed_page, embed_doc); (prorcp_page, prorcp_doc token) ]
|}.

Definition fight_club : ResolveOptions :=
  {| IMDBID := str "tt0137523"; Type_ := Movie; Season := 0; Episode := 0 |}.

(** A token that decodes to the URL of the fixture's master playlist,
    and one that decodes to [hello]. *)
Definition master_token : string :=
  "x=xgxTxdxzx0xmxLxyxVxGxdxzxFxWxbxvxUxWxax2x9xWxbxvx0x2xbxjx5xSxZxsxBxXxbxhxhxXxZxux4xGxZxjx9xyxLx6xMxHxcx0xRxHxa".

Definition hello_token : string := "=x8xGxbxsxVxGxa".

(** ** Reference functions for the playlist parser *)
Section Playlist.
Context `{Env}.

(** The URL line of a tag, given the line that follows it immediately
    (if any): that line, trimmed, unless it is blank or starts with [#]. *)
Definition uri_line (next : option gostring) : option gostring :=
  match next with
  | Some l =>
      let urlLine := strings.TrimSpace l in
      if negb (seq_dec urlLine []) && negb (strings.HasPrefix urlLine (str "#"))
      then Some urlLine else None
  | None => None
  end.

(** The variant of a tag line: its attributes and the resolved URL line
    [uri], nothing when the tag has no URL line. *)
Definition variant_of (masterURL line : gostring) (uri : option gostring)
  : result (list StreamVariant) :=
  let line := strings.TrimSpace line in
  if strings.HasPrefix line STREAM_INF then
    rbind (parseAttributes line) (fun attrs =>
      match uri with
      | Some urlLine =>
          Ok [ {| Resolution := map_get attrs (str "RESOLUTION");
                  Bandwidth := map_get attrs (str "BANDWIDTH");
                  URL := resolveRelativeURL masterURL urlLine |} ]
      | None => Ok []
      end)
  else Ok [].

(** The variants of a playlist, read without indices: each tag line
    with the line immediately after it. *)
Fixpoint adjacent_variants (masterURL : gostring) (lines : list gostring)
  : result (list StreamVariant) :=
  match lines with
  | [] => Ok []
  | line :: rest =>
      rbind (variant_of masterURL line (uri_line (head rest))) (fun here =>
      rbind (adjacent_variants masterURL rest) (fun there =>
      Ok (here ++ there)))
  end.

(** Modelled from the spec: section 4.4 takes as the URL line of a tag
    the next line that is neither blank nor starts with [#], skipping
    the lines in between. *)
Fixpoint next_uri (lines : list gostring) : option gostring :=
  match lines with
  | [] => None
  | l :: rest =>
      match uri_line (Some l) with
      | Some urlLine => Some urlLine
      | None => next_uri rest
      end
  end.

Fixpoint spec_variants (masterURL : gostring) (lines : list gostring)
  : result (list StreamVariant) :=
  match lines with
  | [] => Ok []
  | line :: rest =>
      rbind (variant_of masterURL line (next_uri rest)) (fun here =>
      rbind (spec_variants masterURL rest) (fun there =>
      Ok (here ++ there)))
  end.

End Playlist.

(** Playlists for the examples: the one of section 8 of the
    specification, and one with a blank line between a tag and its URL. *)
Definition playlist : string := "#EXTM3U
#EXT-X-STREAM-INF:BANDWIDTH=1280000,RESOLUTION=720x480
720p/index.m3u8
#EXT-X-STREAM-INF:BANDWIDTH=640000,RESOLUTION=320x240
320p/index.m3u8
".

Definition gapped_playlist : string := "#EXTM3U
#EXT-X-STREAM-INF:BANDWIDTH=1280000,RESOLUTION=720x480

720p/index.m3u8
".

Definition master_url : gostring :=
  str "https://cdn.example.com/movie/master.m3u8".

(** A world like [fixture_env] in which [url.Parse] refuses the string
    [bad], as it refuses [%zz/index.m3u8] for its invalid escape. *)
#[local] Instance refusing_env (bad : gostring) (f : Fixture) : Env := {|
  NewDocumentFromReader s := inl (default empty_document (assoc s f.(documents)));
  url_URL := gostring;
  url_Parse s :=
    if seq_dec s bad then inr (LibraryError (str "invalid URL escape"))
    else inl s;
  url_ResolveReference base ref := directory base ++ ref;
  url_String u := u;
  http_NewRequest _ := None;
  client_RoundTrip _ req :=
    match assoc req.(reqURL) f.(pages) with
    | Some (status, body) => inl {| StatusCode := status; Body := inl body |}
    | None => inl {| StatusCode := 404; Body := inl [] |}
    end;
  os_MkdirAll _ _ := None;
  os_WriteFile _ _ _ := None
|}.

Definition escaped_playlist : string := "#EXTM3U
#EXT-X-STREAM-INF:BANDWIDTH=1280000,RESOLUTION=720x480
%zz/index.m3u8
#EXT-X-STREAM-INF:BANDWIDTH=640000,RESOLUTION=320x240
320p/index.m3u8
".

(** A stage-2 page whose only [div] has the style [display:none], without
    the semicolon. *)
Definition near_miss_doc : html.Node :=
  document [element "html" [] [element "body" []
    [element "div" [("id", "xTyBxQyGTA"); ("style", "display:none")]
       [text hello_token]]]].

Definition near_miss_fixture : Fixture :=
  {| pages := []; documents := [ (prorcp_page, near_miss_doc) ] |}.

(** A byte that [strings.TrimSpace] may remove from an end of a string:
    an ASCII white space, or a byte of a non-ASCII character. *)
Definition droppable (b : ascii) : Prop :=
  strings.asciiSpace b = true \/ 0x80 <= byteZ b.

(** ** Reference notions for the entry page *)

(** An [iframe] element with an attribute [id] whose value is
    [player_iframe]. *)
Definition is_player_iframe (n : html.Node) : Prop :=
  html.isElement n = true /\ html.Data n = str "iframe"
  /\ exists a, In a (html.Attr n)
       /\ html.Key a = str "id" /\ html.Val a = str "player_iframe".

(** The document contains the node [n] below one of the elements of the
    document node. *)
Definition in_document (n doc : html.Node) : Prop :=
  exists c, In c (html.children doc) /\ html.isElement c = true /\ inside n c.

(** The request [fetchContent] sends for a URL and a referer. *)
Definition request_of (url referer : gostring) : Request :=
  {| reqURL := url;
     reqReferer := if seq_dec referer [] then None else Some referer |}.

(** The events of the optional script step of stage 6: an initial part
    of "request the script, create the directory, write the file". *)
Definition script_events (evs : list event) : Prop :=
  exists src jsContent more,
    [ EvDo (request_of (cloudnestra ++ src) cloudnestra);
      EvMkdirAll (str "scripts");
      EvWriteFile (str "scripts/prorcp.js") jsContent ] = evs ++ more.

(** A stage-2 page that names a script, and the worlds in which the
    script is served with a given status. *)
Definition script_doc : html.Node :=
  document [element "html" []
    [ element "head" []
        [element "script" [("src", "/sV05kUlNvOdOxvtC/bd228be1.js?_=1744906950")] []];
      element "body" []
        [element "div" [("id", "xTyBxQyGTA"); ("style", "display:none;")]
           [text hello_token]] ]].

Definition script_fixture (status : Z) : Fixture := {|
  pages :=
    [ (str "https://cloudnestra.com/sV05kUlNvOdOxvtC/bd228be1.js?_=1744906950",
       (status, str "var x = 1;")) ];
  documents := [ (prorcp_page, script_doc) ]
|}.


(** ** Reference notions for the playlist and its attributes *)

(** A playlist with Windows line ends: [\r\n] for every [\n]. *)
Definition crlf (s : gostring) : gostring :=
  flat_map (fun c => if beq c "010" then ["013"; "010"] else [c])%char s.

(** The part [part] of a line reads [key=v] once trimmed, [key] being
    what stands before the first [=], and [val] is [v] without the
    double quotes around it. *)
Definition assigns (key part val : gostring) : Prop :=
  ~ In "="%char key
  /\ exists v, strings.TrimSpace part = key ++ "="%char :: v
               /\ val = strings.Trim v "034".

(** [part] is the last of [parts] to assign to [key], and assigns [val]. *)
Definition last_assigns (key : gostring) (parts : list gostring)
    (val : gostring) : Prop :=
  exists before part after,
    parts = before ++ part :: after
    /\ assigns key part val
    /\ Forall (fun p => forall val', ~ assigns key p val') after.

(** ** What the program may do to the world *)

Definition is_request (e : event) : bool :=
  match e with EvDo _ => true | _ => false end.

(** The events the program is seen to cause: requests without a
    [Referer] header; requests to [https://cloudnestra.com...] with
    that site as [Referer]; the directory [scripts] and the file
    [scripts/prorcp.js]. *)
Definition permitted (e : event) : Prop :=
  match e with
  | EvDo req =>
      match req.(reqReferer) with
      | None => True
      | Some referer =>
          referer = cloudnestra
          /\ strings.HasPrefix req.(reqURL) cloudnestra = true
      end
  | EvMkdirAll path => path = str "scripts"
  | EvWriteFile path _ => path = str "scripts/prorcp.js"
  end.

(** [m] only appends to the history: at most [requests] requests and
    [others] other events, all of them permitted. *)
Definition effects {A} (m : M A) (requests others : nat) : Prop :=
  forall h, exists evs,
    snd (m h) = h ++ evs
    /\ (length (List.filter is_request evs) <= requests)%nat
    /\ (length (List.filter (fun e => negb (is_request e)) evs) <= others)%nat
    /\ Forall permitted evs.

(** ** Characters the Base64 decoder refuses *)

(** A byte that is neither in the Base64 alphabet, nor [=], nor a line
    break. *)
Definition alien (c : ascii) : bool :=
  match base64.decodeMap c with
  | Some _ => false
  | None => negb (base64.isNewline c) && negb (beq c base64.padChar)
  end.

(** A rune the decoder can read: the code of a byte that is not alien. *)
Definition base64_rune (r : rune) : bool :=
  (0 <=? r) && (r <=? 0x7F) && negb (alien (byte_of r)).

(** ** Reference notions for the hidden token *)

(** The nodes of the tree of [n] in document order: [n], then the trees
    of its children, first to last. *)
Fixpoint descendants (n : html.Node) : list html.Node :=
  n :: flat_map descendants (html.children n).

(** The text content of a node: the data of the text nodes of its tree,
    in document order. *)
Definition text_content (n : html.Node) : gostring :=
  concat (map html.Data (List.filter html.isText (descendants n))).

(** The nodes a selection on the document ranges over, in document
    order: the trees of the element children of the document node. *)
Definition document_nodes (doc : html.Node) : list html.Node :=
  flat_map descendants (List.filter html.isElement (html.children doc)).

(** A string made of white-space characters only: each of its runes is
    one that [unicode.IsSpace] accepts. *)
Definition white (l : gostring) : Prop :=
  Forall (fun r => unicode.IsSpace r = true) (runes_of_string l).

(** [token] is [text] without the white space at its two ends: what is
    cut off is white, and [token] neither starts nor ends with a
    white-space character. *)
Definition trimmed (text token : gostring) : Prop :=
  exists pre post,
    text = pre ++ token ++ post
    /\ white pre /\ white post
    /\ unicode.IsSpace (fst (utf8.DecodeRuneInString token)) = false
    /\ unicode.IsSpace (fst (utf8.DecodeLastRuneInString token)) = false.

(** A page with two hidden divs: the text of the first is spread over
    nested nodes and surrounded by white space, a no-break space
    included. *)
Definition padded_doc : html.Node :=
  document [element "html" [] [element "body" []
    [ element "p" [("style", "display:none;")] [text "not a div"];
      element "div" [("id", "xTyBxQyGTA"); ("style", "display:none;")]
        [ html.mkNode html.TextNode
            ("194"%char :: "160"%char :: str "
   ") [] [];
          element "b" [] [text "=x8xGx"];
          text "bxsxVxGxa
  ";
          html.mkNode html.TextNode ["194"%char; "160"%char; "009"%char] [] [] ];
      element "div" [("style", "display:none;")] [text master_token] ]]].

Definition padded_fixture : Fixture :=
  {| pages := []; documents := [ (prorcp_page, padded_doc) ] |}.
(** * Properties *)

(** ** The entry URL *)

Lemma seq_dec_true (a b : gostring) : a = b -> seq_dec a b = true.
Proof. intros ->. unfold seq_dec. now apply bool_decide_eq_true_2. Qed.

Lemma seq_dec_false (a b : gostring) : a <> b -> seq_dec a b = false.
Proof. intros Hne. unfold seq_dec. now apply bool_decide_eq_false_2. Qed.

Lemma Sprintf_movie (base id : gostring) :
  fmt.Sprintf (str "%s/embed/movie?imdb=%s") [fmt.S_ base; fmt.S_ id]
  = base ++ str "/embed/movie?imdb=" ++ id.
Proof. cbn. rewrite app_nil_r. reflexivity. Qed.

Lemma Sprintf_tv (base id : gostring) (s e : Z) :
  fmt.Sprintf (str "%s/embed/tv?imdb=%s&season=%d&episode=%d")
    [fmt.S_ base; fmt.S_ id; fmt.D_ s; fmt.D_ e]
  = base ++ str "/embed/tv?imdb=" ++ id ++ str "&season=" ++ fmt.itoa s
    ++ str "&episode=" ++ fmt.itoa e.
Proof. cbn -[fmt.itoa]. rewrite app_nil_r. reflexivity. Qed.

Lemma Movie_ne_TV : Movie <> TV.
Proof. discriminate. Qed.

Example itoa_12 : fmt.itoa 12 = str "12".
Proof. reflexivity. Qed.

(** The outcome of [buildEmbedURL] on a movie and on a tv request. *)
Lemma buildEmbedURL_movie (o : ResolveOptions) :
  o.(Type_) = Movie ->
  buildEmbedURL o =
    if seq_dec o.(IMDBID) [] then Err ErrMovieEmptyID
    else Ok (vidsrcBase ++ str "/embed/movie?imdb=" ++ o.(IMDBID)).
Proof.
  intros Ht. unfold buildEmbedURL. rewrite Ht, seq_dec_true by reflexivity.
  now rewrite Sprintf_movie.
Qed.

Lemma buildEmbedURL_tv (o : ResolveOptions) :
  o.(Type_) = TV ->
  buildEmbedURL o =
    if seq_dec o.(IMDBID) [] then Err ErrTVEmptyID
    else if (o.(Season) =? 0) || (o.(Episode) =? 0)
    then Err (ErrSeasonEpisodeUnset o.(IMDBID))
    else Ok (vidsrcBase ++ str "/embed/tv?imdb=" ++ o.(IMDBID)
             ++ str "&season=" ++ fmt.itoa o.(Season)
             ++ str "&episode=" ++ fmt.itoa o.(Episode)).
Proof.
  intros Ht. unfold buildEmbedURL. rewrite Ht.
  rewrite (seq_dec_false TV Movie) by discriminate.
  rewrite seq_dec_true by reflexivity.
  now rewrite Sprintf_tv.
Qed.

(** C5. A movie request with a non-empty identifier yields exactly
    [{base}/embed/movie?imdb={id}], the bytes of the identifier copied
    unchanged; a series (tv) request with a non-empty identifier and
    positive season and episode yields exactly
    [{base}/embed/tv?imdb={id}&season={n}&episode={m}], the numbers in
    decimal. *)
Theorem buildEmbedURL_valid_request (o : ResolveOptions) :
  o.(IMDBID) <> [] ->
  (o.(Type_) = Movie ->
   buildEmbedURL o =
     Ok (vidsrcBase ++ str "/embed/movie?imdb=" ++ o.(IMDBID)))
  /\ (o.(Type_) = TV -> 0 < o.(Season) -> 0 < o.(Episode) ->
      buildEmbedURL o =
        Ok (vidsrcBase ++ str "/embed/tv?imdb=" ++ o.(IMDBID)
            ++ str "&season=" ++ fmt.itoa o.(Season)
            ++ str "&episode=" ++ fmt.itoa o.(Episode))).
Proof.
  intros Hid. split.
  - intros Ht. rewrite buildEmbedURL_movie by exact Ht.
    now rewrite seq_dec_false.
  - intros Ht Hs He. rewrite buildEmbedURL_tv by exact Ht.
    rewrite seq_dec_false by exact Hid.
    destruct (Z.eqb_spec o.(Season) 0); [lia|].
    destruct (Z.eqb_spec o.(Episode) 0); [lia|]. reflexivity.
Qed.

Lemma buildEmbedURL_valid_request_witness :
  buildEmbedURL
    {| IMDBID := str "tt1300854"; Type_ := Movie; Season := 0; Episode := 0 |}
  = Ok (str "https://vidsrc-embed.ru/embed/movie?imdb=tt1300854")
  /\ buildEmbedURL
       {| IMDBID := str "tt0944947"; Type_ := TV; Season := 1; Episode := 2 |}
     = Ok (str "https://vidsrc-embed.ru/embed/tv?imdb=tt0944947&season=1&episode=2").
Proof.
  split.
  - apply (buildEmbedURL_valid_request
             {| IMDBID := str "tt1300854"; Type_ := Movie;
                Season := 0; Episode := 0 |}); [discriminate | reflexivity].
  - apply (buildEmbedURL_valid_request
             {| IMDBID := str "tt0944947"; Type_ := TV;
                Season := 1; Episode := 2 |});
      [discriminate | reflexivity | reflexivity | reflexivity].
Defined.

(** C6, as stated, fails: a series request with a negative season is not
    refused; the guard of the program is [Season == 0 || Episode == 0]. *)
Lemma buildEmbedURL_negative_season :
  let o := {| IMDBID := str "tt0944947"; Type_ := TV;
              Season := -1; Episode := 2 |} in
  ~ (0 < o.(Season))
  /\ buildEmbedURL o
     = Ok (str "https://vidsrc-embed.ru/embed/tv?imdb=tt0944947&season=-1&episode=2").
Proof. split; [cbn; lia | reflexivity]. Qed.

(** C6, amended. A tv request succeeds exactly when the identifier is
    non-empty and season and episode are both different from zero (zero
    being the value of an omitted field); an empty identifier or a zero
    season or episode is refused, and so is a type other than [movie]
    and [tv]. *)
Theorem buildEmbedURL_series_guard (o : ResolveOptions) :
  (o.(Type_) = TV ->
     ((exists u, buildEmbedURL o = Ok u)
        <-> o.(IMDBID) <> [] /\ o.(Season) <> 0 /\ o.(Episode) <> 0)
     /\ (o.(IMDBID) = [] -> buildEmbedURL o = Err ErrTVEmptyID)
     /\ (o.(IMDBID) <> [] -> o.(Season) = 0 \/ o.(Episode) = 0 ->
         buildEmbedURL o = Err (ErrSeasonEpisodeUnset o.(IMDBID))))
  /\ (o.(Type_) <> Movie -> o.(Type_) <> TV ->
      buildEmbedURL o = Err (ErrUnsupportedMedia o.(Type_) o.(IMDBID))).
Proof.
  split.
  - intros Ht. rewrite buildEmbedURL_tv by exact Ht.
    destruct (decide (o.(IMDBID) = [])) as [Hid|Hid].
    + rewrite seq_dec_true by exact Hid.
      split; [split|split].
      * intros [u Hu]. discriminate.
      * intros [Hne _]. contradiction.
      * reflexivity.
      * intros Hne. contradiction.
    + rewrite seq_dec_false by exact Hid.
      destruct (Z.eqb_spec o.(Season) 0);
        destruct (Z.eqb_spec o.(Episode) 0); cbn;
        (split; [split|split]);
        try (intros [u Hu]; discriminate);
        try (intros (_ & Hs & He); contradiction);
        try (intros _; eauto; fail);
        try (intros _ _; reflexivity);
        try contradiction;
        try (intros _ [Hs|He]; contradiction).
  - intros Hm Ht. unfold buildEmbedURL.
    now rewrite !seq_dec_false.
Qed.

Lemma buildEmbedURL_series_guard_witness :
  (exists u,
     buildEmbedURL {| IMDBID := str "tt0944947"; Type_ := TV;
                      Season := 1; Episode := 2 |} = Ok u)
  /\ buildEmbedURL {| IMDBID := str "tt0944947"; Type_ := TV;
                      Season := 1; Episode := 0 |}
     = Err (ErrSeasonEpisodeUnset (str "tt0944947"))
  /\ buildEmbedURL {| IMDBID := str "tt0944947"; Type_ := str "series";
                      Season := 1; Episode := 2 |}
     = Err (ErrUnsupportedMedia (str "series") (str "tt0944947")).
Proof.
  split; [|split].
  - apply (proj1 (buildEmbedURL_series_guard
       {| IMDBID := str "tt0944947"; Type_ := TV; Season := 1; Episode := 2 |})
       eq_refl).
    cbn; repeat split; discriminate.
  - apply (proj1 (buildEmbedURL_series_guard
       {| IMDBID := str "tt0944947"; Type_ := TV; Season := 1; Episode := 0 |})
       eq_refl); [discriminate | right; reflexivity].
  - apply (proj2 (buildEmbedURL_series_guard
       {| IMDBID := str "tt0944947"; Type_ := str "series";
          Season := 1; Episode := 2 |})); discriminate.
Defined.

(** ** The token decoder: the two loops of [Deobfuscate] *)

Lemma at_nat {A} (l : list A) (i : nat) : at_ l (Z.of_nat i) = l !! i.
Proof.
  unfold at_. destruct (Z.ltb_spec (Z.of_nat i) 0); [lia|]. now rewrite Nat2Z.id.
Qed.

Lemma index_nat {A} (l : list A) (i : nat) (a : A) :
  l !! i = Some a -> index l (Z.of_nat i) = Ok a.
Proof. intros Hl. unfold index. now rewrite at_nat, Hl. Qed.

Lemma assign_nat {A} (l : list A) (i : nat) (v : A) :
  (i < length l)%nat -> assign l (Z.of_nat i) v = Ok (<[i := v]> l).
Proof.
  intros Hi. unfold assign. rewrite at_nat, Nat2Z.id.
  destruct (lookup_lt_is_Some_2 l i Hi) as [a ->]. reflexivity.
Qed.

Lemma swap_step (l l' : list Z) (k : nat) :
  (2 * k + 2 <= length l)%nat -> swapped k l l' ->
  exists l'', swap (len l) (Z.of_nat k) l' = Ok l'' /\ swapped (S k) l l''.
Proof.
  intros Hk [Hlen Hl'].
  assert (Hn : len l - 1 - Z.of_nat k = Z.of_nat (length l - 1 - k))
    by (unfold len; lia).
  destruct (lookup_lt_is_Some_2 l' (length l - 1 - k)) as [a Ha]; [lia|].
  destruct (lookup_lt_is_Some_2 l' k) as [b Hb]; [lia|].
  exists (<[(length l - 1 - k)%nat := b]> (<[k := a]> l')). split.
  - unfold swap. rewrite Hn, (index_nat _ _ _ Ha). cbn.
    rewrite (index_nat _ _ _ Hb). cbn.
    rewrite assign_nat by lia. cbn.
    rewrite assign_nat by (rewrite length_insert; lia). reflexivity.
  - split; [now rewrite !length_insert|].
    assert (Hb' : l !! k = Some b).
    { rewrite <- Hb, Hl' by lia.
      destruct (Nat.ltb_spec k k); [lia|].
      destruct (Nat.leb_spec (length l - k) k); [lia|]. reflexivity. }
    assert (Ha' : l !! (length l - 1 - k)%nat = Some a).
    { rewrite <- Ha, Hl' by lia.
      destruct (Nat.ltb_spec (length l - 1 - k) k); [lia|].
      destruct (Nat.leb_spec (length l - k) (length l - 1 - k)); [lia|].
      reflexivity. }
    intros j Hj.
    destruct (decide (j = length l - 1 - k)%nat) as [->|Hj1].
    + rewrite list_lookup_insert_eq by (rewrite length_insert; lia).
      replace (length l - 1 - (length l - 1 - k))%nat with k by lia.
      rewrite Hb'.
      destruct (Nat.leb_spec (length l - S k) (length l - 1 - k)); [|lia].
      now rewrite orb_true_r.
    + rewrite list_lookup_insert_ne by lia.
      destruct (decide (j = k)) as [->|Hj2].
      * rewrite list_lookup_insert_eq by lia. rewrite Ha'.
        destruct (Nat.ltb_spec k (S k)); [|lia]. reflexivity.
      * rewrite list_lookup_insert_ne by lia. rewrite Hl' by lia.
        destruct (Nat.ltb_spec j k); destruct (Nat.ltb_spec j (S k)); try lia;
        destruct (Nat.leb_spec (length l - k) j);
        destruct (Nat.leb_spec (length l - S k) j); try lia; reflexivity.
Qed.

Lemma reverse_loop_swapped (l : list Z) (count k : nat) (l' : list Z) :
  (2 * (k + count) <= length l)%nat -> swapped k l l' ->
  exists l'', for_loop count (Z.of_nat k) 1 (swap (len l)) l' = Ok l''
              /\ swapped (k + count) l l''.
Proof.
  revert k l'. induction count as [|count IH]; intros k l' Hk Hs.
  - exists l'. split; [reflexivity|]. now rewrite Nat.add_0_r.
  - destruct (swap_step l l' k) as (l1 & Hl1 & Hs1); [lia|exact Hs|].
    destruct (IH (S k) l1) as (l2 & Hl2 & Hs2); [lia|exact Hs1|].
    exists l2. split.
    + cbn. rewrite Hl1. replace (Z.of_nat k + 1) with (Z.of_nat (S k)) by lia.
      exact Hl2.
    + now replace (k + S count)%nat with (S k + count)%nat by lia.
Qed.

Lemma reverse_in_place_ok (l : list Z) : reverse_in_place l = Ok (reverse l).
Proof.
  unfold reverse_in_place.
  destruct (reverse_loop_swapped l (Z.to_nat (len l / 2)) 0 l)
    as (l' & Hl' & Hlen & Hs).
  - unfold len. assert (0 <= Z.of_nat (length l) / 2) by (apply Z.div_pos; lia).
    assert (2 * (Z.of_nat (length l) / 2) <= Z.of_nat (length l))
      by (apply Z.mul_div_le; lia).
    lia.
  - split; [reflexivity|]. intros j Hj.
    destruct (Nat.ltb_spec j 0); [lia|].
    destruct (Nat.leb_spec (length l - 0) j); [lia|]. reflexivity.
  - change (Z.of_nat 0) with 0 in Hl'. rewrite Hl'. f_equal.
    apply list_eq. intros j.
    destruct (decide (j < length l)%nat) as [Hj|Hj].
    + rewrite Hs by exact Hj. rewrite reverse_lookup by exact Hj.
      replace (length l - S j)%nat with (length l - 1 - j)%nat by lia.
      set (h := Z.to_nat (len l / 2)).
      assert (Hh : (length l <= 2 * h + 1)%nat).
      { subst h. unfold len.
        pose proof (Z.div_mod (Z.of_nat (length l)) 2 ltac:(lia)).
        pose proof (Z.mod_pos_bound (Z.of_nat (length l)) 2 ltac:(lia)).
        lia. }
      cbn [Nat.add].
      destruct (Nat.ltb_spec j h); [reflexivity|].
      destruct (Nat.leb_spec (length l - h) j); [reflexivity|].
      cbn. f_equal. lia.
    + rewrite !lookup_ge_None_2; [reflexivity | rewrite length_reverse; lia | lia].
Qed.

Lemma list_ind2 {A} (P : list A -> Prop) :
  P [] -> (forall x, P [x]) -> (forall x y l, P l -> P (x :: y :: l)) ->
  forall l, P l.
Proof.
  intros H0 H1 H2.
  assert (Hboth : forall l, P l /\ forall x, P (x :: l)).
  { induction l as [|y l [IH1 IH2]]; split; auto. }
  intros l. apply Hboth.
Qed.

Lemma evens_lookup {A} (l : list A) (k : nat) : evens l !! k = l !! (2 * k)%nat.
Proof.
  revert k. induction l as [|x|x y l IH] using list_ind2; intros k.
  - reflexivity.
  - destruct k as [|k]; [reflexivity|]. cbn. 
    replace (k + S (k + 0))%nat with (S (2 * k)) by lia. reflexivity.
  - destruct k as [|k]; [reflexivity|].
    replace (2 * S k)%nat with (S (S (2 * k))) by lia. cbn [evens lookup list_lookup].
    apply IH.
Qed.

Lemma evens_length {A} (l : list A) :
  Z.of_nat (length (evens l)) = (len l + 1) / 2.
Proof.
  unfold len. induction l as [|x|x y l IH] using list_ind2.
  - reflexivity.
  - reflexivity.
  - cbn [evens length]. rewrite !Nat2Z.inj_succ, IH.
    replace (Z.succ (Z.succ (Z.of_nat (length l))) + 1)
      with ((Z.of_nat (length l) + 1) + 1 * 2) by lia.
    rewrite Z.div_add by lia. lia.
Qed.

Lemma every_second_loop (l : list Z) (count k : nat) :
  (k + count <= length (evens l))%nat ->
  for_loop count (Z.of_nat (2 * k)) 2
    (fun i filtered => rbind (index l i) (fun r => Ok (filtered ++ [r])))
    (take k (evens l))
  = Ok (take (k + count) (evens l)).
Proof.
  revert k. induction count as [|count IH]; intros k Hk.
  - now rewrite Nat.add_0_r.
  - destruct (lookup_lt_is_Some_2 (evens l) k) as [r Hr]; [lia|].
    cbn [for_loop]. 
    rewrite (index_nat l (2 * k) r) by (now rewrite <- evens_lookup).
    cbn [rbind]. rewrite <- (take_S_r _ _ _ Hr).
    replace (Z.of_nat (2 * k) + 2) with (Z.of_nat (2 * S k)) by lia.
    rewrite IH by lia. f_equal. f_equal. lia.
Qed.

Lemma every_second_ok (l : list Z) : every_second l = Ok (evens l).
Proof.
  unfold every_second.
  pose proof (evens_length l) as Hlen.
  pose proof (every_second_loop l (length (evens l)) 0 ltac:(lia)) as Hloop.
  rewrite <- Hlen, Nat2Z.id.
  change (Z.of_nat (2 * 0)) with 0 in Hloop.
  change (take 0 (evens l)) with (@nil Z) in Hloop.
  rewrite Hloop. cbn [Nat.add]. now rewrite firstn_all.
Qed.

(** ** Bytes, bit operations and UTF-8 *)

Lemma byteZ_range (c : ascii) : 0 <= byteZ c < 256.
Proof.
  unfold byteZ. pose proof (N_ascii_bounded c) as Hb. lia.
Qed.

Lemma land_mask (x : Z) (n : Z) : 0 <= n -> Z.land x (2 ^ n - 1) = x mod 2 ^ n.
Proof.
  intros Hn. rewrite <- Z.land_ones by exact Hn. f_equal.
  rewrite Z.ones_equiv. lia.
Qed.

Lemma lor_add (a b n : Z) :
  0 <= n -> 0 <= b < 2 ^ n -> a mod 2 ^ n = 0 -> Z.lor a b = a + b.
Proof.
  intros Hn Hb Ha.
  destruct (Z.eq_dec b 0) as [->|Hb0]; [now rewrite Z.lor_0_r, Z.add_0_r|].
  assert (Hland : Z.land a b = 0).
  { apply Z.bits_inj'. intros i Hi. rewrite Z.land_spec, Z.bits_0.
    destruct (Z.lt_ge_cases i n) as [Hlt|Hge].
    - rewrite <- (Z.mod_pow2_bits_low a n i) by lia.
      now rewrite Ha, Z.bits_0.
    - rewrite (Z.bits_above_log2 b i), andb_false_r; [reflexivity|lia|].
      apply Z.log2_lt_pow2; [lia|].
      apply Z.lt_le_trans with (2 ^ n); [lia|].
      apply Z.pow_le_mono_r; lia. }
  now rewrite <- Z.lxor_lor, <- Z.add_nocarry_lxor.
Qed.

Lemma byteZ_byte_of (x : Z) : 0 <= x < 256 -> byteZ (byte_of x) = x.
Proof.
  intros Hx. unfold byteZ, byte_of.
  change 255 with (2 ^ 8 - 1). rewrite land_mask by lia.
  rewrite Z.mod_small by lia.
  rewrite N_ascii_embedding; [lia|].
  change 256%N with (Z.to_N 256). lia.
Qed.

Lemma byte_of_byteZ (c : ascii) : byte_of (byteZ c) = c.
Proof.
  unfold byte_of, byteZ. pose proof (N_ascii_bounded c) as Hb.
  change 255 with (2 ^ 8 - 1). rewrite land_mask by lia.
  rewrite Z.mod_small by lia. rewrite N2Z.id. apply ascii_N_embedding.
Qed.

Ltac zcases :=
  repeat match goal with
  | |- context [?a <? ?b] => destruct (Z.ltb_spec a b); try lia
  | |- context [?a <=? ?b] => destruct (Z.leb_spec a b); try lia
  | |- context [?a =? ?b] => destruct (Z.eqb_spec a b); try lia
  end.

Lemma shiftr_div (x n : Z) : 0 <= n -> Z.shiftr x n = x / 2 ^ n.
Proof. intros Hn. now apply Z.shiftr_div_pow2. Qed.

Lemma shiftl_mul (x n : Z) : 0 <= n -> Z.shiftl x n = x * 2 ^ n.
Proof. intros Hn. now apply Z.shiftl_mul_pow2. Qed.

Lemma land_3F (x : Z) : Z.land x 0x3F = x mod 64.
Proof. change 0x3F with (2 ^ 6 - 1). now rewrite land_mask. Qed.
Lemma land_1F (x : Z) : Z.land x 0x1F = x mod 32.
Proof. change 0x1F with (2 ^ 5 - 1). now rewrite land_mask. Qed.
Lemma land_0F (x : Z) : Z.land x 0x0F = x mod 16.
Proof. change 0x0F with (2 ^ 4 - 1). now rewrite land_mask. Qed.
Lemma land_07 (x : Z) : Z.land x 0x07 = x mod 8.
Proof. change 0x07 with (2 ^ 3 - 1). now rewrite land_mask. Qed.

Ltac dm := Z.div_mod_to_equations; lia.

Lemma Decode1 (s0 : ascii) (t : gostring) :
  byteZ s0 < 0x80 -> utf8.DecodeRuneInString (s0 :: t) = (byteZ s0, 1%nat).
Proof.
  intros H0. unfold utf8.DecodeRuneInString, utf8.first.
  destruct (Z.ltb_spec (byteZ s0) 128); [reflexivity|lia].
Qed.

Lemma between_true lo hi c : lo <= byteZ c <= hi -> between lo hi c = true.
Proof. intros Hc. unfold between. zcases; reflexivity. Qed.

Lemma Decode2 (s0 s1 : ascii) (t : gostring) :
  0xC2 <= byteZ s0 <= 0xDF -> 0x80 <= byteZ s1 <= 0xBF ->
  utf8.DecodeRuneInString (s0 :: s1 :: t)
  = (byteZ s0 mod 32 * 64 + byteZ s1 mod 64, 2%nat).
Proof.
  intros H0 H1. unfold utf8.DecodeRuneInString, utf8.first.
  destruct (Z.ltb_spec (byteZ s0) 128); [lia|].
  destruct (Z.ltb_spec (byteZ s0) 194); [lia|].
  destruct (Z.ltb_spec (byteZ s0) 224); [|lia].
  cbn [length Nat.ltb Nat.leb negb].
  rewrite between_true by (unfold utf8.locb, utf8.hicb; lia).
  cbn [negb Nat.leb]. f_equal.
  unfold utf8.mask2, utf8.maskx. rewrite land_1F, land_3F, shiftl_mul by lia.
  rewrite (lor_add _ _ 6); [reflexivity | lia | dm | dm].
Qed.

Lemma Decode3 (s0 s1 s2 : ascii) (t : gostring) :
  0xE0 <= byteZ s0 <= 0xEF -> 0x80 <= byteZ s1 <= 0xBF ->
  accept3 (byteZ s0) (byteZ s1) -> 0x80 <= byteZ s2 <= 0xBF ->
  utf8.DecodeRuneInString (s0 :: s1 :: s2 :: t)
  = (byteZ s0 mod 16 * 4096 + byteZ s1 mod 64 * 64 + byteZ s2 mod 64, 3%nat).
Proof.
  intros H0 H1 [Ha Hb] H2. unfold utf8.DecodeRuneInString, utf8.first.
  assert (Hv : Z.lor (Z.lor (Z.shiftl (Z.land (byteZ s0) utf8.mask3) 12)
                 (Z.shiftl (Z.land (byteZ s1) utf8.maskx) 6))
                 (Z.land (byteZ s2) utf8.maskx)
          = byteZ s0 mod 16 * 4096 + byteZ s1 mod 64 * 64 + byteZ s2 mod 64).
  { unfold utf8.mask3, utf8.maskx.
    rewrite land_0F, !land_3F, !shiftl_mul by lia.
    rewrite (lor_add (byteZ s0 mod 16 * 2 ^ 12) _ 12); [| lia | dm | dm].
    rewrite (lor_add _ _ 6); [reflexivity | lia | dm | dm]. }
  rewrite Hv. clear Hv.
  destruct (Z.ltb_spec (byteZ s0) 128); [lia|].
  destruct (Z.ltb_spec (byteZ s0) 194); [lia|].
  destruct (Z.ltb_spec (byteZ s0) 224); [lia|].
  unfold utf8.locb, utf8.hicb.
  destruct (Z.eqb_spec (byteZ s0) 224);
    [|destruct (Z.ltb_spec (byteZ s0) 237);
      [|destruct (Z.eqb_spec (byteZ s0) 237);
        [|destruct (Z.ltb_spec (byteZ s0) 240); [|lia]]]].
  all: cbn [length Nat.ltb Nat.leb negb].
  all: rewrite !between_true by lia.
  all: reflexivity.
Qed.

Lemma Decode4 (s0 s1 s2 s3 : ascii) (t : gostring) :
  0xF0 <= byteZ s0 <= 0xF4 -> 0x80 <= byteZ s1 <= 0xBF ->
  accept4 (byteZ s0) (byteZ s1) -> 0x80 <= byteZ s2 <= 0xBF ->
  0x80 <= byteZ s3 <= 0xBF ->
  utf8.DecodeRuneInString (s0 :: s1 :: s2 :: s3 :: t)
  = (byteZ s0 mod 8 * 262144 + byteZ s1 mod 64 * 4096
     + byteZ s2 mod 64 * 64 + byteZ s3 mod 64, 4%nat).
Proof.
  intros H0 H1 [Ha Hb] H2 H3. unfold utf8.DecodeRuneInString, utf8.first.
  assert (Hv : Z.lor (Z.lor (Z.lor
                 (Z.shiftl (Z.land (byteZ s0) utf8.mask4) 18)
                 (Z.shiftl (Z.land (byteZ s1) utf8.maskx) 12))
                 (Z.shiftl (Z.land (byteZ s2) utf8.maskx) 6))
                 (Z.land (byteZ s3) utf8.maskx)
          = byteZ s0 mod 8 * 262144 + byteZ s1 mod 64 * 4096
            + byteZ s2 mod 64 * 64 + byteZ s3 mod 64).
  { unfold utf8.mask4, utf8.maskx.
    rewrite land_07, !land_3F, !shiftl_mul by lia.
    rewrite (lor_add (byteZ s0 mod 8 * 2 ^ 18) _ 18); [| lia | dm | dm].
    rewrite (lor_add (_ + _) (byteZ s2 mod 64 * 2 ^ 6) 12); [| lia | dm | dm].
    rewrite (lor_add _ _ 6); [reflexivity | lia | dm | dm]. }
  rewrite Hv. clear Hv.
  destruct (Z.ltb_spec (byteZ s0) 128); [lia|].
  destruct (Z.ltb_spec (byteZ s0) 194); [lia|].
  destruct (Z.ltb_spec (byteZ s0) 224); [lia|].
  destruct (Z.eqb_spec (byteZ s0) 224); [lia|].
  destruct (Z.ltb_spec (byteZ s0) 237); [lia|].
  destruct (Z.eqb_spec (byteZ s0) 237); [lia|].
  destruct (Z.ltb_spec (byteZ s0) 240); [lia|].
  unfold utf8.locb, utf8.hicb.
  destruct (Z.eqb_spec (byteZ s0) 240);
    [|destruct (Z.ltb_spec (byteZ s0) 244);
      [|destruct (Z.eqb_spec (byteZ s0) 244); [|lia]]].
  all: cbn [length Nat.ltb Nat.leb negb].
  all: rewrite !between_true by lia.
  all: reflexivity.
Qed.

(** Byte values of the encoder. *)
Lemma cont_byte (x : Z) :
  byteZ (byte_of (Z.lor 0x80 (Z.land x utf8.maskx))) = 128 + x mod 64.
Proof.
  unfold utf8.maskx. rewrite land_3F.
  rewrite (lor_add _ _ 7); [| lia | dm | reflexivity].
  apply byteZ_byte_of. dm.
Qed.

Lemma lead_byte (tag x n : Z) :
  0 <= n <= 6 -> 0 <= x < 2 ^ n -> 0 <= tag -> tag mod 2 ^ n = 0 ->
  tag + x < 256 ->
  byteZ (byte_of (Z.lor tag x)) = tag + x.
Proof.
  intros Hn Hx Htag Hmod Hlt.
  rewrite (lor_add _ _ n); [| lia | lia | exact Hmod].
  apply byteZ_byte_of. lia.
Qed.

Lemma Decode_Encode (r : Z) (t : gostring) :
  valid r = true ->
  utf8.DecodeRuneInString (utf8.EncodeRune r ++ t)
  = (r, length (utf8.EncodeRune r)).
Proof.
  unfold valid, utf8.MaxRune, utf8.surrogateMin, utf8.surrogateMax.
  intros Hv.
  assert (Hr : 0 <= r <= 0x10FFFF /\ ~ (0xD800 <= r <= 0xDFFF)).
  { revert Hv. zcases; cbn; intros; try discriminate; lia. }
  clear Hv. destruct Hr as [Hr Hs].
  unfold utf8.EncodeRune, utf8.MaxRune, utf8.surrogateMin, utf8.surrogateMax.
  destruct (Z.leb_spec 0 r); [|lia]. cbn [andb orb].
  destruct (Z.leb_spec r 0x7F).
  { cbn [app length]. rewrite Decode1; rewrite byteZ_byte_of; try lia. reflexivity. }
  destruct (Z.leb_spec r 0x7FF).
  { cbn [app length].
    assert (Hlead : byteZ (byte_of (Z.lor 0xC0 (Z.shiftr r 6))) = 192 + r / 64).
    { rewrite shiftr_div by lia.
      apply (lead_byte _ _ 5); solve [lia | dm | reflexivity]. }
    rewrite Decode2; rewrite ?Hlead, ?cont_byte; try dm. f_equal. dm. }
  destruct (Z.ltb_spec r 0); [lia|].
  destruct (Z.ltb_spec 0x10FFFF r); [lia|].
  assert (Hsur : (0xD800 <=? r) && (r <=? 0xDFFF) = false).
  { destruct (Z.leb_spec 0xD800 r); destruct (Z.leb_spec r 0xDFFF);
      try reflexivity; lia. }
  rewrite Hsur. cbn [orb].
  rewrite ?(shiftr_div r 6), ?(shiftr_div r 12), ?(shiftr_div r 18) by lia.
  destruct (Z.leb_spec r 0xFFFF).
  - unfold utf8.encode3; cbn [app length].
    rewrite ?(shiftr_div r 6), ?(shiftr_div r 12) by lia.
    assert (Hlead : byteZ (byte_of (Z.lor 0xE0 (r / 2 ^ 12))) = 224 + r / 4096).
    { apply (lead_byte _ _ 4); solve [lia | dm | reflexivity]. }
    rewrite Decode3; unfold accept3; rewrite ?Hlead, ?cont_byte; try dm.
    f_equal. dm.
  - cbn [app length].
    assert (Hlead : byteZ (byte_of (Z.lor 0xF0 (r / 2 ^ 18))) = 240 + r / 262144).
    { apply (lead_byte _ _ 3); solve [lia | dm | reflexivity]. }
    rewrite Decode4; unfold accept4; rewrite ?Hlead, ?cont_byte; try dm.
    f_equal. dm.
Qed.

Lemma valid_sanitize (r : Z) : valid (sanitize r) = true.
Proof. unfold sanitize. destruct (valid r) eqn:Hv; [exact Hv | reflexivity]. Qed.

Lemma EncodeRune_sanitize (r : Z) :
  utf8.EncodeRune (sanitize r) = utf8.EncodeRune r.
Proof.
  unfold sanitize. destruct (valid r) eqn:Hv; [reflexivity|].
  change (utf8.EncodeRune utf8.RuneError) with (utf8.encode3 utf8.RuneError).
  revert Hv. unfold valid, utf8.EncodeRune, utf8.MaxRune, utf8.surrogateMin,
    utf8.surrogateMax.
  zcases; cbn; intros; try discriminate; reflexivity.
Qed.

Lemma EncodeRune_length (r : Z) : (1 <= length (utf8.EncodeRune r) <= 4)%nat.
Proof.
  unfold utf8.EncodeRune, utf8.encode3.
  repeat match goal with |- context [if ?b then _ else _] => destruct b end;
    cbn; lia.
Qed.

Lemma runes_loop_encoded (rs : list Z) (fuel : nat) :
  (length (string_of_runes rs) <= fuel)%nat ->
  runes_loop fuel (string_of_runes rs) = map sanitize rs.
Proof.
  revert fuel. induction rs as [|r rs IH]; intros fuel Hfuel.
  - destruct fuel; reflexivity.
  - unfold string_of_runes in *. cbn [map concat] in *.
    rewrite length_app in Hfuel.
    pose proof (EncodeRune_length r) as Hlen.
    destruct fuel as [|fuel]; [lia|]. cbn [runes_loop].
    destruct (utf8.EncodeRune r ++ concat (map utf8.EncodeRune rs)) eqn:Hs.
    { apply (f_equal length) in Hs. rewrite length_app in Hs. cbn in Hs. lia. }
    rewrite <- Hs. rewrite <- EncodeRune_sanitize.
    rewrite Decode_Encode by apply valid_sanitize.
    rewrite drop_app_length.
    rewrite IH by lia. reflexivity.
Qed.

Lemma runes_of_string_of_runes (rs : list Z) :
  runes_of_string (string_of_runes rs) = map sanitize rs.
Proof. unfold runes_of_string. now apply runes_loop_encoded. Qed.

Lemma string_of_runes_ascii (s : gostring) :
  isASCII s -> string_of_runes (map byteZ s) = s.
Proof.
  unfold string_of_runes. induction 1 as [|c s Hc Hs IH]; [reflexivity|].
  cbn [map concat]. rewrite IH. unfold utf8.EncodeRune.
  pose proof (byteZ_range c).
  destruct (Z.leb_spec 0 (byteZ c)); [|lia].
  destruct (Z.leb_spec (byteZ c) 0x7F); [|lia].
  cbn. now rewrite byte_of_byteZ.
Qed.

Lemma sanitize_ascii (s : gostring) :
  isASCII s -> map sanitize (map byteZ s) = map byteZ s.
Proof.
  induction 1 as [|c s Hc Hs IH]; [reflexivity|].
  cbn [map]. rewrite IH. f_equal.
  unfold sanitize, valid, utf8.MaxRune, utf8.surrogateMin, utf8.surrogateMax.
  pose proof (byteZ_range c). zcases; reflexivity.
Qed.

(** base64 *)
Lemma decodeMap_encode (x : Z) :
  0 <= x < 64 -> base64.decodeMap (base64.encode x) = Some x.
Proof.
  intros Hx. rewrite <- (Z2Nat.id x) by lia.
  assert (Hn : (Z.to_nat x < 64)%nat) by lia.
  generalize dependent (Z.to_nat x). clear x Hx. intros n Hn.
  do 64 (destruct n as [|n]; [reflexivity|]). lia.
Qed.

Lemma sextet_range (x : Z) : 0 <= Z.land x 0x3F < 64.
Proof. rewrite land_3F. dm. Qed.

Lemma pack_add (val out : Z) :
  0 <= out < 64 -> Z.lor (Z.shiftl val 6) out = val * 64 + out.
Proof.
  intros Hout. rewrite shiftl_mul by lia.
  rewrite (lor_add _ _ 6); [reflexivity | lia | lia | dm].
Qed.

Lemma byte_of_mod (x : Z) (c : ascii) : x mod 256 = byteZ c -> byte_of x = c.
Proof.
  intros Hx. rewrite <- (byte_of_byteZ c), <- Hx. unfold byte_of.
  change 255 with (2 ^ 8 - 1). rewrite !land_mask by lia.
  now rewrite Z.mod_mod by lia.
Qed.

Lemma decode_sextet (c : ascii) (rest : gostring) (si : Z) (j : nat) (val x : Z) :
  base64.decodeMap c = Some x -> 0 <= x < 64 ->
  base64.decode (c :: rest) si j val =
    match j with
    | 3%nat =>
        match base64.decode rest (si + 1) 0 0 with
        | inl bytes => inl (base64.quantum 4 (val * 64 + x) ++ bytes)
        | inr e => inr e
        end
    | _ => base64.decode rest (si + 1) (S j) (val * 64 + x)
    end.
Proof.
  intros Hc Hx. cbn [base64.decode]. rewrite Hc, pack_add by exact Hx.
  reflexivity.
Qed.

Lemma decode_encode (p : gostring) (si : Z) :
  base64.decode (base64.EncodeToString p) si 0 0 = inl p.
Proof.
  revert si.
  assert (H3 : forall p, (forall si, base64.decode (base64.EncodeToString p) si 0 0 = inl p)
             /\ (forall b0 si, base64.decode (base64.EncodeToString (b0 :: p)) si 0 0 = inl (b0 :: p))
             /\ (forall b0 b1 si, base64.decode (base64.EncodeToString (b0 :: b1 :: p)) si 0 0 = inl (b0 :: b1 :: p))).
  { clear p. induction p as [|b2 p (IH0 & IH1 & IH2)].
    - split; [reflexivity|]. split.
      + intros b0 si. cbn [base64.EncodeToString].
        pose proof (byteZ_range b0).
        rewrite !decode_sextet with (1 := decodeMap_encode _ (sextet_range _))
          by apply sextet_range.
        rewrite !shiftl_mul, !shiftr_div, !land_3F by lia.
        cbn -[Z.mul Z.div Z.modulo Z.add Z.pow byte_of].
        rewrite shiftl_mul, shiftr_div by lia.
        f_equal. f_equal. apply byte_of_mod. dm.
      + intros b0 b1 si. cbn [base64.EncodeToString].
        pose proof (byteZ_range b0). pose proof (byteZ_range b1).
        rewrite !decode_sextet with (1 := decodeMap_encode _ (sextet_range _))
          by apply sextet_range.
        rewrite !shiftl_mul, !shiftr_div, !land_3F by lia.
        rewrite (lor_add _ _ 16); [| lia | dm | dm].
        cbn -[Z.mul Z.div Z.modulo Z.add Z.pow byte_of].
        rewrite shiftl_mul, !shiftr_div by lia.
        f_equal. f_equal; [|f_equal]; apply byte_of_mod; dm.
    - split; [exact (IH1 b2)|]. split; [intros b0 si; exact (IH2 b0 b2 si)|].
      intros b0 b1 si. cbn [base64.EncodeToString].
      pose proof (byteZ_range b0). pose proof (byteZ_range b1).
      pose proof (byteZ_range b2).
      rewrite !decode_sextet with (1 := decodeMap_encode _ (sextet_range _))
        by apply sextet_range.
      rewrite IH0.
      rewrite !shiftl_mul, !shiftr_div, !land_3F by lia.
      rewrite (lor_add (byteZ b0 * 2 ^ 16) _ 16); [| lia | dm | dm].
      rewrite (lor_add _ _ 8); [| lia | dm | dm].
      unfold base64.quantum. cbn [Nat.sub take app].
      rewrite !shiftr_div by lia.
      f_equal. f_equal; [|f_equal; [|f_equal]]; apply byte_of_mod; dm. }
  intros si. apply H3.
Qed.

Lemma DecodeString_EncodeToString (p : gostring) :
  base64.DecodeString (base64.EncodeToString p) = inl p.
Proof. apply decode_encode. Qed.

(** ** The token decoder: round trip and independence of the fillers *)

Lemma list_ind3 {A} (P : list A -> Prop) :
  P [] -> (forall x, P [x]) -> (forall x y, P [x; y]) ->
  (forall x y z l, P l -> P (x :: y :: z :: l)) ->
  forall l, P l.
Proof.
  intros H0 H1 H2 H3.
  assert (Hall : forall l, P l /\ (forall x, P (x :: l))
                           /\ (forall x y, P (x :: y :: l))).
  { induction l as [|z l (IH0 & IH1 & IH2)]; repeat split; auto. }
  intros l. apply Hall.
Qed.

Lemma encode_ascii (x : Z) : byteZ (base64.encode x) < 0x80.
Proof.
  unfold base64.encode.
  assert (Hall : Forall (fun c => byteZ c < 0x80) base64.encodeStd).
  { unfold base64.encodeStd. cbn. repeat constructor. }
  destruct (at_ base64.encodeStd x) as [c|] eqn:Hc; [|reflexivity].
  unfold at_ in Hc. destruct (x <? 0); [discriminate|].
  cbn [default]. rewrite Forall_lookup in Hall. exact (Hall _ _ Hc).
Qed.

Lemma EncodeToString_ascii (p : gostring) : isASCII (base64.EncodeToString p).
Proof.
  unfold isASCII.
  induction p as [|b0|b0 b1|b0 b1 b2 p IH] using list_ind3;
    cbn [base64.EncodeToString];
    repeat (constructor; [first [apply encode_ascii | reflexivity]|]);
    first [exact IH | constructor].
Qed.

Lemma evens_map {A B} (f : A -> B) (l : list A) :
  evens (map f l) = map f (evens l).
Proof.
  induction l as [|x|x y l IH] using list_ind2; [reflexivity..|].
  cbn [map evens]. now rewrite IH.
Qed.

Lemma map_reverse {A B} (f : A -> B) (l : list A) :
  map f (reverse l) = reverse (map f l).
Proof.
  induction l as [|x l IH]; [reflexivity|].
  cbn [map]. now rewrite !reverse_cons, map_app, IH.
Qed.

Lemma evens_interleave (text filler : list Z) :
  (length text <= S (length filler))%nat ->
  evens (interleave text filler) = text.
Proof.
  revert filler. induction text as [|c text IH]; intros filler Hlen.
  - reflexivity.
  - destruct filler as [|f filler].
    + destruct text as [|c' text]; [reflexivity | cbn in Hlen; lia].
    + cbn [interleave evens]. rewrite IH by (cbn in Hlen; lia). reflexivity.
Qed.

(** [Deobfuscate] as a function of the runes of its argument: the two
    loops never go out of range. *)
Lemma Deobfuscate_unfold (obfCode : gostring) :
  Deobfuscate obfCode =
    match base64.DecodeString
            (string_of_runes (evens (reverse (runes_of_string obfCode)))) with
    | inl decodedBytes => Ok decodedBytes
    | inr e => Err (ErrDecodingBase64 (CorruptInput e))
    end.
Proof.
  unfold Deobfuscate. rewrite reverse_in_place_ok. cbn [rbind].
  rewrite every_second_ok. cbn [rbind].
  destruct (base64.DecodeString _); reflexivity.
Qed.

(** C1. Decoding undoes the forward obfuscation: for every plaintext and
    every choice of fillers (one after each character of the base64 text,
    the last one optional), [Deobfuscate] applied to the reversed,
    interleaved base64 text returns the plaintext, without error. Fillers
    are arbitrary runes; a value that is not a Unicode scalar value is
    written as U+FFFD by the conversion to a string. *)
Theorem Deobfuscate_obfuscate (plaintext : gostring) (filler : list Z) :
  (length (base64.EncodeToString plaintext) <= S (length filler))%nat ->
  Deobfuscate (obfuscate plaintext filler) = Ok plaintext.
Proof.
  intros Hlen. rewrite Deobfuscate_unfold. unfold obfuscate.
  rewrite runes_of_string_of_runes, <- map_reverse, reverse_involutive.
  rewrite evens_map, evens_interleave by (now rewrite length_map).
  pose proof (EncodeToString_ascii plaintext) as Hascii.
  rewrite sanitize_ascii, string_of_runes_ascii by exact Hascii.
  now rewrite DecodeString_EncodeToString.
Qed.

Lemma evens_agree {A} (l1 l2 : list A) :
  length l1 = length l2 ->
  (forall k : nat, (2 * k < length l1)%nat -> l1 !! (2 * k)%nat = l2 !! (2 * k)%nat) ->
  evens l1 = evens l2.
Proof.
  intros Hlen Hag. apply list_eq. intros k. rewrite !evens_lookup.
  destruct (decide (2 * k < length l1)%nat) as [Hk|Hk]; [now apply Hag|].
  rewrite !lookup_ge_None_2; [reflexivity | lia | lia].
Qed.

(** C10. The result of [Deobfuscate] does not depend on the discarded
    characters: two inputs with the same number of characters whose
    reversals agree at every even index 0, 2, 4, ... have the same
    result, value or error alike. Characters are runes, as in the
    program, which reverses and filters the rune slice of its input. *)
Theorem Deobfuscate_filler_independent (s t : gostring) :
  length (runes_of_string s) = length (runes_of_string t) ->
  (forall k : nat, (2 * k < length (runes_of_string s))%nat ->
     reverse (runes_of_string s) !! (2 * k)%nat
     = reverse (runes_of_string t) !! (2 * k)%nat) ->
  Deobfuscate s = Deobfuscate t.
Proof.
  intros Hlen Hag. rewrite !Deobfuscate_unfold.
  rewrite (evens_agree (reverse (runes_of_string s)) (reverse (runes_of_string t))).
  - reflexivity.
  - now rewrite !length_reverse.
  - intros k Hk. apply Hag. now rewrite length_reverse in Hk.
Qed.

Lemma Deobfuscate_obfuscate_witness :
  Deobfuscate (obfuscate (str "https://example.com/x.m3u8") (repeat 0x20AC 36%nat))
  = Ok (str "https://example.com/x.m3u8").
Proof.
  apply (Deobfuscate_obfuscate (str "https://example.com/x.m3u8")
           (repeat 0x20AC 36%nat)).
  vm_compute. lia.
Defined.

Lemma Deobfuscate_filler_independent_witness :
  Deobfuscate (str "=x8xGxbxsxVxGxa") = Deobfuscate (str "=é8€GybzszVyG?a").
Proof.
  apply (Deobfuscate_filler_independent
           (str "=x8xGxbxsxVxGxa") (str "=é8€GybzszVyG?a")).
  - vm_compute. reflexivity.
  - intros k Hk.
    replace (length (runes_of_string (str "=x8xGxbxsxVxGxa"))) with 15%nat in Hk
      by (vm_compute; reflexivity).
    do 8 (destruct k as [|k]; [vm_compute; reflexivity|]). lia.
Defined.

Example Deobfuscate_hello :
  Deobfuscate (str "=é8€GybzszVyG?a") = Ok (str "hello").
Proof. vm_compute. reflexivity. Qed.

(** ** The stage-2 URL: the pattern of [extractProRCPURL] *)

Lemma beq_true (a b : ascii) : beq a b = true <-> a = b.
Proof. unfold beq. apply Ascii.eqb_eq. Qed.

Lemma beq_false (a b : ascii) : beq a b = false <-> a <> b.
Proof. unfold beq. apply Ascii.eqb_neq. Qed.

(** Literals match exactly their own text. *)
Lemma atoms_lits {A} (p : gostring) (q : list regexp.atom)
    (k : gostring -> option A) (s : gostring) (r : A) :
  regexp.atoms (regexp.lits p ++ q) k s = Some r
  <-> exists s', s = p ++ s' /\ regexp.atoms q k s' = Some r.
Proof.
  revert s. induction p as [|c p IH]; intros s.
  - cbn. split; [eauto | now intros (s' & -> & Hs')].
  - cbn [regexp.lits map app regexp.atoms]. destruct s as [|x s].
    + split; [discriminate | intros (s' & Hs' & _); discriminate].
    + destruct (beq x c) eqn:Hxc.
      * apply beq_true in Hxc. subst x. fold (regexp.lits p). rewrite IH.
        split; intros (s' & Hs' & Hr); exists s'; split; try assumption.
        -- now rewrite Hs'.
        -- cbn in Hs'. congruence.
      * apply beq_false in Hxc. split; [discriminate|].
        intros (s' & Hs' & _). cbn in Hs'. congruence.
Qed.

Lemma skip_class_length (class : ascii -> bool) (s : gostring) :
  (length (skip_class class s) <= length s)%nat.
Proof.
  induction s as [|c s IH]; cbn; [lia|]. destruct (class c); cbn; lia.
Qed.

(** The run skipped by [skip_class]. *)
Lemma skip_class_split (class : ascii -> bool) (s : gostring) :
  exists run, s = run ++ skip_class class s
    /\ Forall (fun c => class c = true) run
    /\ (skip_class class s = []
        \/ exists c t, skip_class class s = c :: t /\ class c = false).
Proof.
  induction s as [|c s (run & Hs & Hrun & Hend)].
  - exists []. cbn. auto.
  - cbn. destruct (class c) eqn:Hc.
    + exists (c :: run). split; [cbn; congruence|]. split; [now constructor|].
      exact Hend.
    + exists []. split; [reflexivity|]. split; [constructor|]. right. eauto.
Qed.

Lemma skip_class_unique (class : ascii -> bool) (run post : gostring) :
  Forall (fun c => class c = true) run ->
  (post = [] \/ exists c t, post = c :: t /\ class c = false) ->
  skip_class class (run ++ post) = post.
Proof.
  intros Hrun Hpost. induction Hrun as [|c run Hc Hrun IH].
  - cbn. destruct Hpost as [->|(c & t & -> & Hc)]; [reflexivity|].
    cbn. now rewrite Hc.
  - cbn. now rewrite Hc.
Qed.

(** A greedy repetition followed by a continuation that always accepts
    takes the longest run. *)
Lemma star_total {A} (class : ascii -> bool) (f : gostring -> A) (s : gostring) :
  regexp.star class (fun t => Some (f t)) s = Some (f (skip_class class s)).
Proof.
  induction s as [|c s IH]; [reflexivity|].
  cbn. destruct (class c); [now rewrite IH | reflexivity].
Qed.

Lemma consumed_app (a b : gostring) : regexp.consumed (a ++ b) b = a.
Proof.
  unfold regexp.consumed. rewrite length_app.
  replace (length a + length b - length b)%nat with (length a) by lia.
  now rewrite take_app_length.
Qed.

Lemma atoms_lits_end {A} (p : gostring) (k : gostring -> option A)
    (s : gostring) (r : A) :
  regexp.atoms (regexp.lits p) k s = Some r
  <-> exists s', s = p ++ s' /\ k s' = Some r.
Proof.
  rewrite <- (app_nil_r (regexp.lits p)). rewrite atoms_lits. reflexivity.
Qed.

Lemma star_accepting {A} (class : ascii -> bool) (k : gostring -> option A)
    (f : gostring -> A) (s : gostring) :
  (forall t, k t = Some (f t)) ->
  regexp.star class k s = Some (f (skip_class class s)).
Proof.
  intros Hk. induction s as [|c s IH]; cbn; [apply Hk|].
  destruct (class c); [now rewrite IH | apply Hk].
Qed.

Lemma not_quote_true (c : ascii) : regexp.not_quote c = true <-> c <> "'"%char.
Proof.
  unfold regexp.not_quote. rewrite negb_true_iff. apply beq_false.
Qed.

Lemma not_quote_false (c : ascii) : regexp.not_quote c = false <-> c = "'"%char.
Proof.
  unfold regexp.not_quote. rewrite negb_false_iff. apply beq_true.
Qed.

(** A match of the program's pattern at the start of [s]. *)
Lemma match_here_proRCP (s w u : gostring) :
  regexp.match_here proRCP_re s = Some (w, u)
  <-> exists body post,
        s = proRCP_prefix ++ body ++ post
        /\ body <> [] /\ Forall (fun c => c <> "'"%char) body
        /\ (post = [] \/ exists t, post = "'"%char :: t)
        /\ w = proRCP_prefix ++ body /\ u = str "/prorcp/" ++ body.
Proof.
  unfold regexp.match_here, proRCP_re.
  cbn [regexp.before regexp.group regexp.after].
  rewrite atoms_lits_end. split.
  - intros (s1 & Hs & Hm). rewrite atoms_lits in Hm.
    destruct Hm as (s2 & Hs1 & Hm). cbn [regexp.atoms] in Hm.
    destruct s2 as [|x t]; [discriminate|].
    destruct (regexp.not_quote x) eqn:Hx; [|discriminate].
    rewrite (star_accepting _ _
               (fun t => (regexp.consumed s t, regexp.consumed s1 t))) in Hm
      by reflexivity.
    destruct (skip_class_split regexp.not_quote t) as (run & Ht & Hrun & Hend).
    exists (x :: run), (skip_class regexp.not_quote t).
    assert (Hs2 : s1 = (str "/prorcp/" ++ x :: run) ++ skip_class regexp.not_quote t).
    { rewrite Hs1. rewrite Ht at 1. now rewrite <- !app_assoc. }
    assert (Hs' : s = (proRCP_prefix ++ x :: run) ++ skip_class regexp.not_quote t).
    { rewrite Hs, Hs1. rewrite Ht at 1. unfold proRCP_prefix.
      now rewrite <- !app_assoc. }
    injection Hm as Hw Hu.
    repeat split.
    + rewrite Hs'. now rewrite <- !app_assoc.
    + discriminate.
    + constructor; [now apply not_quote_true|].
      eapply Forall_impl; [exact Hrun|]. intros c Hc. now apply not_quote_true.
    + destruct Hend as [He|(c & t' & He & Hc)]; [now left|right].
      apply not_quote_false in Hc. subst c. eauto.
    + rewrite <- Hw. rewrite Hs' at 1. apply consumed_app.
    + rewrite <- Hu. rewrite Hs2 at 1. apply consumed_app.
  - intros (body & post & Hs & Hne & Hbody & Hpost & Hw & Hu).
    destruct body as [|x run]; [contradiction|].
    apply Forall_cons in Hbody. destruct Hbody as [Hx Hrun].
    exists (str "/prorcp/" ++ x :: run ++ post). split.
    { rewrite Hs. unfold proRCP_prefix. reflexivity. }
    rewrite atoms_lits. exists (x :: run ++ post). split; [reflexivity|].
    cbn [regexp.atoms].
    rewrite (proj2 (not_quote_true x) Hx).
    rewrite (star_accepting _ _
               (fun t => (regexp.consumed s t,
                          regexp.consumed (str "/prorcp/" ++ x :: run ++ post) t)))
      by reflexivity.
    rewrite skip_class_unique.
    + f_equal. f_equal.
      * rewrite Hw, Hs. rewrite app_assoc. apply consumed_app.
      * rewrite Hu.
        change (str "/prorcp/" ++ x :: run ++ post)
          with (str "/prorcp/" ++ (x :: run) ++ post).
        rewrite app_assoc. apply consumed_app.
    + eapply Forall_impl; [exact Hrun|]. intros c Hc. now apply not_quote_true.
    + destruct Hpost as [Hp|(t & Hp)]; [now left|right].
      exists "'"%char, t. split; [exact Hp|]. now apply not_quote_false.
Qed.

(** The pattern matches at the start of [s] exactly when [proRCP_at]. *)
Lemma match_here_proRCP_at (s : gostring) :
  (exists w u, regexp.match_here proRCP_re s = Some (w, u)) <-> proRCP_at s.
Proof.
  split.
  - intros (w & u & Hm). apply match_here_proRCP in Hm.
    destruct Hm as (body & post & Hs & Hne & Hbody & _).
    destruct body as [|c run]; [contradiction|].
    apply Forall_cons in Hbody. destruct Hbody as [Hc _].
    exists c, (run ++ post). split; [exact Hs | exact Hc].
  - intros (c & rest & Hs & Hc).
    destruct (skip_class_split regexp.not_quote rest) as (run & Hr & Hrun & Hend).
    exists (proRCP_prefix ++ c :: run), (str "/prorcp/" ++ c :: run).
    apply match_here_proRCP.
    exists (c :: run), (skip_class regexp.not_quote rest). repeat split.
    + rewrite Hs. rewrite Hr at 1. reflexivity.
    + discriminate.
    + constructor; [exact Hc|].
      eapply Forall_impl; [exact Hrun|]. intros x Hx. now apply not_quote_true.
    + destruct Hend as [He|(x & t & He & Hx)]; [now left|right].
      apply not_quote_false in Hx. subst x. eauto.
Qed.

(** [FindStringSubmatch] returns the match at the leftmost position that
    has one. *)
Lemma Find_none (re : regexp.Regexp) (s : gostring) :
  regexp.FindStringSubmatch re s = []
  <-> forall pre s', s = pre ++ s' -> regexp.match_here re s' = None.
Proof.
  induction s as [|c s IH].
  - cbn. destruct (regexp.match_here re []) as [[w u]|] eqn:Hm.
    + split; [discriminate|]. intros Hall.
      specialize (Hall [] [] eq_refl). congruence.
    + split; [|reflexivity]. intros _ pre s' Hs.
      symmetry in Hs. apply app_eq_nil in Hs. destruct Hs as [_ ->]. exact Hm.
  - cbn [regexp.FindStringSubmatch].
    destruct (regexp.match_here re (c :: s)) as [[w u]|] eqn:Hm.
    + split; [discriminate|]. intros Hall.
      specialize (Hall [] (c :: s) eq_refl). congruence.
    + rewrite IH. split.
      * intros Hall pre s' Hs. destruct pre as [|x pre].
        -- cbn in Hs. now subst s'.
        -- cbn in Hs. injection Hs as _ Hs. now apply (Hall pre).
      * intros Hall pre s' Hs. apply (Hall (c :: pre)). cbn. now rewrite Hs.
Qed.

Lemma Find_some (re : regexp.Regexp) (s w u : gostring) :
  regexp.FindStringSubmatch re s = [w; u]
  <-> exists pre s',
        s = pre ++ s' /\ regexp.match_here re s' = Some (w, u)
        /\ forall pre1 s1, s = pre1 ++ s1 -> (length pre1 < length pre)%nat ->
             regexp.match_here re s1 = None.
Proof.
  induction s as [|c s IH].
  - cbn. destruct (regexp.match_here re []) as [[w' u']|] eqn:Hm.
    + split.
      * intros Heq. injection Heq as -> ->. exists [], []. repeat split; auto.
        intros pre1 s1 _ Hlt. cbn in Hlt. lia.
      * intros (pre & s' & Hs & Hm' & _).
        symmetry in Hs. apply app_eq_nil in Hs. destruct Hs as [_ ->]. congruence.
    + split; [discriminate|].
      intros (pre & s' & Hs & Hm' & _).
      symmetry in Hs. apply app_eq_nil in Hs. destruct Hs as [_ ->]. congruence.
  - cbn [regexp.FindStringSubmatch].
    destruct (regexp.match_here re (c :: s)) as [[w' u']|] eqn:Hm.
    + split.
      * intros Heq. injection Heq as -> ->. exists [], (c :: s).
        repeat split; auto. intros pre1 s1 _ Hlt. cbn in Hlt. lia.
      * intros (pre & s' & Hs & Hm' & Hleft).
        destruct pre as [|x pre].
        -- cbn in Hs. subst s'. congruence.
        -- specialize (Hleft [] (c :: s) eq_refl ltac:(cbn; lia)). congruence.
    + rewrite IH. split.
      * intros (pre & s' & Hs & Hm' & Hleft).
        exists (c :: pre), s'. split; [cbn; now rewrite Hs|]. split; [exact Hm'|].
        intros pre1 s1 Hs1 Hlt. destruct pre1 as [|x pre1].
        -- cbn in Hs1. now subst s1.
        -- cbn in Hs1. injection Hs1 as _ Hs1. apply (Hleft pre1); [exact Hs1|].
           cbn in Hlt. lia.
      * intros (pre & s' & Hs & Hm' & Hleft).
        destruct pre as [|x pre].
        -- cbn in Hs. subst s'. congruence.
        -- cbn in Hs. injection Hs as _ Hs. exists pre, s'.
           split; [exact Hs|]. split; [exact Hm'|].
           intros pre1 s1 Hs1 Hlt. apply (Hleft (c :: pre1)).
           ++ cbn. now rewrite Hs1.
           ++ cbn. lia.
Qed.

Lemma Find_shape (re : regexp.Regexp) (s : gostring) :
  regexp.FindStringSubmatch re s = []
  \/ exists w u, regexp.FindStringSubmatch re s = [w; u].
Proof.
  induction s as [|c s IH]; cbn [regexp.FindStringSubmatch].
  - destruct (regexp.match_here re []) as [[w u]|]; eauto.
  - destruct (regexp.match_here re (c :: s)) as [[w u]|]; eauto.
Qed.

Lemma extractProRCPURL_cases (rcpHTML : gostring) :
  extractProRCPURL rcpHTML =
    match regexp.FindStringSubmatch proRCP_re rcpHTML with
    | [_; u] => Ok u
    | _ => Err ErrNoProRCPURL
    end.
Proof.
  unfold extractProRCPURL.
  destruct (Find_shape proRCP_re rcpHTML) as [->|(w & u & ->)]; reflexivity.
Qed.

(** C7, amended. [extractProRCPURL] returns the capture of the leftmost
    match of the program's pattern [src: '(/prorcp/[^']+)]: the text
    [/prorcp/] and the longest non-empty run of bytes other than a quote
    that follows [src: '] (exactly one space; the closing quote is not
    part of the pattern). It fails with the "no ProRCP URL" error exactly
    when the page has no match, and it never panics. *)
Theorem extractProRCPURL_first_match (rcpHTML : gostring) :
  (forall u,
     extractProRCPURL rcpHTML = Ok u
     <-> exists pre body post,
           rcpHTML = pre ++ proRCP_prefix ++ body ++ post
           /\ u = str "/prorcp/" ++ body
           /\ body <> [] /\ Forall (fun c => c <> "'"%char) body
           /\ (post = [] \/ exists t, post = "'"%char :: t)
           /\ forall pre1 s1, rcpHTML = pre1 ++ s1 -> proRCP_at s1 ->
                (length pre <= length pre1)%nat)
  /\ (extractProRCPURL rcpHTML = Err ErrNoProRCPURL
      <-> forall pre1 s1, rcpHTML = pre1 ++ s1 -> ~ proRCP_at s1)
  /\ extractProRCPURL rcpHTML <> Panic.
Proof.
  rewrite extractProRCPURL_cases.
  destruct (Find_shape proRCP_re rcpHTML) as [Hf|(w & u0 & Hf)]; rewrite Hf.
  - pose proof (proj1 (Find_none _ _) Hf) as Hnone.
    assert (Hno : forall pre1 s1, rcpHTML = pre1 ++ s1 -> ~ proRCP_at s1).
    { intros pre1 s1 Hs Hat. apply match_here_proRCP_at in Hat.
      destruct Hat as (w & u & Hm). rewrite (Hnone pre1 s1 Hs) in Hm.
      discriminate. }
    split; [|split; [tauto | discriminate]].
    intros u. split; [discriminate|].
    intros (pre & body & post & Hs & _ & Hne & Hbody & _).
    exfalso. apply (Hno pre (proRCP_prefix ++ body ++ post) Hs).
    destruct body as [|c run]; [contradiction|].
    apply Forall_cons in Hbody. destruct Hbody as [Hc _].
    exists c, (run ++ post). split; [reflexivity | exact Hc].
  - apply Find_some in Hf. destruct Hf as (pre & s' & Hs & Hm & Hleft).
    pose proof Hm as Hm'. apply match_here_proRCP in Hm'.
    destruct Hm' as (body & post & Hs' & Hne & Hbody & Hpost & Hw & Hu).
    assert (Hfirst : forall pre1 s1, rcpHTML = pre1 ++ s1 -> proRCP_at s1 ->
                       (length pre <= length pre1)%nat).
    { intros pre1 s1 Hs1 Hat.
      destruct (decide (length pre1 < length pre)%nat) as [Hlt|]; [|lia].
      apply match_here_proRCP_at in Hat. destruct Hat as (w1 & u1 & Hm1).
      rewrite (Hleft pre1 s1 Hs1 Hlt) in Hm1. discriminate. }
    split; [|split; [|discriminate]].
    + intros u. split.
      * intros Hu0. injection Hu0 as <-.
        exists pre, body, post. subst s'. repeat split; auto.
      * intros (pre2 & body2 & post2 & Hs2 & Hu2 & Hne2 & Hbody2 & Hpost2 & Hfirst2).
        (* both positions are first matches, hence the same one *)
        assert (Hat1 : proRCP_at s').
        { apply match_here_proRCP_at. eauto. }
        assert (Hat2 : proRCP_at (proRCP_prefix ++ body2 ++ post2)).
        { destruct body2 as [|c run]; [contradiction|].
          apply Forall_cons in Hbody2. destruct Hbody2 as [Hc _].
          exists c, (run ++ post2). split; [reflexivity | exact Hc]. }
        pose proof (Hfirst pre2 _ Hs2 Hat2) as Hle1.
        pose proof (Hfirst2 pre s' Hs Hat1) as Hle2.
        assert (Hlen : length pre = length pre2) by lia.
        rewrite Hs in Hs2.
        apply app_inj_1 in Hs2; [|exact Hlen]. destruct Hs2 as [_ Hs2].
        assert (Hm2 : regexp.match_here proRCP_re s'
                      = Some (proRCP_prefix ++ body2, str "/prorcp/" ++ body2)).
        { apply match_here_proRCP. exists body2, post2. repeat split; auto. }
        rewrite Hm in Hm2. rewrite Hu2. f_equal. congruence.
    + split; [discriminate|]. intros Hno. exfalso.
      apply (Hno pre s' Hs). apply match_here_proRCP_at. eauto.
Qed.

(** C7, as stated, fails: on a page without a space after [src:] the
    pattern of the specification matches and the program finds nothing,
    and on a page without the closing quote the program finds a URL where
    the pattern of the specification does not match. *)
Lemma extractProRCPURL_not_spec_pattern :
  (regexp.FindStringSubmatch spec_proRCP_re (str "id: 'player_iframe', src:'/prorcp/OTk0',")
     = [str "src:'/prorcp/OTk0'"; str "/prorcp/OTk0"]
   /\ extractProRCPURL (str "id: 'player_iframe', src:'/prorcp/OTk0',")
      = Err ErrNoProRCPURL)
  /\ (regexp.FindStringSubmatch spec_proRCP_re (str "src: '/prorcp/OTk0") = []
      /\ extractProRCPURL (str "src: '/prorcp/OTk0") = Ok (str "/prorcp/OTk0")).
Proof. vm_compute. repeat split. Qed.

Example extractProRCPURL_page :
  extractProRCPURL (str "$('<iframe>', { id: 'player_iframe', src: '/prorcp/OTk0NjBk', frameborder: 0 })")
  = Ok (str "/prorcp/OTk0NjBk").
Proof. vm_compute. reflexivity. Qed.

(** ** Stage 6: the hidden token and its decoding *)

(** Induction on a node with the property for all its children. *)
Lemma Node_ind_children (P : html.Node -> Prop) :
  (forall t d a cs, Forall P cs -> P (html.mkNode t d a cs)) ->
  forall n, P n.
Proof.
  intros Hstep.
  fix IH 1. intros [t d a cs]. apply Hstep.
  induction cs as [|c cs IHcs]; constructor; [apply IH | exact IHcs].
Qed.

Lemma MatchAll_eq (sel : goquery.Selector) (n : html.Node) :
  goquery.MatchAll sel n =
    (if goquery.matches sel n then [n] else [])
    ++ flat_map (goquery.MatchAll sel) (html.children n).
Proof. destruct n. reflexivity. Qed.

Lemma MatchAll_In (sel : goquery.Selector) (n c : html.Node) :
  In n (goquery.MatchAll sel c) <-> inside n c /\ goquery.matches sel n = true.
Proof.
  revert n. induction c as [t d a cs IH] using Node_ind_children. intros n.
  rewrite MatchAll_eq, in_app_iff, in_flat_map. cbn [html.children]. split.
  - intros [Hself|(x & Hx & Hin)].
    + destruct (goquery.matches sel (html.mkNode t d a cs)) eqn:Hm;
        [|contradiction].
      destruct Hself as [<-|[]]. split; [constructor | exact Hm].
    + rewrite List.Forall_forall in IH. apply (IH x Hx) in Hin.
      destruct Hin as [Hin Hm]. split; [|exact Hm].
      now apply inside_child with x.
  - intros [Hin Hm]. inversion Hin as [|? x ? Hx Hinx]; subst.
    + left. rewrite Hm. now left.
    + right. exists x. split; [exact Hx|].
      rewrite List.Forall_forall in IH. apply (IH x Hx). now split.
Qed.

Lemma Find_In (doc : html.Node) (sel : goquery.Selector) (n : html.Node) :
  In n (goquery.Find doc sel)
  <-> exists c, In c (html.children doc) /\ html.isElement c = true
                /\ inside n c /\ goquery.matches sel n = true.
Proof.
  unfold goquery.Find. rewrite in_flat_map. split.
  - intros (c & Hc & Hin). destruct (html.isElement c) eqn:He; [|contradiction].
    apply MatchAll_In in Hin. destruct Hin as [Hin Hm]. eauto 6.
  - intros (c & Hc & He & Hin & Hm). exists c. split; [exact Hc|].
    rewrite He. apply MatchAll_In. now split.
Qed.

Lemma matches_hidden_div (n : html.Node) :
  goquery.matches hidden_div n = true <-> is_hidden_div n.
Proof.
  unfold goquery.matches, hidden_div, is_hidden_div, goquery.matchAttribute.
  cbn [goquery.tag goquery.attr].
  rewrite !andb_true_iff, bool_decide_eq_true, existsb_exists.
  split.
  - intros [[He Hd] [_ (a & Ha & Hk)]].
    rewrite andb_true_iff, !bool_decide_eq_true in Hk. destruct Hk as [Hk Hv].
    repeat split; try assumption. exists a. auto.
  - intros (He & Hd & a & Ha & Hk & Hv). repeat split; try assumption.
    exists a. split; [exact Ha|].
    rewrite andb_true_iff, !bool_decide_eq_true. auto.
Qed.

Lemma Find_hidden_div_In (doc n : html.Node) :
  In n (goquery.Find doc hidden_div)
  <-> exists c, In c (html.children doc) /\ html.isElement c = true
                /\ inside n c /\ is_hidden_div n.
Proof.
  rewrite Find_In. split; intros (c & Hc & He & Hin & Hm); exists c;
    repeat split; try assumption; now apply matches_hidden_div.
Qed.

Lemma Find_hidden_div_nil (doc : html.Node) :
  goquery.Find doc hidden_div = [] <-> ~ contains_hidden_div doc.
Proof.
  unfold contains_hidden_div. split.
  - intros Hnil (c & n & Hc & He & Hin & Hd).
    assert (Hn : In n (goquery.Find doc hidden_div)).
    { apply Find_hidden_div_In. eauto 6. }
    rewrite Hnil in Hn. contradiction.
  - intros Hno. destruct (goquery.Find doc hidden_div) as [|n rest] eqn:Hf;
      [reflexivity|].
    exfalso. apply Hno.
    assert (Hn : In n (goquery.Find doc hidden_div)) by (rewrite Hf; now left).
    apply Find_hidden_div_In in Hn. destruct Hn as (c & Hc & He & Hin & Hd).
    eauto 8.
Qed.

Section Stage6.
Context `{Env}.

Lemma fetchContent_cases (url referer : gostring) (h : list event) :
  (exists e, fetchContent url referer h = (Err e, h))
  \/ (exists r req, fetchContent url referer h = (r, h ++ [EvDo req])
                    /\ r <> Panic).
Proof.
  unfold fetchContent. destruct (http_NewRequest url) as [e|].
  - left. eexists. reflexivity.
  - right. unfold bind, client_Do.
    destruct (client_RoundTrip h _) as [resp|e]; cbn.
    + destruct (negb (StatusCode resp =? StatusOK)).
      * eexists _, _. split; [reflexivity | discriminate].
      * destruct (Body resp); eexists _, _; (split; [reflexivity | discriminate]).
    + eexists _, _. split; [reflexivity | discriminate].
Qed.

Lemma fetchContent_no_panic (url referer : gostring) (h : list event) :
  fst (fetchContent url referer h) <> Panic.
Proof.
  destruct (fetchContent_cases url referer h) as [(e & ->)|(r & req & -> & Hr)];
    [discriminate | exact Hr].
Qed.

(** Saving the script never fails the stage. *)
Lemma saveScript_ok (doc : html.Node) (h : list event) :
  exists h', saveScript doc h = (Ok tt, h').
Proof.
  unfold saveScript.
  destruct (0 <? len (goquery.Find doc script_sel)); [|eexists; reflexivity].
  destruct (goquery.Attr_ _ _) as [src|]; [|eexists; reflexivity].
  unfold bind, attempt.
  pose proof (fetchContent_no_panic (cloudnestra ++ src) cloudnestra h) as Hp.
  destruct (fetchContent (cloudnestra ++ src) cloudnestra h) as [[js|e|] h1];
    cbn in Hp; [| eexists; reflexivity | congruence].
  unfold MkdirAll. destruct (os_MkdirAll h1 _); [eexists; reflexivity|].
  unfold WriteFile, ret. eexists; reflexivity.
Qed.

Lemma decodeStreamURL_parsed (proRCPHTML : gostring) (doc : html.Node)
    (h : list event) :
  NewDocumentFromReader proRCPHTML = inl doc ->
  fst (decodeStreamURL proRCPHTML h)
  = rbind (hiddenDivContent doc) decodeContent.
Proof.
  intros Hdoc. unfold decodeStreamURL. rewrite Hdoc. unfold bind.
  destruct (saveScript_ok doc h) as (h' & ->). unfold lift.
  destruct (hiddenDivContent doc); reflexivity.
Qed.

Lemma decodeContent_no_panic (divContent : gostring) :
  decodeContent divContent <> Panic.
Proof.
  unfold decodeContent. destruct (negb (seq_dec divContent [])); [|discriminate].
  rewrite Deobfuscate_unfold. destruct (base64.DecodeString _); discriminate.
Qed.

Lemma hiddenDivContent_cases (doc : html.Node) :
  hiddenDivContent doc =
    match goquery.Find doc hidden_div with
    | [] => Err ErrNoHiddenDiv
    | n :: _ => Ok (strings.TrimSpace (goquery.nodeText n))
    end.
Proof.
  unfold hiddenDivContent.
  destruct (goquery.Find doc hidden_div) as [|n rest]; [reflexivity|].
  unfold len. cbn [length]. 
  destruct (Z.ltb_spec 0 (Z.of_nat (S (length rest)))); [|lia].
  unfold goquery.First, goquery.Text. cbn [take flat_map].
  now rewrite app_nil_r.
Qed.

(** C2, amended. The decode stage performs no URL validation: whenever
    the hidden token is not empty and [Deobfuscate] succeeds on it, the
    stage returns the decoded string, whatever it is. *)
Theorem decodeStreamURL_returns_decoded (proRCPHTML : gostring)
    (doc n : html.Node) (rest : list html.Node) (h : list event) (x : gostring) :
  NewDocumentFromReader proRCPHTML = inl doc ->
  goquery.Find doc hidden_div = n :: rest ->
  strings.TrimSpace (goquery.nodeText n) <> [] ->
  Deobfuscate (strings.TrimSpace (goquery.nodeText n)) = Ok x ->
  fst (decodeStreamURL proRCPHTML h) = Ok x.
Proof.
  intros Hdoc Hf Hne Hx. rewrite (decodeStreamURL_parsed _ _ _ Hdoc).
  rewrite hiddenDivContent_cases, Hf. cbn [rbind]. unfold decodeContent.
  rewrite seq_dec_false by exact Hne. cbn [negb]. now rewrite Hx.
Qed.

End Stage6.

Lemma decodeStreamURL_returns_decoded_witness :
  fst (decodeStreamURL
         (H := fixture_env (title_fixture 200 hello_token playlist))
         prorcp_page [])
  = Ok (str "hello").
Proof.
  apply (@decodeStreamURL_returns_decoded
           (fixture_env (title_fixture 200 hello_token playlist))
           prorcp_page (prorcp_doc hello_token)
           (element "div" [("id", "xTyBxQyGTA"); ("style", "display:none;")]
              [text hello_token])
           [] [] (str "hello")).
  - reflexivity.
  - vm_compute. reflexivity.
  - vm_compute. discriminate.
  - vm_compute. reflexivity.
Defined.

(** C2, as stated, fails: a token that decodes to [hello], which is not
    an absolute URL, is returned by the decode stage and by the whole of
    [ResolveVariants] as the manifest URL. *)
Lemma decodeStreamURL_returns_non_url :
  has_scheme (str "hello") = false
  /\ fst (decodeStreamURL
            (H := fixture_env (title_fixture 200 hello_token playlist))
            prorcp_page [])
     = Ok (str "hello")
  /\ fst (ResolveVariants
            (H := fixture_env (title_fixture 200 hello_token playlist))
            fight_club [])
     = Ok (str "hello").
Proof. vm_compute. repeat split. Qed.

Example has_scheme_https : has_scheme master_url = true.
Proof. vm_compute. reflexivity. Qed.

(** ** [strings.TrimSpace] keeps what is not white space *)

Lemma asciiSpace_ascii (b : ascii) : strings.asciiSpace b = true -> byteZ b < 0x80.
Proof.
  unfold strings.asciiSpace. intros Hb.
  repeat (apply orb_true_iff in Hb; destruct Hb as [Hb|Hb]);
    apply Z.eqb_eq in Hb; lia.
Qed.

Lemma IsSpace_ascii (b : ascii) :
  byteZ b < 0x80 -> unicode.IsSpace (byteZ b) = true -> strings.asciiSpace b = true.
Proof.
  intros Hlt. unfold unicode.IsSpace, strings.asciiSpace.
  pose proof (byteZ_range b).
  destruct (Z.leb_spec 0 (byteZ b)); [|lia].
  destruct (Z.leb_spec (byteZ b) 0xFF); [|lia]. cbn [andb].
  intros Hs. repeat (apply orb_true_iff in Hs; destruct Hs as [Hs|Hs]);
    try (rewrite Hs; now rewrite ?orb_true_r);
    apply Z.eqb_eq in Hs; lia.
Qed.

Lemma between_bounds (lo hi : Z) (c : ascii) :
  between lo hi c = true -> lo <= byteZ c <= hi.
Proof. unfold between. rewrite andb_true_iff, !Z.leb_le. tauto. Qed.

Lemma first_Lead (s0 : ascii) (sz : nat) (lo hi : Z) :
  utf8.first s0 = utf8.Lead sz lo hi ->
  0xC2 <= byteZ s0 /\ (2 <= sz <= 4)%nat /\ 0x80 <= lo.
Proof.
  unfold utf8.first, utf8.locb, utf8.hicb.
  repeat match goal with
         | |- context [if ?b then _ else _] => destruct b eqn:?
         end; intros Heq; try discriminate; injection Heq as <- <- <-;
    repeat match goal with
           | H : (_ <? _) = false |- _ => apply Z.ltb_ge in H
           | H : (_ <? _) = true |- _ => apply Z.ltb_lt in H
           end; lia.
Qed.

(** What [DecodeRuneInString] consumes. *)
Lemma DecodeRune_consumed (s : gostring) (r : Z) (size : nat) :
  utf8.DecodeRuneInString s = (r, size) ->
  (size <= length s)%nat
  /\ (s <> [] -> (1 <= size)%nat)
  /\ ((2 <= size)%nat -> Forall (fun b => 0x80 <= byteZ b) (take size s))
  /\ (size = 1%nat -> unicode.IsSpace r = true ->
      exists s0 t, s = s0 :: t /\ strings.asciiSpace s0 = true).
Proof.
  assert (Herr : unicode.IsSpace utf8.RuneError = false) by reflexivity.
  assert (Hone : forall s0 t r' size',
             (utf8.RuneError, 1%nat) = (r', size') ->
             (size' <= length (s0 :: t))%nat
             /\ (s0 :: t <> [] -> (1 <= size')%nat)
             /\ ((2 <= size')%nat ->
                 Forall (fun b => 0x80 <= byteZ b) (take size' (s0 :: t)))
             /\ (size' = 1%nat -> unicode.IsSpace r' = true ->
                 exists s0' t', s0 :: t = s0' :: t' /\ strings.asciiSpace s0' = true)).
  { intros s0 t r' size' Heq. injection Heq as <- <-. cbn [length].
    split; [lia|]. split; [lia|]. split; [lia|].
    intros _ Hs. rewrite Herr in Hs. discriminate. }
  unfold utf8.DecodeRuneInString. destruct s as [|s0 t].
  { intros Heq. injection Heq as <- <-. cbn [length].
    split; [lia|]. split; [congruence|]. split; [lia|].
    intros _ Hs. rewrite Herr in Hs. discriminate. }
  destruct (utf8.first s0) as [| |sz lo hi] eqn:Hfirst.
  - intros Heq. injection Heq as <- <-. cbn [length].
    split; [lia|]. split; [lia|]. split; [lia|].
    intros _ Hs. exists s0, t. split; [reflexivity|].
    apply IsSpace_ascii; [|exact Hs].
    unfold utf8.first in Hfirst.
    destruct (Z.ltb_spec (byteZ s0) 128); [lia|].
    repeat match type of Hfirst with
           | (if ?b then _ else _) = _ => destruct b
           end; discriminate.
  - apply Hone.
  - apply first_Lead in Hfirst. destruct Hfirst as (H0 & Hsz & Hlo).
    destruct (length (s0 :: t) <? sz)%nat eqn:Hlen; [apply Hone|].
    apply Nat.ltb_ge in Hlen.
    destruct t as [|s1 t1]; [apply Hone|].
    destruct (between lo hi s1) eqn:Hb1; cbn [negb]; [|apply Hone].
    apply between_bounds in Hb1.
    destruct (sz <=? 2)%nat eqn:Hsz2.
    { intros Heq. injection Heq as <- <-. cbn [length] in *.
      split; [lia|]. split; [lia|]. split; [|lia].
      intros _. cbn [take]. repeat constructor; lia. }
    destruct t1 as [|s2 t2]; [apply Hone|].
    destruct (between utf8.locb utf8.hicb s2) eqn:Hb2; cbn [negb]; [|apply Hone].
    apply between_bounds in Hb2. unfold utf8.locb in Hb2.
    destruct (sz <=? 3)%nat eqn:Hsz3.
    { intros Heq. injection Heq as <- <-. cbn [length] in *.
      split; [lia|]. split; [lia|]. split; [|lia].
      intros _. cbn [take]. repeat constructor; lia. }
    destruct t2 as [|s3 t3]; [apply Hone|].
    destruct (between utf8.locb utf8.hicb s3) eqn:Hb3; cbn [negb]; [|apply Hone].
    apply between_bounds in Hb3. unfold utf8.locb in Hb3.
    intros Heq. injection Heq as <- <-. cbn [length] in *.
    split; [lia|]. split; [lia|]. split; [|lia].
    intros _. cbn [take]. repeat constructor; lia.
Qed.

Lemma droppable_high (l : gostring) :
  Forall (fun b => 0x80 <= byteZ b) l -> Forall droppable l.
Proof.
  intros Hl. eapply Forall_impl; [exact Hl|]. intros b Hb. now right.
Qed.

(** A rune that is a space, or of several bytes, is made of bytes that
    may be dropped. *)
Lemma DecodeRune_droppable (s : gostring) (r : Z) (size : nat) :
  utf8.DecodeRuneInString s = (r, size) -> s <> [] ->
  unicode.IsSpace r = true \/ (2 <= size)%nat ->
  Forall droppable (take size s).
Proof.
  intros Hd Hne Hcase.
  destruct (DecodeRune_consumed s r size Hd) as (Hle & H1 & H2 & H3).
  specialize (H1 Hne).
  destruct (decide (2 <= size)%nat) as [Hsz|Hsz].
  - apply droppable_high. now apply H2.
  - destruct Hcase as [Hsp|]; [|lia].
    destruct (H3 ltac:(lia) Hsp) as (s0 & t & -> & Hs0).
    replace size with 1%nat by lia. cbn [take]. constructor; [now left | constructor].
Qed.

Lemma trimLeftFunc_loop_split (fuel : nat) (s : gostring) :
  (length s <= fuel)%nat ->
  exists pre, s = pre ++ strings.trimLeftFunc_loop fuel unicode.IsSpace s
              /\ Forall droppable pre.
Proof.
  revert s. induction fuel as [|fuel IH]; intros s Hfuel.
  - destruct s; [|cbn in Hfuel; lia]. exists []. split; [reflexivity | constructor].
  - cbn [strings.trimLeftFunc_loop]. destruct s as [|s0 t] eqn:Hs.
    { exists []. split; [reflexivity | constructor]. }
    rewrite <- Hs in *.
    destruct (utf8.DecodeRuneInString s) as [r size] eqn:Hd.
    assert (Hne : s <> []) by (rewrite Hs; discriminate).
    destruct (DecodeRune_consumed s r size Hd) as (Hle & H1 & _).
    specialize (H1 Hne).
    destruct (unicode.IsSpace r) eqn:Hsp.
    + destruct (IH (drop size s)) as (pre & Hpre & Hdrop).
      { rewrite length_drop. rewrite Hs in *. cbn [length] in *. lia. }
      exists (take size s ++ pre). split.
      * rewrite <- app_assoc, <- Hpre. now rewrite take_drop.
      * apply Forall_app. split; [|exact Hdrop].
        apply (DecodeRune_droppable s r size Hd Hne). now left.
    + exists []. split; [reflexivity | constructor].
Qed.

Lemma TrimLeftFunc_split (s : gostring) :
  exists pre, s = pre ++ strings.TrimLeftFunc s unicode.IsSpace
              /\ Forall droppable pre.
Proof. unfold strings.TrimLeftFunc. now apply trimLeftFunc_loop_split. Qed.

Lemma scan_start_le (fuel : nat) (s : gostring) (lim start : Z) :
  utf8.scan_start fuel s lim start <= start.
Proof.
  revert start. induction fuel as [|fuel IH]; intros start; cbn; [lia|].
  destruct (start <? lim); [lia|].
  destruct (at_ s start) as [b|]; [|lia].
  destruct (utf8.RuneStart b); [lia|].
  specialize (IH (start - 1)). lia.
Qed.

Lemma at_last {A} (l : list A) (x : A) : at_ (l ++ [x]) (len (l ++ [x]) - 1) = Some x.
Proof.
  unfold len. rewrite length_app. cbn [length].
  replace (Z.of_nat (length l + 1) - 1) with (Z.of_nat (length l)) by lia.
  rewrite at_nat. now rewrite list_lookup_middle.
Qed.

(** What [DecodeLastRuneInString] consumes, at the end of the string. *)
Lemma DecodeLastRune_consumed (t : gostring) (r : Z) (size : nat) :
  utf8.DecodeLastRuneInString t = (r, size) -> t <> [] ->
  (1 <= size <= length t)%nat
  /\ (unicode.IsSpace r = true \/ (2 <= size)%nat ->
      Forall droppable (drop (length t - size) t)).
Proof.
  intros Hd Hne.
  destruct t as [|x t'] using rev_ind; [contradiction|]. clear IHt'.
  unfold utf8.DecodeLastRuneInString in Hd. rewrite at_last in Hd.
  assert (Hlen : length (t' ++ [x]) = S (length t'))
    by (rewrite length_app; cbn; lia).
  destruct (Z.ltb_spec (byteZ x) utf8.RuneSelf) as [Hx|Hx].
  - injection Hd as <- <-. split; [lia|].
    intros [Hsp|]; [|lia]. rewrite Hlen.
    replace (S (length t') - 1)%nat with (length t') by lia.
    rewrite drop_app_length. constructor; [|constructor]. left.
    now apply IsSpace_ascii.
  - set (e := len (t' ++ [x])) in *.
    set (start := Z.max (utf8.scan_start 4 (t' ++ [x]) (Z.max (e - 4) 0) (e - 1 - 1)) 0) in *.
    assert (He : e = Z.of_nat (S (length t'))) by (unfold e, len; now rewrite Hlen).
    assert (Hstart : 0 <= start < e).
    { unfold start.
      pose proof (scan_start_le 4 (t' ++ [x]) (Z.max (e - 4) 0) (e - 1 - 1)). lia. }
    destruct (utf8.DecodeRuneInString (drop (Z.to_nat start) (t' ++ [x])))
      as [r' size'] eqn:Hdec.
    assert (Hne' : drop (Z.to_nat start) (t' ++ [x]) <> []).
    { intros Hnil. apply (f_equal length) in Hnil.
      rewrite length_drop, Hlen in Hnil. cbn in Hnil. lia. }
    destruct (DecodeRune_consumed _ _ _ Hdec) as (Hle & H1 & _).
    specialize (H1 Hne'). rewrite length_drop, Hlen in Hle.
    destruct (Z.eqb_spec (start + Z.of_nat size') e) as [Heq|Hneq].
    + injection Hd as <- <-. split; [lia|].
      intros Hcase. rewrite Hlen.
      replace (S (length t') - size')%nat with (Z.to_nat start) by lia.
      pose proof (DecodeRune_droppable _ _ _ Hdec Hne' Hcase) as Hdrop.
      rewrite take_ge in Hdrop; [exact Hdrop|].
      rewrite length_drop, Hlen. lia.
    + injection Hd as <- <-. split; [lia|].
      intros [Hsp|]; [discriminate | lia].
Qed.

Lemma Forall_drop_more {A} (P : A -> Prop) (l : list A) (i j : nat) :
  (i <= j)%nat -> Forall P (drop i l) -> Forall P (drop j l).
Proof.
  intros Hij Hi. replace j with (i + (j - i))%nat by lia.
  rewrite <- drop_drop. now apply Forall_drop.
Qed.

(** The index found by the backward loop of [TrimRightFunc]: everything
    after it may be dropped. *)
Lemma lastIndexFunc_loop_spec (fuel : nat) (s : gostring) (i : nat) :
  (i < fuel)%nat -> (i <= length s)%nat -> Forall droppable (drop i s) ->
  let idx := strings.lastIndexFunc_loop fuel unicode.IsSpace s (Z.of_nat i) in
  (idx = -1 /\ Forall droppable s)
  \/ (0 <= idx < Z.of_nat i /\ Forall droppable (drop (S (Z.to_nat idx)) s)).
Proof.
  revert i. induction fuel as [|fuel IH]; intros i Hfuel Hi Hdrop; [lia|].
  cbn [strings.lastIndexFunc_loop].
  destruct (Z.ltb_spec 0 (Z.of_nat i)) as [Hpos|Hzero].
  - rewrite Nat2Z.id.
    destruct (utf8.DecodeLastRuneInString (take i s)) as [r size] eqn:Hd.
    assert (Hne : take i s <> []).
    { intros Hnil. apply (f_equal length) in Hnil.
      rewrite length_take in Hnil. cbn in Hnil. lia. }
    destruct (DecodeLastRune_consumed _ _ _ Hd Hne) as (Hsize & Hbytes).
    rewrite length_take in Hsize, Hbytes.
    replace (i `min` length s)%nat with i in Hsize, Hbytes by lia.
    (* the bytes of the rune are those of [s] from [i - size] to [i] *)
    assert (Hmid : drop (i - size) s = drop (i - size) (take i s) ++ drop i s).
    { rewrite <- (take_drop i s) at 1. rewrite drop_app_le; [reflexivity|].
      rewrite length_take. lia. }
    replace (Z.of_nat i - Z.of_nat size) with (Z.of_nat (i - size)) by lia.
    destruct (unicode.IsSpace r) eqn:Hsp.
    + destruct (IH (i - size)%nat) as [[Hidx Hall]|[Hidx Hall]]; try lia.
      { rewrite Hmid. apply Forall_app. split; [|exact Hdrop].
        apply Hbytes. now left. }
      * left. now split.
      * right. split; [lia | exact Hall].
    + right. rewrite Nat2Z.id. split; [lia|].
      destruct (decide (2 <= size)%nat) as [H2|H2].
      * apply (Forall_drop_more _ _ (i - size)); [lia|].
        rewrite Hmid. apply Forall_app. split; [|exact Hdrop].
        apply Hbytes. now right.
      * apply (Forall_drop_more _ _ i); [lia | exact Hdrop].
  - left. split; [reflexivity|].
    replace i with 0%nat in Hdrop by lia. exact Hdrop.
Qed.

Lemma TrimRightFunc_split (s : gostring) :
  exists post, s = strings.TrimRightFunc s unicode.IsSpace ++ post
               /\ Forall droppable post.
Proof.
  unfold strings.TrimRightFunc.
  pose proof (lastIndexFunc_loop_spec (S (length s)) s (length s)
                ltac:(lia) ltac:(lia)) as Hspec.
  rewrite drop_all in Hspec. specialize (Hspec ltac:(constructor)).
  cbn zeta in Hspec. fold (len s) in Hspec.
  set (idx := strings.lastIndexFunc_loop (S (length s)) unicode.IsSpace s (len s)) in *.
  clearbody idx.
  destruct Hspec as [[Hidx Hall]|[Hidx Hall]].
  - rewrite Hidx. cbn. exists s. split; [reflexivity | exact Hall].
  - set (i := match at_ s idx with
              | Some b =>
                  if utf8.RuneSelf <=? byteZ b
                  then idx + Z.of_nat (utf8.DecodeRuneInString
                                         (drop (Z.to_nat idx) s)).2
                  else idx + 1
              | None => idx + 1
              end).
    assert (Hi : idx + 1 <= i).
    { unfold i. clear i. destruct (at_ s idx) as [b|] eqn:Hb; [|lia].
      destruct (utf8.RuneSelf <=? byteZ b); [|lia].
      destruct (utf8.DecodeRuneInString (drop (Z.to_nat idx) s)) as [r size] eqn:Hd.
      destruct (DecodeRune_consumed _ _ _ Hd) as (_ & H1 & _).
      cbn [snd]. assert ((1 <= size)%nat); [|lia].
      apply H1. intros Hnil. apply (f_equal length) in Hnil.
      rewrite length_drop in Hnil. cbn in Hnil. unfold len in Hidx. lia. }
    clearbody i.
    exists (drop (Z.to_nat i) s). split; [now rewrite take_drop|].
    apply (Forall_drop_more _ _ (S (Z.to_nat idx))); [lia | exact Hall].
Qed.

Lemma trimSpace_right_split (rs : gostring) :
  exists post, reverse rs = strings.trimSpace_right rs ++ post
               /\ Forall droppable post.
Proof.
  induction rs as [|c rs (post & Hrs & Hpost)].
  - exists []. split; [reflexivity | constructor].
  - cbn [strings.trimSpace_right].
    destruct (utf8.RuneSelf <=? byteZ c); [apply TrimRightFunc_split|].
    destruct (strings.asciiSpace c) eqn:Hc.
    + exists (post ++ [c]). split.
      * now rewrite reverse_cons, Hrs, <- app_assoc.
      * apply Forall_app. split; [exact Hpost|]. constructor; [now left | constructor].
    + exists []. split; [now rewrite app_nil_r | constructor].
Qed.

(** [TrimSpace] removes from both ends only bytes that may be dropped. *)
Lemma TrimSpace_split (s : gostring) :
  exists pre post, s = pre ++ strings.TrimSpace s ++ post
                   /\ Forall droppable pre /\ Forall droppable post.
Proof.
  induction s as [|c s (pre & post & Hs & Hpre & Hpost)].
  - exists [], []. repeat split; constructor.
  - cbn [strings.TrimSpace].
    destruct (utf8.RuneSelf <=? byteZ c).
    { unfold strings.TrimFunc.
      destruct (TrimLeftFunc_split (c :: s)) as (pre' & Hl & Hpre').
      destruct (TrimRightFunc_split (strings.TrimLeftFunc (c :: s) unicode.IsSpace))
        as (post' & Hr & Hpost').
      exists pre', post'. split; [|now split].
      rewrite <- Hr. exact Hl. }
    destruct (strings.asciiSpace c) eqn:Hc.
    + exists (c :: pre), post. split; [cbn; now rewrite <- Hs|].
      split; [|exact Hpost]. constructor; [now left | exact Hpre].
    + destruct (trimSpace_right_split (reverse (c :: s))) as (post' & Hr & Hpost').
      rewrite reverse_involutive in Hr.
      exists [], post'. split; [exact Hr|]. split; [constructor | exact Hpost'].
Qed.

Lemma Contains_In (s : gostring) (sep : ascii) :
  strings.Contains s sep = true <-> In sep s.
Proof.
  unfold strings.Contains. rewrite existsb_exists. split.
  - intros (x & Hx & Heq). apply beq_true in Heq. now subst.
  - intros Hin. exists sep. split; [exact Hin | now apply beq_true].
Qed.

Lemma TrimSpace_keeps (s : gostring) (c : ascii) :
  ~ droppable c -> In c s -> In c (strings.TrimSpace s).
Proof.
  intros Hc Hin. destruct (TrimSpace_split s) as (pre & post & Hs & Hpre & Hpost).
  rewrite Hs in Hin. rewrite !in_app_iff in Hin.
  rewrite List.Forall_forall in Hpre, Hpost.
  destruct Hin as [Hin|[Hin|Hin]]; [|exact Hin|].
  - now destruct (Hc (Hpre c Hin)).
  - now destruct (Hc (Hpost c Hin)).
Qed.

Lemma equals_not_droppable : ~ droppable "="%char.
Proof.
  unfold droppable. intros [Hs|Hh]; [discriminate|].
  change (byteZ "=") with 61 in Hh. lia.
Qed.

Lemma SplitN2_In (s : gostring) (sep : ascii) :
  In sep s -> exists a b, strings.SplitN2 s sep = [a; b].
Proof.
  induction s as [|c s IH]; [contradiction|].
  intros Hin. cbn [strings.SplitN2].
  destruct (beq c sep) eqn:Hc; [eauto|].
  apply beq_false in Hc. destruct Hin as [->|Hin]; [contradiction|].
  destruct (IH Hin) as (a & b & ->). eauto.
Qed.


(** ** The playlist parser *)

Section Parser.
Context `{Env}.

Lemma index_app_head {A} (done : list A) (x : A) (rest : list A) :
  index (done ++ x :: rest) (len done) = Ok x.
Proof.
  unfold index, len. rewrite at_nat.
  now rewrite list_lookup_middle.
Qed.

Lemma at_next {A} (done : list A) (x : A) (rest : list A) :
  at_ (done ++ x :: rest) (len done + 1) = head rest.
Proof.
  unfold len. replace (Z.of_nat (length done) + 1) with (Z.of_nat (S (length done))) by lia.
  rewrite at_nat.
  replace (done ++ x :: rest) with ((done ++ [x]) ++ rest) by now rewrite <- app_assoc.
  rewrite lookup_app_r by (rewrite length_app; cbn; lia).
  rewrite length_app. cbn [length].
  replace (S (length done) - (length done + 1))%nat with 0%nat by lia.
  destruct rest; reflexivity.
Qed.

(** One iteration of the loop adds the variant of the line. *)
Lemma variantOfLine_step (masterURL : gostring) (done : list gostring)
    (line : gostring) (rest : list gostring) (variants : list StreamVariant) :
  variantOfLine masterURL (done ++ line :: rest) (len done) line variants
  = rbind (variant_of masterURL line (uri_line (head rest)))
      (fun here => Ok (variants ++ here)).
Proof.
  unfold variantOfLine, variant_of.
  destruct (strings.HasPrefix (strings.TrimSpace line) STREAM_INF);
    [|cbn; now rewrite app_nil_r].
  destruct (parseAttributes (strings.TrimSpace line)) as [attrs| |];
    cbn [rbind]; try reflexivity.
  unfold index. rewrite at_next.
  assert (Hlen : len (done ++ line :: rest) = len done + 1 + len rest).
  { unfold len. rewrite length_app. cbn [length]. lia. }
  rewrite Hlen.
  destruct rest as [|next rest]; cbn [head uri_line].
  - destruct (Z.ltb_spec (len done + 1) (len done + 1 + len (@nil gostring)));
      [unfold len in *; cbn in *; lia|].
    cbn. now rewrite app_nil_r.
  - destruct (Z.ltb_spec (len done + 1) (len done + 1 + len (next :: rest)));
      [|unfold len in *; cbn [length] in *; lia].
    cbn [rbind].
    destruct (negb (seq_dec (strings.TrimSpace next) [])
              && negb (strings.HasPrefix (strings.TrimSpace next) (str "#")));
      cbn; [reflexivity | now rewrite app_nil_r].
Qed.

Lemma range_loop_adjacent (masterURL : gostring) (done rest : list gostring)
    (variants : list StreamVariant) :
  range_loop rest (len done) (variantOfLine masterURL (done ++ rest)) variants
  = rbind (adjacent_variants masterURL rest)
      (fun there => Ok (variants ++ there)).
Proof.
  revert done variants. induction rest as [|line rest IH]; intros done variants.
  - cbn. now rewrite app_nil_r.
  - cbn [range_loop adjacent_variants]. rewrite variantOfLine_step.
    destruct (variant_of masterURL line (uri_line (head rest))) as [here| |];
      cbn [rbind]; try reflexivity.
    replace (done ++ line :: rest) with ((done ++ [line]) ++ rest)
      by now rewrite <- app_assoc.
    replace (len done + 1) with (len (done ++ [line]))
      by (unfold len; rewrite length_app; cbn; lia).
    rewrite IH.
    destruct (adjacent_variants masterURL rest) as [there| |]; cbn [rbind];
      try reflexivity.
    now rewrite app_assoc.
Qed.

Lemma parseVariants_adjacent (masterURL body : gostring) :
  parseVariants masterURL body
  = rbind (adjacent_variants masterURL (strings.Split body "010"))
      (fun variants =>
         if len variants =? 0 then Err (ErrNoVariants masterURL)
         else Ok variants).
Proof.
  unfold parseVariants.
  pose proof (range_loop_adjacent masterURL [] (strings.Split body "010") [])
    as Hloop.
  change (len (@nil gostring)) with 0 in Hloop.
  change ([] ++ strings.Split body "010") with (strings.Split body "010") in Hloop.
  rewrite Hloop.
  destruct (adjacent_variants _ _); reflexivity.
Qed.


Lemma parseAttributes_loop (parts : list gostring) (i : Z)
    (attrs : gmap gostring gostring) :
  exists attrs',
    range_loop parts i
      (fun _ part attrs =>
         if strings.Contains part "=" then
           rbind (index (strings.SplitN2 (strings.TrimSpace part) "=") 0) (fun key =>
           rbind (index (strings.SplitN2 (strings.TrimSpace part) "=") 1) (fun v =>
           Ok (<[key := strings.Trim v "034"]> attrs)))
         else Ok attrs) attrs
    = Ok attrs'.
Proof.
  revert i attrs. induction parts as [|part parts IH]; intros i attrs.
  - eexists. reflexivity.
  - cbn [range_loop]. destruct (strings.Contains part "=") eqn:Hc.
    + apply Contains_In in Hc.
      apply (TrimSpace_keeps _ _ equals_not_droppable) in Hc.
      destruct (SplitN2_In _ _ Hc) as (a & b & ->). cbn. apply IH.
    + apply IH.
Qed.

(** [parseAttributes] never fails: [kv[1]] exists whenever the part
    contains [=]. *)
Lemma parseAttributes_total (line : gostring) :
  exists attrs, parseAttributes line = Ok attrs.
Proof. unfold parseAttributes. apply parseAttributes_loop. Qed.

Lemma variant_of_total (masterURL line : gostring) (uri : option gostring) :
  exists here, variant_of masterURL line uri = Ok here.
Proof.
  unfold variant_of.
  destruct (strings.HasPrefix _ _); [|eexists; reflexivity].
  destruct (parseAttributes_total (strings.TrimSpace line)) as (attrs & ->).
  cbn [rbind]. destruct uri; eexists; reflexivity.
Qed.

Lemma variant_of_no_uri (masterURL line : gostring) :
  variant_of masterURL line None = Ok [].
Proof.
  unfold variant_of.
  destruct (strings.HasPrefix _ _); [|reflexivity].
  now destruct (parseAttributes_total (strings.TrimSpace line)) as (attrs & ->).
Qed.

Lemma adjacent_variants_total (masterURL : gostring) (lines : list gostring) :
  exists variants, adjacent_variants masterURL lines = Ok variants.
Proof.
  induction lines as [|line rest (there & IH)]; [eexists; reflexivity|].
  cbn [adjacent_variants].
  destruct (variant_of_total masterURL line (uri_line (head rest))) as (here & ->).
  rewrite IH. eexists. reflexivity.
Qed.

Lemma resolveRelativeURL_parsed (baseStr refStr : gostring) (base ref : url_URL) :
  url_Parse baseStr = inl base -> url_Parse refStr = inl ref ->
  resolveRelativeURL baseStr refStr = url_String (url_ResolveReference base ref).
Proof. intros Hb Hr. unfold resolveRelativeURL. now rewrite Hb, Hr. Qed.

(** C3, amended. The parser reads the playlist as [adjacent_variants]
    does, which never fails: the URL reference of a [#EXT-X-STREAM-INF]
    tag is the line immediately after it, trimmed, when that line is
    neither blank nor starts with [#]; the URL of the variant is this
    reference resolved against the base URL by [url.Parse] and
    [ResolveReference] when [url.Parse] accepts both, and the reference
    as it stands when [url.Parse] refuses the base URL or the reference;
    a tag followed by a blank line, by a line starting with [#] or by
    nothing contributes no variant and no error. *)
Theorem parseVariants_next_line (masterURL body : gostring) :
  parseVariants masterURL body
  = rbind (adjacent_variants masterURL (strings.Split body "010"))
      (fun variants =>
         if len variants =? 0 then Err (ErrNoVariants masterURL)
         else Ok variants)
  /\ (exists variants,
        adjacent_variants masterURL (strings.Split body "010") = Ok variants)
  /\ (forall refStr base ref,
        url_Parse masterURL = inl base -> url_Parse refStr = inl ref ->
        resolveRelativeURL masterURL refStr
        = url_String (url_ResolveReference base ref))
  /\ (forall refStr err,
        url_Parse masterURL = inr err ->
        resolveRelativeURL masterURL refStr = refStr)
  /\ (forall refStr err,
        url_Parse refStr = inr err ->
        resolveRelativeURL masterURL refStr = refStr)
  /\ (forall line urlLine variant,
        variant_of masterURL line (Some urlLine) = Ok [variant] ->
        variant.(URL) = resolveRelativeURL masterURL urlLine)
  /\ (forall line, variant_of masterURL line None = Ok [])
  /\ (forall line next,
        uri_line (Some next) = None ->
        variant_of masterURL line (uri_line (Some next)) = Ok []).
Proof.
  split; [apply parseVariants_adjacent|].
  split; [apply adjacent_variants_total|]. split.
  { intros refStr base ref. apply resolveRelativeURL_parsed. }
  split.
  { intros refStr err Hbase. unfold resolveRelativeURL. now rewrite Hbase. }
  split.
  { intros refStr err Href. unfold resolveRelativeURL. rewrite Href.
    now destruct (url_Parse masterURL). }
  split.
  { intros line urlLine variant. unfold variant_of.
    destruct (strings.HasPrefix _ _); [|discriminate].
    destruct (parseAttributes _) as [attrs| |]; cbn [rbind]; try discriminate.
    intros Hv. now injection Hv as <-. }
  split; [apply variant_of_no_uri|].
  intros line next ->. apply variant_of_no_uri.
Qed.

(** A reference that [url.Parse] refuses is the URL of the variant as it
    stands in the playlist. *)
Example parseVariants_unparsed_reference :
  parseVariants
    (H := refusing_env (str "%zz/index.m3u8")
            (title_fixture 200 master_token playlist))
    master_url (str escaped_playlist)
  = Ok [ {| Resolution := str "720x480"; Bandwidth := [];
            URL := str "%zz/index.m3u8" |};
         {| Resolution := str "320x240"; Bandwidth := [];
            URL := str "https://cdn.example.com/movie/320p/index.m3u8" |} ].
Proof. vm_compute. reflexivity. Qed.

Lemma adjacent_no_tag (masterURL : gostring) (lines : list gostring) :
  Forall (fun line => strings.HasPrefix (strings.TrimSpace line) STREAM_INF = false)
    lines ->
  adjacent_variants masterURL lines = Ok [].
Proof.
  induction 1 as [|line lines Hline Hlines IH]; [reflexivity|].
  cbn [adjacent_variants]. unfold variant_of. rewrite Hline. cbn [rbind].
  now rewrite IH.
Qed.

Lemma parseVariants_Ok_nonempty (masterURL body : gostring)
    (variants : list StreamVariant) :
  parseVariants masterURL body = Ok variants -> variants <> [].
Proof.
  unfold parseVariants.
  destruct (range_loop _ _ _ _) as [vs| |]; cbn [rbind]; try discriminate.
  destruct vs as [|v vs]; [discriminate|].
  cbn. intros Hvs. injection Hvs as <-. discriminate.
Qed.

Lemma ResolveStreams_Ok_parse (o : ResolveOptions) (h h' : list event)
    (variants : list StreamVariant) :
  ResolveStreams o h = (Ok variants, h') ->
  exists masterURL body, parseVariants masterURL body = Ok variants.
Proof.
  unfold ResolveStreams, bind.
  destruct (ResolveVariants o h) as [[masterURL| |] h1]; try discriminate.
  destruct (client_Get masterURL h1) as [[[resp|err]| |] h2]; try discriminate.
  destruct (negb (StatusCode resp =? StatusOK)); [discriminate|].
  destruct (Body resp) as [body|err]; [|discriminate].
  unfold lift. intros Heq. injection Heq as Hp _. eauto.
Qed.

(** C8. A playlist from which no variant is parsed, in particular one
    without any [#EXT-X-STREAM-INF] line, makes the parser and the
    pipeline fail with the "no stream variants found" error carrying the
    master URL; a successful parse or pipeline returns a non-empty list. *)
Theorem ResolveStreams_no_variants (masterURL body : gostring) :
  (forall variants,
     parseVariants masterURL body = Ok variants -> variants <> [])
  /\ (adjacent_variants masterURL (strings.Split body "010") = Ok [] ->
      parseVariants masterURL body = Err (ErrNoVariants masterURL))
  /\ (Forall (fun line =>
                strings.HasPrefix (strings.TrimSpace line) STREAM_INF = false)
             (strings.Split body "010") ->
      parseVariants masterURL body = Err (ErrNoVariants masterURL))
  /\ (forall o h h1 h2 resp,
        ResolveVariants o h = (Ok masterURL, h1) ->
        client_Get masterURL h1 = (Ok (inl resp), h2) ->
        resp.(StatusCode) = StatusOK -> resp.(Body) = inl body ->
        parseVariants masterURL body = Err (ErrNoVariants masterURL) ->
        ResolveStreams o h = (Err (ErrNoVariants masterURL), h2))
  /\ (forall o h h' variants,
        ResolveStreams o h = (Ok variants, h') -> variants <> []).
Proof.
  split; [intros variants; apply parseVariants_Ok_nonempty|].
  split; [intros Hadj; now rewrite parseVariants_adjacent, Hadj|].
  split.
  { intros Hno. rewrite parseVariants_adjacent, adjacent_no_tag by exact Hno.
    reflexivity. }
  split.
  - intros o h h1 h2 resp Hrv Hget Hst Hbody Hparse.
    unfold ResolveStreams, bind. rewrite Hrv, Hget, Hst, Hbody.
    cbn. unfold lift. now rewrite Hparse.
  - intros o h h' variants Hrs.
    destruct (ResolveStreams_Ok_parse _ _ _ _ Hrs) as (m & b & Hp).
    now apply (parseVariants_Ok_nonempty m b).
Qed.

End Parser.

Lemma ResolveStreams_no_variants_witness :
  parseVariants (H := fixture_env (title_fixture 200 master_token playlist))
    master_url (str "#EXTM3U")
  = Err (ErrNoVariants master_url).
Proof.
  apply (proj1 (proj2 (proj2
           (@ResolveStreams_no_variants
              (fixture_env (title_fixture 200 master_token playlist))
              master_url (str "#EXTM3U"))))).
  replace (strings.Split (str "#EXTM3U") "010") with [str "#EXTM3U"]
    by (vm_compute; reflexivity).
  constructor; [vm_compute; reflexivity | constructor].
Defined.

(** C3, as stated, fails: a blank line between the tag and its URL line
    is not skipped. The program finds no variant where the reading of the
    specification finds one. *)
Lemma parseVariants_does_not_skip_blank_lines :
  parseVariants (H := fixture_env (title_fixture 200 master_token playlist))
    master_url (str gapped_playlist)
  = Err (ErrNoVariants master_url)
  /\ spec_variants (H := fixture_env (title_fixture 200 master_token playlist))
       master_url (strings.Split (str gapped_playlist) "010")
     = Ok [ {| Resolution := str "720x480"; Bandwidth := [];
               URL := str "https://cdn.example.com/movie/720p/index.m3u8" |} ].
Proof. vm_compute. split; reflexivity. Qed.

(** ** Fetching: status codes and the abort of the pipeline *)

Section Fetch.
Context `{Env}.

(** The outcome of [fetchContent] once the round trip has answered. *)
Lemma fetchContent_response (url referer : gostring) (h : list event)
    (resp : Response) :
  let req := {| reqURL := url;
                reqReferer := if seq_dec referer [] then None else Some referer |} in
  http_NewRequest url = None ->
  client_RoundTrip h req = inl resp ->
  fetchContent url referer h =
    (if resp.(StatusCode) =? StatusOK then
       match resp.(Body) with
       | inl body => Ok body
       | inr err => Err (ErrReadingBody url err)
       end
     else Err (ErrStatusCode resp.(StatusCode) url),
     h ++ [EvDo req]).
Proof.
  intros req Hnew Hrt. unfold fetchContent. rewrite Hnew.
  unfold bind, client_Do. fold req. rewrite Hrt.
  destruct (StatusCode resp =? StatusOK); cbn; [|reflexivity].
  destruct (Body resp); reflexivity.
Qed.

(** C4, amended. A page fetch whose response has a status other than
    200 fails with the "unexpected status code" error carrying the status
    and the URL, after exactly one request; a status of 200 is not a
    status failure. The failure of the fetch of a stage is the outcome of
    [ResolveVariants] and of [ResolveStreams], both with the history as
    the failed fetch left it: no request after the failed one. Likewise
    for the master playlist in [ResolveStreams]. The optional script
    fetch inside stage 6 is the exception: [saveScript] succeeds whatever
    the answer. *)
Theorem fetch_status_is_fatal (o : ResolveOptions) (h : list event) :
  (forall url referer resp,
     let req := {| reqURL := url;
                   reqReferer := if seq_dec referer [] then None else Some referer |} in
     http_NewRequest url = None ->
     client_RoundTrip h req = inl resp ->
     (resp.(StatusCode) <> 200 ->
      fetchContent url referer h
      = (Err (ErrStatusCode resp.(StatusCode) url), h ++ [EvDo req]))
     /\ (resp.(StatusCode) = 200 ->
         fetchContent url referer h
         = (match resp.(Body) with
            | inl body => Ok body
            | inr err => Err (ErrReadingBody url err)
            end, h ++ [EvDo req])))
  /\ (forall embedURL e h1,
        buildEmbedURL o = Ok embedURL ->
        fetchContent embedURL [] h = (Err e, h1) ->
        ResolveVariants o h = (Err e, h1)
        /\ ResolveStreams o h = (Err e, h1))
  /\ (forall embedURL embedHTML rcpURL e h1 h2,
        buildEmbedURL o = Ok embedURL ->
        fetchContent embedURL [] h = (Ok embedHTML, h1) ->
        extractRCPURL embedHTML = Ok rcpURL ->
        fetchContent (str "https:" ++ rcpURL) [] h1 = (Err e, h2) ->
        ResolveVariants o h = (Err e, h2)
        /\ ResolveStreams o h = (Err e, h2))
  /\ (forall embedURL embedHTML rcpURL rcpHTML proRCPURL e h1 h2 h3,
        buildEmbedURL o = Ok embedURL ->
        fetchContent embedURL [] h = (Ok embedHTML, h1) ->
        extractRCPURL embedHTML = Ok rcpURL ->
        fetchContent (str "https:" ++ rcpURL) [] h1 = (Ok rcpHTML, h2) ->
        extractProRCPURL rcpHTML = Ok proRCPURL ->
        fetchContent (cloudnestra ++ proRCPURL) cloudnestra h2 = (Err e, h3) ->
        ResolveVariants o h = (Err e, h3)
        /\ ResolveStreams o h = (Err e, h3))
  /\ (forall e h1,
        ResolveVariants o h = (Err e, h1) ->
        ResolveStreams o h = (Err e, h1))
  /\ (forall masterURL resp h1,
        ResolveVariants o h = (Ok masterURL, h1) ->
        http_NewRequest masterURL = None ->
        client_RoundTrip h1 {| reqURL := masterURL; reqReferer := None |}
        = inl resp ->
        resp.(StatusCode) <> 200 ->
        ResolveStreams o h
        = (Err (ErrMasterStatus resp.(StatusCode) masterURL),
           h1 ++ [EvDo {| reqURL := masterURL; reqReferer := None |}]))
  /\ (forall doc, exists h', saveScript doc h = (Ok tt, h')).
Proof.
  split.
  { intros url referer resp req Hnew Hrt.
    rewrite (fetchContent_response url referer h resp Hnew Hrt). fold req.
    unfold StatusOK. split; intros Hst.
    - destruct (Z.eqb_spec (StatusCode resp) 200); [contradiction | reflexivity].
    - now rewrite Hst. }
  assert (Hstreams : forall e h1,
            ResolveVariants o h = (Err e, h1) ->
            ResolveStreams o h = (Err e, h1)).
  { intros e h1 Hrv. unfold ResolveStreams, bind. now rewrite Hrv. }
  split.
  { intros embedURL e h1 Hb Hf.
    assert (Hrv : ResolveVariants o h = (Err e, h1)).
    { unfold ResolveVariants, bind, lift. now rewrite Hb, Hf. }
    split; [exact Hrv | now apply Hstreams]. }
  split.
  { intros embedURL embedHTML rcpURL e h1 h2 Hb Hf1 Hx Hf2.
    assert (Hrv : ResolveVariants o h = (Err e, h2)).
    { unfold ResolveVariants, bind, lift. now rewrite Hb, Hf1, Hx, Hf2. }
    split; [exact Hrv | now apply Hstreams]. }
  split.
  { intros embedURL embedHTML rcpURL rcpHTML proRCPURL e h1 h2 h3
           Hb Hf1 Hx1 Hf2 Hx2 Hf3.
    assert (Hrv : ResolveVariants o h = (Err e, h3)).
    { unfold ResolveVariants, bind, lift.
      now rewrite Hb, Hf1, Hx1, Hf2, Hx2, Hf3. }
    split; [exact Hrv | now apply Hstreams]. }
  split; [exact Hstreams|].
  split; [|intros doc; apply saveScript_ok].
  intros masterURL resp h1 Hrv Hnew Hrt Hst.
  unfold ResolveStreams, bind. rewrite Hrv. unfold client_Get. rewrite Hnew.
  unfold client_Do. rewrite Hrt. unfold StatusOK.
  destruct (Z.eqb_spec (StatusCode resp) 200); [contradiction | reflexivity].
Qed.

End Fetch.

Lemma fetch_status_is_fatal_witness :
  ResolveVariants (H := fixture_env (title_fixture 404 master_token playlist))
    fight_club []
  = (Err (ErrStatusCode 404 (str "https://vidsrc-embed.ru/embed/movie?imdb=tt0137523")),
     [EvDo {| reqURL := str "https://vidsrc-embed.ru/embed/movie?imdb=tt0137523";
              reqReferer := None |}])
  /\ ResolveStreams (H := fixture_env (title_fixture 404 master_token playlist))
       fight_club []
     = (Err (ErrStatusCode 404 (str "https://vidsrc-embed.ru/embed/movie?imdb=tt0137523")),
        [EvDo {| reqURL := str "https://vidsrc-embed.ru/embed/movie?imdb=tt0137523";
                 reqReferer := None |}]).
Proof.
  pose proof (@fetch_status_is_fatal
                (fixture_env (title_fixture 404 master_token playlist))
                fight_club []) as (Hfetch & Hstage & _).
  apply (Hstage (str "https://vidsrc-embed.ru/embed/movie?imdb=tt0137523")).
  - vm_compute. reflexivity.
  - apply (Hfetch (str "https://vidsrc-embed.ru/embed/movie?imdb=tt0137523") []
             {| StatusCode := 404; Body := inl embed_page |}).
    + reflexivity.
    + vm_compute. reflexivity.
    + cbn. lia.
Defined.

(** C4, as stated, fails on its converse: a 204 response, which is 2xx,
    is refused as an unexpected status. *)
Lemma fetchContent_refuses_204 :
  let url := str "https://vidsrc-embed.ru/embed/movie?imdb=tt0137523" in
  (200 <= 204 < 300)
  /\ fetchContent (H := fixture_env (title_fixture 204 master_token playlist))
       url [] []
     = (Err (ErrStatusCode 204 url),
        [EvDo {| reqURL := url; reqReferer := None |}]).
Proof. split; [lia | vm_compute; reflexivity]. Qed.

Example ResolveStreams_fixture :
  fst (ResolveStreams (H := fixture_env (title_fixture 200 master_token playlist))
         fight_club [])
  = Ok [ {| Resolution := str "720x480"; Bandwidth := [];
            URL := str "https://cdn.example.com/movie/720p/index.m3u8" |};
         {| Resolution := str "320x240"; Bandwidth := [];
            URL := str "https://cdn.example.com/movie/320p/index.m3u8" |} ].
Proof. vm_compute. reflexivity. Qed.

(** ** The pipeline never panics *)

Section NoPanic.
Context `{Env}.

Lemma buildEmbedURL_no_panic (o : ResolveOptions) : buildEmbedURL o <> Panic.
Proof.
  unfold buildEmbedURL.
  repeat match goal with
         | |- context [if ?b then _ else _] => destruct b
         end; discriminate.
Qed.

Lemma extractRCPURL_no_panic (embedHTML : gostring) :
  extractRCPURL embedHTML <> Panic.
Proof.
  unfold extractRCPURL. destruct (NewDocumentFromReader embedHTML); [|discriminate].
  destruct (goquery.Attr_ _ _) as [src|]; [|discriminate].
  destruct (seq_dec src []); discriminate.
Qed.

Lemma extractProRCPURL_no_panic (rcpHTML : gostring) :
  extractProRCPURL rcpHTML <> Panic.
Proof.
  rewrite extractProRCPURL_cases.
  destruct (regexp.FindStringSubmatch proRCP_re rcpHTML) as [|w [|u [|x l]]];
    discriminate.
Qed.

Lemma decodeStreamURL_no_panic (proRCPHTML : gostring) (h : list event) :
  fst (decodeStreamURL proRCPHTML h) <> Panic.
Proof.
  destruct (NewDocumentFromReader proRCPHTML) as [doc|err] eqn:Hdoc.
  - rewrite (decodeStreamURL_parsed _ _ _ Hdoc), hiddenDivContent_cases.
    destruct (goquery.Find doc hidden_div) as [|n rest]; [discriminate|].
    cbn [rbind]. apply decodeContent_no_panic.
  - unfold decodeStreamURL. rewrite Hdoc. discriminate.
Qed.

Lemma parseVariants_no_panic (masterURL body : gostring) :
  parseVariants masterURL body <> Panic.
Proof.
  rewrite parseVariants_adjacent.
  destruct (adjacent_variants_total masterURL (strings.Split body "010"))
    as (variants & ->).
  cbn [rbind]. destruct (len variants =? 0); discriminate.
Qed.

Lemma ResolveVariants_no_panic (o : ResolveOptions) (h : list event) :
  fst (ResolveVariants o h) <> Panic.
Proof.
  unfold ResolveVariants, bind, lift, ret.
  pose proof (buildEmbedURL_no_panic o) as Hb.
  destruct (buildEmbedURL o) as [embedURL|e|]; [|discriminate|contradiction].
  pose proof (fetchContent_no_panic embedURL [] h) as Hf1.
  destruct (fetchContent embedURL [] h) as [[embedHTML|e|] h1];
    [|discriminate|contradiction].
  pose proof (extractRCPURL_no_panic embedHTML) as Hx1.
  destruct (extractRCPURL embedHTML) as [rcpURL|e|]; [|discriminate|contradiction].
  pose proof (fetchContent_no_panic (str "https:" ++ rcpURL) [] h1) as Hf2.
  destruct (fetchContent (str "https:" ++ rcpURL) [] h1) as [[rcpHTML|e|] h2];
    [|discriminate|contradiction].
  pose proof (extractProRCPURL_no_panic rcpHTML) as Hx2.
  destruct (extractProRCPURL rcpHTML) as [proRCPURL|e|];
    [|discriminate|contradiction].
  pose proof (fetchContent_no_panic (cloudnestra ++ proRCPURL) cloudnestra h2) as Hf3.
  destruct (fetchContent (cloudnestra ++ proRCPURL) cloudnestra h2)
    as [[proRCPHTML|e|] h3]; [|discriminate|contradiction].
  pose proof (decodeStreamURL_no_panic proRCPHTML h3) as Hd.
  destruct (decodeStreamURL proRCPHTML h3) as [[hlsURL|e|] h4];
    [discriminate|discriminate|contradiction].
Qed.

(** X14. No index of the program is ever out of range, whatever the
    options and the answers of the world: [runes[n-1-i]] and [runes[i]]
    in [Deobfuscate], [match[1]] in [extractProRCPURL], [kv[1]] in
    [parseAttributes] and [lines[i+1]] in [ResolveStreams] all exist
    when they are read, so the pipeline ends with a value or an error. *)
Theorem ResolveStreams_no_panic (o : ResolveOptions) (h : list event) :
  fst (ResolveStreams o h) <> Panic.
Proof.
  unfold ResolveStreams, bind, lift.
  pose proof (ResolveVariants_no_panic o h) as Hrv.
  destruct (ResolveVariants o h) as [[masterURL|e|] h1];
    [|discriminate|contradiction].
  unfold client_Get, client_Do, ret.
  destruct (http_NewRequest masterURL); [discriminate|].
  destruct (client_RoundTrip h1 _) as [resp|err]; [|discriminate].
  destruct (negb (StatusCode resp =? StatusOK)); [discriminate|].
  destruct (Body resp) as [body|err]; [|discriminate].
  apply parseVariants_no_panic.
Qed.

End NoPanic.

(** * Further properties of the program *)

(** X1. The two loops of [Deobfuscate] never index outside the slice:
    the first leaves the runes reversed, the second collects the runes
    at the even indices. [Deobfuscate] therefore fails only when the
    Base64 decoding of the runes at the even distances from the end of
    the token fails, and returns the decoded bytes otherwise. *)
Theorem Deobfuscate_even_runes (obfCode : gostring) :
  (forall runes : list Z, reverse_in_place runes = Ok (reverse runes))
  /\ (forall runes : list Z, every_second runes = Ok (evens runes))
  /\ Deobfuscate obfCode =
       match base64.DecodeString
               (string_of_runes (evens (reverse (runes_of_string obfCode)))) with
       | inl decodedBytes => Ok decodedBytes
       | inr e => Err (ErrDecodingBase64 (CorruptInput e))
       end.
Proof.
  split; [exact reverse_in_place_ok|]. split; [exact every_second_ok|].
  apply Deobfuscate_unfold.
Qed.

Lemma matches_iframe_player (n : html.Node) :
  goquery.matches iframe_player n = true <-> is_player_iframe n.
Proof.
  unfold goquery.matches, iframe_player, is_player_iframe, goquery.matchAttribute.
  cbn [goquery.tag goquery.attr].
  rewrite !andb_true_iff, bool_decide_eq_true, existsb_exists.
  split.
  - intros [[He Hd] [_ (a & Ha & Hk)]].
    rewrite andb_true_iff, !bool_decide_eq_true in Hk. destruct Hk as [Hk Hv].
    repeat split; try assumption. exists a. auto.
  - intros (He & Hd & a & Ha & Hk & Hv). repeat split; try assumption.
    exists a. split; [exact Ha|].
    rewrite andb_true_iff, !bool_decide_eq_true. auto.
Qed.

Lemma Attr_In (s : list html.Node) (name val : gostring) :
  goquery.Attr_ s name = Some val ->
  exists n rest a, s = n :: rest /\ In a (html.Attr n)
                   /\ html.Key a = name /\ html.Val a = val.
Proof.
  unfold goquery.Attr_. destruct s as [|n rest]; [discriminate|].
  destruct (filter _ (html.Attr n)) as [|a l] eqn:Hf; [discriminate|].
  intros Hv. injection Hv as <-.
  assert (Ha : a ∈ filter (fun a => html.Key a = name) (html.Attr n))
    by (rewrite Hf; left).
  apply list_elem_of_filter in Ha. destruct Ha as [Hk Hin].
  exists n, rest, a. split; [reflexivity|]. split; [|now split].
  now apply list_elem_of_In.
Qed.

Section Entry.
Context `{Env}.

(** X2. On a page that parses, [extractRCPURL] returns only a non-empty
    [src] attribute of an [iframe] element of the document whose [id]
    is [player_iframe]; without such an element it fails, and its only
    error is "no iframe src found for RCP URL". *)
Theorem extractRCPURL_player_iframe (embedHTML : gostring) (doc : html.Node) :
  NewDocumentFromReader embedHTML = inl doc ->
  (forall src,
     extractRCPURL embedHTML = Ok src ->
     src <> []
     /\ exists n a, in_document n doc /\ is_player_iframe n
                    /\ In a (html.Attr n)
                    /\ html.Key a = str "src" /\ html.Val a = src)
  /\ ((forall n, in_document n doc -> ~ is_player_iframe n) ->
      extractRCPURL embedHTML = Err ErrNoIframeSrc)
  /\ (forall e, extractRCPURL embedHTML = Err e -> e = ErrNoIframeSrc).
Proof.
  intros Hdoc. unfold extractRCPURL. rewrite Hdoc. split; [|split].
  - intros src.
    destruct (goquery.Attr_ _ _) as [v|] eqn:Hv; [|discriminate].
    destruct (seq_dec v []) eqn:Hempty; [discriminate|].
    intros Hok. injection Hok as <-. split.
    { intros ->. unfold seq_dec in Hempty.
      now rewrite bool_decide_eq_true_2 in Hempty. }
    apply Attr_In in Hv. destruct Hv as (n & rest & a & Hf & Ha & Hk & Hval).
    assert (Hn : In n (goquery.Find doc iframe_player)) by (rewrite Hf; now left).
    apply Find_In in Hn. destruct Hn as (c & Hc & He & Hin & Hm).
    exists n, a. split; [exists c; auto|]. split; [now apply matches_iframe_player|].
    auto.
  - intros Hno.
    destruct (goquery.Find doc iframe_player) as [|n rest] eqn:Hf; [reflexivity|].
    exfalso. assert (Hn : In n (goquery.Find doc iframe_player))
      by (rewrite Hf; now left).
    apply Find_In in Hn. destruct Hn as (c & Hc & He & Hin & Hm).
    apply (Hno n); [exists c; auto | now apply matches_iframe_player].
  - intros e. destruct (goquery.Attr_ _ _) as [v|]; [|congruence].
    destruct (seq_dec v []); congruence.
Qed.

Lemma fetchContent_Ok_iff (url referer body : gostring) (h h' : list event) :
  fetchContent url referer h = (Ok body, h')
  <-> http_NewRequest url = None
      /\ h' = h ++ [EvDo (request_of url referer)]
      /\ exists resp,
           client_RoundTrip h (request_of url referer) = inl resp
           /\ resp.(StatusCode) = 200 /\ resp.(Body) = inl body.
Proof.
  unfold fetchContent, request_of, bind, client_Do, fail, ret, StatusOK.
  destruct (http_NewRequest url) as [e|].
  { split; [discriminate | intros [Hn _]; discriminate]. }
  destruct (client_RoundTrip h _) as [resp|e] eqn:Hrt.
  - destruct (Z.eqb_spec (StatusCode resp) 200) as [Hst|Hst]; cbn [negb].
    + destruct (Body resp) as [b|e] eqn:Hb.
      * split.
        -- intros Heq. injection Heq as <- <-. eauto 7.
        -- intros (_ & -> & resp' & Hr & _ & Hb'). injection Hr as <-.
           rewrite Hb in Hb'. now injection Hb' as <-.
      * split; [discriminate|].
        intros (_ & _ & resp' & Hr & _ & Hb'). injection Hr as <-. congruence.
    + split; [discriminate|].
      intros (_ & _ & resp' & Hr & Hst' & _). injection Hr as <-. contradiction.
  - split; [discriminate|]. intros (_ & _ & resp' & Hr & _). discriminate.
Qed.

(** X3. [fetchContent] returns a body exactly when the request could be
    built, the round trip answered with status 200 and the body could be
    read; it has then sent this one request, with a [Referer] header
    only for a non-empty [referer], and returns the body unchanged. *)
Theorem fetchContent_success (url referer body : gostring) (h h' : list event) :
  fetchContent url referer h = (Ok body, h')
  <-> http_NewRequest url = None
      /\ h' = h ++ [EvDo (request_of url referer)]
      /\ exists resp,
           client_RoundTrip h (request_of url referer) = inl resp
           /\ resp.(StatusCode) = 200 /\ resp.(Body) = inl body.
Proof. apply fetchContent_Ok_iff. Qed.

End Entry.

Lemma extractRCPURL_player_iframe_witness :
  (forall src,
     @extractRCPURL (fixture_env (title_fixture 200 master_token playlist))
       embed_page = Ok src ->
     src <> []
     /\ exists n a, in_document n embed_doc /\ is_player_iframe n
                    /\ In a (html.Attr n)
                    /\ html.Key a = str "src" /\ html.Val a = src)
  /\ ((forall n, in_document n embed_doc -> ~ is_player_iframe n) ->
      @extractRCPURL (fixture_env (title_fixture 200 master_token playlist))
       embed_page = Err ErrNoIframeSrc)
  /\ (forall e, @extractRCPURL (fixture_env (title_fixture 200 master_token playlist))
       embed_page = Err e -> e = ErrNoIframeSrc).
Proof.
  exact (@extractRCPURL_player_iframe
           (fixture_env (title_fixture 200 master_token playlist))
           embed_page embed_doc eq_refl).
Defined.

Example extractRCPURL_embed_page :
  @extractRCPURL (fixture_env (title_fixture 200 master_token playlist)) embed_page
  = Ok (str "//cloudnestra.com/rcp/YTUz").
Proof. vm_compute. reflexivity. Qed.

Section Script.
Context `{Env}.

(** Every run of [fetchContent] sends at most one request. *)
Lemma fetchContent_events (url referer : gostring) (h : list event) :
  (http_NewRequest url <> None /\ snd (fetchContent url referer h) = h
   /\ exists e, fst (fetchContent url referer h) = Err e)
  \/ (http_NewRequest url = None
      /\ snd (fetchContent url referer h) = h ++ [EvDo (request_of url referer)]).
Proof.
  unfold fetchContent, request_of, bind, client_Do, fail, ret.
  destruct (http_NewRequest url) as [e|].
  - left. cbn. split; [discriminate|]. split; [reflexivity|]. eauto.
  - right. split; [reflexivity|].
    destruct (client_RoundTrip h _) as [resp|e]; cbn; [|reflexivity].
    destruct (negb (StatusCode resp =? StatusOK)); [reflexivity|].
    destruct (Body resp); reflexivity.
Qed.

(** What [saveScript] does: at most a request, a directory and a file. *)
Lemma saveScript_trace (doc : html.Node) (h : list event) :
  exists evs, saveScript doc h = (Ok tt, h ++ evs)
    /\ (evs = []
        \/ exists src,
             let req := request_of (cloudnestra ++ src) cloudnestra in
             goquery.Attr_ (goquery.First (goquery.Find doc script_sel)) (str "src")
             = Some src
             /\ (evs = [EvDo req]
                 \/ exists jsContent,
                      fetchContent (cloudnestra ++ src) cloudnestra h
                      = (Ok jsContent, h ++ [EvDo req])
                      /\ (evs = [EvDo req; EvMkdirAll (str "scripts")]
                          \/ (os_MkdirAll (h ++ [EvDo req]) (str "scripts") = None
                              /\ evs = [EvDo req; EvMkdirAll (str "scripts");
                                       EvWriteFile (str "scripts/prorcp.js")
                                         jsContent])))).
Proof.
  unfold saveScript.
  destruct (0 <? len (goquery.Find doc script_sel));
    [|exists []; rewrite app_nil_r; auto].
  destruct (goquery.Attr_ _ _) as [src|] eqn:Hsrc;
    [|exists []; rewrite app_nil_r; auto].
  unfold bind, attempt.
  pose proof (fetchContent_no_panic (cloudnestra ++ src) cloudnestra h) as Hp.
  destruct (fetchContent_events (cloudnestra ++ src) cloudnestra h)
    as [(Hnew & Hh & e & He)|(Hnew & Hh)].
  { destruct (fetchContent (cloudnestra ++ src) cloudnestra h) as [r h1].
    cbn [fst snd] in Hh, He. subst. exists []. rewrite app_nil_r. auto. }
  destruct (fetchContent (cloudnestra ++ src) cloudnestra h) as [[js|e|] h1] eqn:Hf;
    cbn [fst snd] in Hp, Hh; [| |congruence]; subst h1.
  - unfold MkdirAll. destruct (os_MkdirAll _ _) eqn:Hmk.
    + exists [EvDo (request_of (cloudnestra ++ src) cloudnestra);
              EvMkdirAll (str "scripts")].
      split; [unfold ret; now rewrite <- app_assoc|].
      right. exists src. cbn zeta. split; [reflexivity|].
      right. exists js. split; [exact Hf|]. now left.
    + unfold WriteFile, ret.
      exists [EvDo (request_of (cloudnestra ++ src) cloudnestra);
              EvMkdirAll (str "scripts");
              EvWriteFile (str "scripts/prorcp.js") js].
      split; [now rewrite <- !app_assoc|].
      right. exists src. cbn zeta. split; [reflexivity|].
      right. exists js. split; [exact Hf|]. right. now split.
  - exists [EvDo (request_of (cloudnestra ++ src) cloudnestra)].
    split; [reflexivity|]. right. exists src. cbn zeta. split; [reflexivity|].
    now left.
Qed.

Lemma saveScript_script_events (doc : html.Node) (h : list event) :
  exists evs, saveScript doc h = (Ok tt, h ++ evs) /\ script_events evs.
Proof.
  destruct (saveScript_trace doc h) as (evs & Hrun & Hevs).
  exists evs. split; [exact Hrun|]. unfold script_events.
  destruct Hevs as [->|(src & _ & [->|(js & _ & [->|[_ ->]])])].
  - exists [], []. eexists. reflexivity.
  - exists src, []. eexists. reflexivity.
  - exists src, []. eexists. reflexivity.
  - exists src, js, []. reflexivity.
Qed.


End Script.

(** X5. The URL or error that [decodeStreamURL] returns depends on the
    parsed page alone: whether the script could be fetched or saved, and
    what happened before, never changes it. *)
Theorem decodeStreamURL_ignores_the_world (E1 E2 : Env) (proRCPHTML : gostring)
    (h1 h2 : list event) :
  @NewDocumentFromReader E1 proRCPHTML = @NewDocumentFromReader E2 proRCPHTML ->
  fst (@decodeStreamURL E1 proRCPHTML h1) = fst (@decodeStreamURL E2 proRCPHTML h2).
Proof.
  intros Hparse.
  destruct (@NewDocumentFromReader E2 proRCPHTML) as [doc|err] eqn:Hdoc.
  - rewrite (@decodeStreamURL_parsed E1 _ doc h1 Hparse).
    now rewrite (@decodeStreamURL_parsed E2 _ doc h2 Hdoc).
  - unfold decodeStreamURL. now rewrite Hparse, Hdoc.
Qed.

Lemma decodeStreamURL_ignores_the_world_witness :
  fst (@decodeStreamURL (fixture_env (script_fixture 200)) prorcp_page [])
  = fst (@decodeStreamURL (fixture_env (script_fixture 500)) prorcp_page []).
Proof.
  apply (decodeStreamURL_ignores_the_world
           (fixture_env (script_fixture 200)) (fixture_env (script_fixture 500))).
  reflexivity.
Defined.

Example saveScript_200 :
  snd (@saveScript (fixture_env (script_fixture 200)) script_doc [])
  = [ EvDo {| reqURL := str "https://cloudnestra.com/sV05kUlNvOdOxvtC/bd228be1.js?_=1744906950";
              reqReferer := Some (str "https://cloudnestra.com") |};
      EvMkdirAll (str "scripts");
      EvWriteFile (str "scripts/prorcp.js") (str "var x = 1;") ].
Proof. vm_compute. reflexivity. Qed.

Example saveScript_500 :
  snd (@saveScript (fixture_env (script_fixture 500)) script_doc [])
  = [ EvDo {| reqURL := str "https://cloudnestra.com/sV05kUlNvOdOxvtC/bd228be1.js?_=1744906950";
              reqReferer := Some (str "https://cloudnestra.com") |} ].
Proof. vm_compute. reflexivity. Qed.

(** ** The requests of a successful resolution *)

Lemma extractProRCPURL_shape (rcpHTML u : gostring) :
  extractProRCPURL rcpHTML = Ok u ->
  exists body, u = str "/prorcp/" ++ body /\ body <> []
               /\ Forall (fun c => c <> "'"%char) body.
Proof.
  rewrite extractProRCPURL_cases.
  destruct (Find_shape proRCP_re rcpHTML) as [Hf|(w & u0 & Hf)]; rewrite Hf;
    [discriminate|].
  intros Hu. injection Hu as <-.
  apply Find_some in Hf. destruct Hf as (pre & s' & _ & Hm & _).
  apply match_here_proRCP in Hm.
  destruct Hm as (body & post & _ & Hne & Hbody & _ & _ & Hu).
  eauto.
Qed.

Section Requests.
Context `{Env}.

Lemma extractRCPURL_nonempty (embedHTML src : gostring) :
  extractRCPURL embedHTML = Ok src -> src <> [].
Proof.
  unfold extractRCPURL. destruct (NewDocumentFromReader embedHTML); [|discriminate].
  destruct (goquery.Attr_ _ _) as [v|]; [|discriminate].
  destruct (seq_dec v []) eqn:Hv; [discriminate|].
  intros Hs. injection Hs as <-. intros ->.
  unfold seq_dec in Hv. now rewrite bool_decide_eq_true_2 in Hv.
Qed.

Lemma decodeStreamURL_events (proRCPHTML : gostring) (h : list event) :
  exists evs, snd (decodeStreamURL proRCPHTML h) = h ++ evs /\ script_events evs.
Proof.
  unfold decodeStreamURL.
  destruct (NewDocumentFromReader proRCPHTML) as [doc|err].
  - unfold bind. destruct (saveScript_script_events doc h) as (evs & -> & Hevs).
    exists evs. split; [|exact Hevs].
    unfold lift. destruct (hiddenDivContent doc); reflexivity.
  - exists []. split; [cbn; now rewrite app_nil_r|].
    exists [], []. eexists. reflexivity.
Qed.

Lemma extractRCPURL_Ok_iframe (embedHTML src : gostring) :
  extractRCPURL embedHTML = Ok src ->
  exists doc n a,
    NewDocumentFromReader embedHTML = inl doc
    /\ in_document n doc /\ is_player_iframe n
    /\ In a (html.Attr n) /\ html.Key a = str "src" /\ html.Val a = src.
Proof.
  unfold extractRCPURL.
  destruct (NewDocumentFromReader embedHTML) as [doc|err]; [|discriminate].
  destruct (goquery.Attr_ _ _) as [v|] eqn:Hv; [|discriminate].
  destruct (seq_dec v []); [discriminate|].
  intros Hok. injection Hok as <-.
  apply Attr_In in Hv. destruct Hv as (n & rest & a & Hf & Ha & Hk & Hval).
  assert (Hn : In n (goquery.Find doc iframe_player)) by (rewrite Hf; now left).
  apply Find_In in Hn. destruct Hn as (c & Hc & He & Hin & Hm).
  exists doc, n, a. split; [reflexivity|]. split; [exists c; auto|].
  split; [now apply matches_iframe_player | auto].
Qed.

(** X6. A successful [ResolveVariants] has sent exactly these requests,
    in this order, each answered with status 200: the entry URL of the
    title, without [Referer]; [https:] followed by the non-empty [src]
    of an [iframe] with id [player_iframe] of the entry page just
    fetched, without [Referer]; [https://cloudnestra.com/prorcp/...],
    the path being what [extractProRCPURL] finds in the page just
    fetched, non-empty and free of quotes, with
    [Referer: https://cloudnestra.com]; and at the end only what the
    script download of stage 6 does. The URL returned is what
    [decodeStreamURL] decodes from the third page. *)
Theorem ResolveVariants_requests (o : ResolveOptions) (h h' : list event)
    (hlsURL : gostring) :
  ResolveVariants o h = (Ok hlsURL, h') ->
  exists embedURL embedHTML rcpURL rcpHTML body proRCPHTML evs,
    let req1 := {| reqURL := embedURL; reqReferer := None |} in
    let req2 := {| reqURL := str "https:" ++ rcpURL; reqReferer := None |} in
    let req3 := {| reqURL := str "https://cloudnestra.com/prorcp/" ++ body;
                   reqReferer := Some (str "https://cloudnestra.com") |} in
    buildEmbedURL o = Ok embedURL
    /\ (exists resp, client_RoundTrip h req1 = inl resp
          /\ resp.(StatusCode) = 200 /\ resp.(Body) = inl embedHTML)
    /\ extractRCPURL embedHTML = Ok rcpURL /\ rcpURL <> []
    /\ (exists doc n a,
          NewDocumentFromReader embedHTML = inl doc
          /\ in_document n doc /\ is_player_iframe n
          /\ In a (html.Attr n) /\ html.Key a = str "src"
          /\ html.Val a = rcpURL)
    /\ (exists resp, client_RoundTrip (h ++ [EvDo req1]) req2 = inl resp
          /\ resp.(StatusCode) = 200 /\ resp.(Body) = inl rcpHTML)
    /\ extractProRCPURL rcpHTML = Ok (str "/prorcp/" ++ body)
    /\ body <> [] /\ Forall (fun c => c <> "'"%char) body
    /\ (exists resp,
          client_RoundTrip (h ++ [EvDo req1; EvDo req2]) req3 = inl resp
          /\ resp.(StatusCode) = 200 /\ resp.(Body) = inl proRCPHTML)
    /\ decodeStreamURL proRCPHTML (h ++ [EvDo req1; EvDo req2; EvDo req3])
       = (Ok hlsURL, h')
    /\ h' = h ++ [EvDo req1; EvDo req2; EvDo req3] ++ evs
    /\ script_events evs.
Proof.
  unfold ResolveVariants, bind, lift, ret.
  destruct (buildEmbedURL o) as [embedURL|e|]; try discriminate.
  destruct (fetchContent embedURL [] h) as [[embedHTML|e|] h1] eqn:Hf1;
    try discriminate.
  destruct (extractRCPURL embedHTML) as [rcpURL|e|] eqn:Hx1; try discriminate.
  destruct (fetchContent (str "https:" ++ rcpURL) [] h1) as [[rcpHTML|e|] h2] eqn:Hf2;
    try discriminate.
  destruct (extractProRCPURL rcpHTML) as [proRCPURL|e|] eqn:Hx2; try discriminate.
  destruct (fetchContent (cloudnestra ++ proRCPURL) cloudnestra h2)
    as [[proRCPHTML|e|] h3] eqn:Hf3; try discriminate.
  destruct (decodeStreamURL_events proRCPHTML h3) as (evs & Hevs & Hscript).
  destruct (decodeStreamURL proRCPHTML h3) as [[url|e|] h4] eqn:Hd;
    try discriminate.
  cbn [snd] in Hevs. intros Heq. injection Heq as <- <-.
  apply fetchContent_Ok_iff in Hf1, Hf2, Hf3.
  destruct Hf1 as (_ & -> & Hr1). destruct Hf2 as (_ & -> & Hr2).
  destruct Hf3 as (_ & -> & Hr3).
  destruct (extractProRCPURL_shape _ _ Hx2) as (body & -> & Hne & Hbody).
  repeat (rewrite <- app_assoc in Hr3; cbn [app] in Hr3).
  repeat (rewrite <- app_assoc in Hd; cbn [app] in Hd).
  repeat (rewrite <- app_assoc in Hevs; cbn [app] in Hevs).
  exists embedURL, embedHTML, rcpURL, rcpHTML, body, proRCPHTML, evs. cbn zeta.
  split; [reflexivity|]. split; [exact Hr1|]. split; [exact Hx1|].
  split; [exact (extractRCPURL_nonempty _ _ Hx1)|].
  split; [exact (extractRCPURL_Ok_iframe _ _ Hx1)|].
  split; [exact Hr2|]. split; [exact Hx2|].
  split; [exact Hne|]. split; [exact Hbody|].
  split; [exact Hr3|]. split; [exact Hd|]. split; [|exact Hscript].
  rewrite Hevs. reflexivity.
Qed.

End Requests.

Lemma ResolveVariants_requests_witness :
  exists embedURL embedHTML rcpURL rcpHTML body proRCPHTML evs,
    let E := fixture_env (title_fixture 200 master_token playlist) in
    let req1 := {| reqURL := embedURL; reqReferer := None |} in
    let req2 := {| reqURL := str "https:" ++ rcpURL; reqReferer := None |} in
    let req3 := {| reqURL := str "https://cloudnestra.com/prorcp/" ++ body;
                   reqReferer := Some (str "https://cloudnestra.com") |} in
    buildEmbedURL fight_club = Ok embedURL
    /\ (exists resp, @client_RoundTrip E [] req1 = inl resp
          /\ resp.(StatusCode) = 200 /\ resp.(Body) = inl embedHTML)
    /\ @extractRCPURL E embedHTML = Ok rcpURL /\ rcpURL <> []
    /\ (exists doc n a,
          @NewDocumentFromReader E embedHTML = inl doc
          /\ in_document n doc /\ is_player_iframe n
          /\ In a (html.Attr n) /\ html.Key a = str "src"
          /\ html.Val a = rcpURL)
    /\ (exists resp, @client_RoundTrip E ([] ++ [EvDo req1]) req2 = inl resp
          /\ resp.(StatusCode) = 200 /\ resp.(Body) = inl rcpHTML)
    /\ extractProRCPURL rcpHTML = Ok (str "/prorcp/" ++ body)
    /\ body <> [] /\ Forall (fun c => c <> "'"%char) body
    /\ (exists resp,
          @client_RoundTrip E ([] ++ [EvDo req1; EvDo req2]) req3 = inl resp
          /\ resp.(StatusCode) = 200 /\ resp.(Body) = inl proRCPHTML)
    /\ @decodeStreamURL E proRCPHTML ([] ++ [EvDo req1; EvDo req2; EvDo req3])
       = (Ok master_url,
          snd (@ResolveVariants E fight_club []))
    /\ snd (@ResolveVariants E fight_club [])
       = [] ++ [EvDo req1; EvDo req2; EvDo req3] ++ evs
    /\ script_events evs.
Proof.
  refine (@ResolveVariants_requests
            (fixture_env (title_fixture 200 master_token playlist))
            fight_club []
            (snd (@ResolveVariants
                    (fixture_env (title_fixture 200 master_token playlist))
                    fight_club []))
            master_url _).
  vm_compute. reflexivity.
Defined.


(** ** The playlist: white space around the lines *)

Section Lines.
Context `{Env}.

Lemma variant_of_trimmed (masterURL a b : gostring) (uri : option gostring) :
  strings.TrimSpace a = strings.TrimSpace b ->
  variant_of masterURL a uri = variant_of masterURL b uri.
Proof. intros Hab. unfold variant_of. now rewrite Hab. Qed.

Lemma uri_line_trimmed (r1 r2 : list gostring) :
  map strings.TrimSpace r1 = map strings.TrimSpace r2 ->
  uri_line (head r1) = uri_line (head r2).
Proof.
  destruct r1 as [|a r1], r2 as [|b r2]; try discriminate; [reflexivity|].
  cbn [map head uri_line]. intros Hab. injection Hab as Hab _. now rewrite Hab.
Qed.

Lemma adjacent_variants_trimmed (masterURL : gostring) (l1 l2 : list gostring) :
  map strings.TrimSpace l1 = map strings.TrimSpace l2 ->
  adjacent_variants masterURL l1 = adjacent_variants masterURL l2.
Proof.
  revert l2. induction l1 as [|a r1 IH]; intros [|b r2]; try discriminate;
    [reflexivity|].
  cbn [map]. intros Hab. injection Hab as Hab Hr.
  cbn [adjacent_variants].
  rewrite (variant_of_trimmed masterURL a b _ Hab), (uri_line_trimmed r1 r2 Hr).
  now rewrite (IH r2 Hr).
Qed.

(** X7. The parser sees the lines of a playlist only through
    [strings.TrimSpace]: two playlists whose lines agree up to the white
    space around them give the same variants or the same error. A
    playlist with [\r\n] line ends is read like the one with [\n]. *)
Theorem parseVariants_trimmed_lines (masterURL body1 body2 : gostring) :
  map strings.TrimSpace (strings.Split body1 "010")
  = map strings.TrimSpace (strings.Split body2 "010") ->
  parseVariants masterURL body1 = parseVariants masterURL body2.
Proof.
  intros Hlines. rewrite !parseVariants_adjacent.
  now rewrite (adjacent_variants_trimmed masterURL _ _ Hlines).
Qed.

End Lines.

Lemma parseVariants_trimmed_lines_witness :
  @parseVariants (fixture_env (title_fixture 200 master_token playlist))
    master_url (crlf (str playlist))
  = @parseVariants (fixture_env (title_fixture 200 master_token playlist))
      master_url (str playlist).
Proof.
  apply (@parseVariants_trimmed_lines
           (fixture_env (title_fixture 200 master_token playlist))).
  vm_compute. reflexivity.
Defined.

(** ** The attributes of a tag line *)

Lemma TrimSpace_In (s : gostring) (c : ascii) :
  In c (strings.TrimSpace s) -> In c s.
Proof.
  intros Hin. destruct (TrimSpace_split s) as (pre & post & Hs & _).
  rewrite Hs. rewrite !in_app_iff. auto.
Qed.

Lemma SplitN2_cut (s : gostring) (sep : ascii) :
  In sep s ->
  exists a b, strings.SplitN2 s sep = [a; b] /\ s = a ++ sep :: b /\ ~ In sep a.
Proof.
  induction s as [|c s IH]; [contradiction|].
  intros Hin. cbn [strings.SplitN2].
  destruct (beq c sep) eqn:Hc.
  - apply beq_true in Hc. subst c. exists [], s. auto.
  - apply beq_false in Hc. destruct Hin as [->|Hin]; [contradiction|].
    destruct (IH Hin) as (a & b & -> & -> & Ha).
    exists (c :: a), b. split; [reflexivity|]. split; [reflexivity|].
    intros [Heq|Hin']; [now subst | contradiction].
Qed.

Lemma cut_unique (sep : ascii) (a a' b b' : gostring) :
  ~ In sep a -> ~ In sep a' -> a ++ sep :: b = a' ++ sep :: b' ->
  a = a' /\ b = b'.
Proof.
  revert a'. induction a as [|x a IH]; intros [|y a'] Ha Ha' Heq; cbn in *.
  - now injection Heq as ->.
  - injection Heq as <- _. tauto.
  - injection Heq as -> _. tauto.
  - injection Heq as <- Heq.
    destruct (IH a') as [-> ->]; auto.
Qed.

(** What one part of the line contributes. *)
Lemma part_cases (part : gostring) :
  (strings.Contains part "=" = false /\ forall key val, ~ assigns key part val)
  \/ (exists k v,
        strings.Contains part "=" = true
        /\ strings.SplitN2 (strings.TrimSpace part) "=" = [k; v]
        /\ forall key val,
             assigns key part val <-> key = k /\ val = strings.Trim v "034").
Proof.
  destruct (strings.Contains part "=") eqn:Hc.
  - right. apply Contains_In in Hc.
    apply (TrimSpace_keeps _ _ equals_not_droppable) in Hc.
    destruct (SplitN2_cut _ _ Hc) as (k & v & Hsplit & Hcut & Hk).
    exists k, v. split; [reflexivity|]. split; [exact Hsplit|].
    intros key val. unfold assigns. split.
    + intros (Hkey & v' & Hpart & ->). rewrite Hcut in Hpart.
      destruct (cut_unique _ _ _ _ _ Hk Hkey Hpart) as [-> ->]. auto.
    + intros [-> ->]. split; [exact Hk|]. eauto.
  - left. split; [reflexivity|]. intros key val (_ & v & Hpart & _).
    assert (Hin : In "="%char part).
    { apply TrimSpace_In. rewrite Hpart. apply in_app_iff. right. now left. }
    apply Contains_In in Hin. congruence.
Qed.

Lemma last_assigns_nil (key val : gostring) : ~ last_assigns key [] val.
Proof. intros (before & part & after & Heq & _). now destruct before. Qed.

Lemma last_assigns_cons (key part : gostring) (parts : list gostring)
    (val : gostring) :
  last_assigns key (part :: parts) val
  <-> last_assigns key parts val
      \/ (assigns key part val
          /\ Forall (fun p => forall val', ~ assigns key p val') parts).
Proof.
  split.
  - intros (before & p & after & Heq & Hp & Hafter).
    destruct before as [|b before]; cbn in Heq; injection Heq as <- ->.
    + right. auto.
    + left. exists before, p, after. auto.
  - intros [(before & p & after & -> & Hp & Hafter)|[Hp Hafter]].
    + exists (part :: before), p, after. auto.
    + exists [], part, parts. auto.
Qed.

Lemma parseAttributes_loop_lookup (parts : list gostring) (i : Z)
    (attrs0 : gmap gostring gostring) :
  exists attrs,
    range_loop parts i
      (fun _ part attrs =>
         if strings.Contains part "=" then
           rbind (index (strings.SplitN2 (strings.TrimSpace part) "=") 0) (fun key =>
           rbind (index (strings.SplitN2 (strings.TrimSpace part) "=") 1) (fun v =>
           Ok (<[key := strings.Trim v "034"]> attrs)))
         else Ok attrs) attrs0
    = Ok attrs
    /\ forall key val,
         attrs !! key = Some val
         <-> last_assigns key parts val
             \/ (attrs0 !! key = Some val
                 /\ Forall (fun p => forall val', ~ assigns key p val') parts).
Proof.
  revert i attrs0. induction parts as [|part parts IH]; intros i attrs0.
  - exists attrs0. split; [reflexivity|]. intros key val. split.
    + intros Hget. right. auto.
    + intros [Hl|[Hget _]]; [now apply last_assigns_nil in Hl | exact Hget].
  - cbn [range_loop].
    destruct (part_cases part) as [[Hc Hno]|(k & v & Hc & Hsplit & Hpart)];
      rewrite Hc.
    + destruct (IH (i + 1) attrs0) as (attrs & Hrun & Hlookup).
      exists attrs. split; [exact Hrun|]. intros key val.
      rewrite Hlookup, last_assigns_cons, Forall_cons. specialize (Hno key).
      split.
      * intros [Hl|[Hget Hall]]; [auto|]. right. auto.
      * intros [[Hl|[Hp _]]|[Hget [_ Hall]]]; [auto| |auto].
        now apply Hno in Hp.
    + rewrite Hsplit. cbn [index at_ rbind]. unfold index. cbn.
      destruct (IH (i + 1) (<[k := strings.Trim v "034"]> attrs0))
        as (attrs & Hrun & Hlookup).
      exists attrs. split; [exact Hrun|]. intros key val.
      rewrite Hlookup, last_assigns_cons, Forall_cons.
      destruct (decide (key = k)) as [->|Hne].
      * rewrite lookup_insert_eq. split.
        -- intros [Hl|[Hget Hall]]; [auto|]. injection Hget as <-.
           left. right. split; [|exact Hall]. now apply Hpart.
        -- intros [[Hl|[Hp Hall]]|[_ [Hnone _]]]; [auto| |].
           ++ right. apply Hpart in Hp. destruct Hp as [_ ->]. auto.
           ++ exfalso. apply (Hnone (strings.Trim v "034")). now apply Hpart.
      * rewrite lookup_insert_ne by congruence. split.
        -- intros [Hl|[Hget Hall]]; [auto|]. right. split; [exact Hget|].
           split; [|exact Hall]. intros val' Hp. apply Hpart in Hp. tauto.
        -- intros [[Hl|[Hp _]]|[Hget [_ Hall]]]; [auto| |auto].
           apply Hpart in Hp. tauto.
Qed.

Lemma parseAttributes_last_assigns (line : gostring) :
  exists attrs,
    parseAttributes line = Ok attrs
    /\ forall key val,
         attrs !! key = Some val
         <-> last_assigns key (strings.Split line ",") val.
Proof.
  unfold parseAttributes.
  destruct (parseAttributes_loop_lookup (strings.Split line ",") 0 ∅)
    as (attrs & Hrun & Hlookup).
  exists attrs. split; [exact Hrun|]. intros key val. rewrite Hlookup.
  split; [|auto]. intros [Hl|[Hget _]]; [exact Hl|].
  now rewrite lookup_empty in Hget.
Qed.

(** X8. [parseAttributes] never fails, and [attrs[key]] is set exactly
    when some comma-separated part of the line reads [key=v] once
    trimmed, [key] being all that stands before its first [=]; the value
    is then the [v] of the last such part, without the double quotes
    around it. *)
Theorem parseAttributes_lookup (line key : gostring) :
  exists attrs,
    parseAttributes line = Ok attrs
    /\ (forall val,
          attrs !! key = Some val
          <-> last_assigns key (strings.Split line ",") val)
    /\ (map_get attrs key <> [] ->
        exists part, In part (strings.Split line ",")
                     /\ assigns key part (map_get attrs key)).
Proof.
  destruct (parseAttributes_last_assigns line) as (attrs & Hrun & Hlookup).
  exists attrs. split; [exact Hrun|]. split; [intros val; apply Hlookup|].
  unfold map_get. destruct (attrs !! key) as [val|] eqn:Hget; [|now intros []].
  intros _. apply Hlookup in Hget.
  destruct Hget as (before & part & after & -> & Hp & _).
  exists part. split; [|exact Hp]. apply in_app_iff. right. now left.
Qed.

Lemma Split_nonempty (s : gostring) (sep : ascii) : strings.Split s sep <> [].
Proof.
  destruct s as [|c s]; [discriminate|]. cbn [strings.Split].
  destruct (beq c sep); [discriminate|].
  destruct (strings.Split s sep); discriminate.
Qed.

Lemma Split_first (a b : gostring) (sep : ascii) :
  ~ In sep a -> strings.Split (a ++ sep :: b) sep = a :: strings.Split b sep.
Proof.
  induction a as [|c a IH]; intros Ha.
  - cbn. now rewrite (proj2 (beq_true sep sep) eq_refl).
  - cbn [app strings.Split].
    destruct (beq c sep) eqn:Hc.
    + apply beq_true in Hc. subst c. exfalso. apply Ha. now left.
    + rewrite IH; [reflexivity|]. intros Hin. apply Ha. now right.
Qed.

Lemma Split_single (a : gostring) (sep : ascii) :
  ~ In sep a -> strings.Split a sep = [a].
Proof.
  induction a as [|c a IH]; intros Ha; [reflexivity|].
  cbn [strings.Split].
  destruct (beq c sep) eqn:Hc.
  - apply beq_true in Hc. subst c. exfalso. apply Ha. now left.
  - rewrite IH; [reflexivity|]. intros Hin. apply Ha. now right.
Qed.

Lemma HasPrefix_hash (s : gostring) :
  strings.HasPrefix s (str "#") = true <-> exists t, s = "#"%char :: t.
Proof.
  destruct s as [|c s].
  - split; [discriminate | intros [t Ht]; discriminate].
  - change (strings.HasPrefix (c :: s) (str "#"))
      with (beq "#"%char c && strings.HasPrefix s []).
    destruct s; cbn [strings.HasPrefix]; rewrite andb_true_r, beq_true; (split;
      [intros <-; eauto | intros [t Ht]; now injection Ht as <- _]).
Qed.

Lemma hash_not_droppable : ~ droppable "#"%char.
Proof.
  unfold droppable. intros [Hs|Hh]; [discriminate|].
  change (byteZ "#") with 35 in Hh. lia.
Qed.

Lemma TrimSpace_hash (t : gostring) :
  exists t', strings.TrimSpace ("#"%char :: t) = "#"%char :: t'.
Proof.
  destruct (TrimSpace_split ("#"%char :: t)) as (pre & post & Hs & Hpre & Hpost).
  destruct pre as [|p pre].
  - destruct (strings.TrimSpace ("#"%char :: t)) as [|c T].
    + cbn in Hs. subst post. apply Forall_cons in Hpost.
      now destruct (hash_not_droppable (proj1 Hpost)).
    + cbn in Hs. injection Hs as <- _. eauto.
  - cbn in Hs. injection Hs as <- _. apply Forall_cons in Hpre.
    now destruct (hash_not_droppable (proj1 Hpre)).
Qed.

Lemma tag_assigns_nothing (first key val : gostring) :
  strings.HasPrefix first (str "#") = true ->
  strings.HasPrefix key (str "#") = false ->
  ~ assigns key first val.
Proof.
  intros Hfirst Hkey (_ & v & Hpart & _).
  apply HasPrefix_hash in Hfirst. destruct Hfirst as [t ->].
  destruct (TrimSpace_hash t) as [t' Ht]. rewrite Ht in Hpart.
  destruct key as [|c key]; cbn in Hpart; [discriminate|].
  injection Hpart as <- _.
  assert (Hp : strings.HasPrefix ("#"%char :: key) (str "#") = true)
    by (apply HasPrefix_hash; eauto).
  congruence.
Qed.

Lemma option_ext {A} (o1 o2 : option A) :
  (forall a, o1 = Some a <-> o2 = Some a) -> o1 = o2.
Proof.
  intros Hiff. destruct o1 as [a|].
  - symmetry. now apply Hiff.
  - destruct o2 as [b|]; [|reflexivity]. now apply Hiff.
Qed.

(** X9. What stands before the first comma of a tag line, the tag with
    its first attribute, is not found under the name of the attribute:
    the key stored for it starts with [#]. A name that does not start
    with [#] is looked up in the rest of the line alone, and in a tag
    line without a comma it is not found at all. *)
Theorem parseAttributes_first_attribute (first rest key : gostring) :
  strings.HasPrefix first (str "#") = true ->
  strings.Contains first "," = false ->
  strings.HasPrefix key (str "#") = false ->
  (exists attrs, parseAttributes first = Ok attrs /\ map_get attrs key = [])
  /\ (exists attrs attrs',
        parseAttributes (first ++ ","%char :: rest) = Ok attrs
        /\ parseAttributes rest = Ok attrs'
        /\ map_get attrs key = map_get attrs' key).
Proof.
  intros Hfirst Hcomma Hkey.
  assert (Hno : ~ In ","%char first).
  { intros Hin. apply Contains_In in Hin. congruence. }
  pose proof (fun val => tag_assigns_nothing first key val Hfirst Hkey) as Htag.
  split.
  - destruct (parseAttributes_last_assigns first) as (attrs & Hrun & Hlookup).
    exists attrs. split; [exact Hrun|]. unfold map_get.
    destruct (attrs !! key) as [val|] eqn:Hget; [|reflexivity].
    apply Hlookup in Hget. rewrite (Split_single _ _ Hno) in Hget.
    apply last_assigns_cons in Hget.
    destruct Hget as [Hl|[Hp _]]; [now apply last_assigns_nil in Hl|].
    now apply Htag in Hp.
  - destruct (parseAttributes_last_assigns (first ++ ","%char :: rest))
      as (attrs & Hrun & Hlookup).
    destruct (parseAttributes_last_assigns rest) as (attrs' & Hrun' & Hlookup').
    exists attrs, attrs'. split; [exact Hrun|]. split; [exact Hrun'|].
    unfold map_get. f_equal. apply option_ext. intros val.
    rewrite Hlookup, Hlookup', (Split_first _ _ _ Hno), last_assigns_cons.
    split; [|auto]. intros [Hl|[Hp _]]; [exact Hl|]. now apply Htag in Hp.
Qed.

Lemma parseAttributes_first_attribute_witness :
  (exists attrs,
     parseAttributes (str "#EXT-X-STREAM-INF:BANDWIDTH=1280000") = Ok attrs
     /\ map_get attrs (str "BANDWIDTH") = [])
  /\ (exists attrs attrs',
        parseAttributes (str "#EXT-X-STREAM-INF:BANDWIDTH=1280000"
                         ++ ","%char :: str "RESOLUTION=720x480") = Ok attrs
        /\ parseAttributes (str "RESOLUTION=720x480") = Ok attrs'
        /\ map_get attrs (str "BANDWIDTH") = map_get attrs' (str "BANDWIDTH")).
Proof.
  apply (parseAttributes_first_attribute
           (str "#EXT-X-STREAM-INF:BANDWIDTH=1280000")
           (str "RESOLUTION=720x480") (str "BANDWIDTH")); reflexivity.
Defined.

(** ** What a run may do to the world *)

Lemma HasPrefix_app (p s : gostring) : strings.HasPrefix (p ++ s) p = true.
Proof.
  induction p as [|c p IH]; [now destruct s|].
  cbn. rewrite IH. now rewrite (proj2 (beq_true c c) eq_refl).
Qed.

Lemma effects_nothing {A} (m : M A) :
  (forall h, snd (m h) = h) -> effects m 0 0.
Proof.
  intros Hm h. exists []. rewrite app_nil_r. split; [apply Hm|].
  cbn. repeat split; try lia. constructor.
Qed.

Lemma effects_one {A} (m : M A) (e : event) :
  (forall h, snd (m h) = h \/ snd (m h) = h ++ [e]) -> permitted e ->
  effects m (if is_request e then 1 else 0) (if is_request e then 0 else 1).
Proof.
  intros Hm He h. destruct (Hm h) as [Hh|Hh].
  - exists []. rewrite app_nil_r. split; [exact Hh|].
    cbn. repeat split; try lia. constructor.
  - exists [e]. split; [exact Hh|]. cbn [List.filter].
    destruct (is_request e); cbn; repeat split; try lia; now repeat constructor.
Qed.

Lemma effects_weaken {A} (m : M A) (r o r' o' : nat) :
  effects m r o -> (r <= r')%nat -> (o <= o')%nat -> effects m r' o'.
Proof.
  intros Hm Hr Ho h. destruct (Hm h) as (evs & Hh & Hreq & Hlen & Hall).
  exists evs. repeat split; try assumption; lia.
Qed.

Lemma effects_bind {A B} (m : M A) (k : A -> M B) (r1 o1 r2 o2 : nat) :
  effects m r1 o1 -> (forall a, effects (k a) r2 o2) ->
  effects (bind m k) (r1 + r2) (o1 + o2).
Proof.
  intros Hm Hk h. unfold bind.
  destruct (Hm h) as (evs & Hh & Hreq & Hlen & Hall).
  destruct (m h) as [[a|e|] h1]; cbn [snd] in Hh; subst h1.
  - destruct (Hk a (h ++ evs)) as (evs' & Hh' & Hreq' & Hlen' & Hall').
    exists (evs ++ evs'). rewrite Hh', <- app_assoc.
    split; [reflexivity|]. rewrite !List.filter_app, !length_app.
    repeat split; try lia. now apply Forall_app.
  - exists evs. repeat split; try assumption; cbn [snd]; lia.
  - exists evs. repeat split; try assumption; cbn [snd]; lia.
Qed.

Lemma effects_attempt {A} (m : M A) (r o : nat) :
  effects m r o -> effects (attempt m) r o.
Proof.
  intros Hm h. unfold attempt. destruct (Hm h) as (evs & Hh & Hrest).
  exists evs. split; [|exact Hrest]. now destruct (m h) as [[a|e|] h1].
Qed.

Section Effects.
Context `{Env}.

Lemma effects_fetchContent (url referer : gostring) :
  referer = [] \/ (referer = cloudnestra /\ exists path, url = cloudnestra ++ path) ->
  effects (fetchContent url referer) 1 0.
Proof.
  intros Href.
  apply (effects_one (fetchContent url referer) (EvDo (request_of url referer))).
  - intros h.
    destruct (fetchContent_events url referer h) as [(_ & Hh & _)|(_ & Hh)]; auto.
  - unfold permitted, request_of. cbn [reqReferer reqURL].
    destruct Href as [->|(-> & path & ->)]; [exact I|].
    change (seq_dec cloudnestra []) with false. cbv iota.
    split; [reflexivity | apply HasPrefix_app].
Qed.

Lemma effects_client_Get (url : gostring) : effects (client_Get url) 1 0.
Proof.
  apply (effects_one (client_Get url)
           (EvDo {| reqURL := url; reqReferer := None |})); [|exact I].
  intros h. unfold client_Get. destruct (http_NewRequest url); [now left|].
  now right.
Qed.

Lemma effects_saveScript (doc : html.Node) : effects (saveScript doc) 1 2.
Proof.
  unfold saveScript.
  destruct (0 <? len (goquery.Find doc script_sel));
    [|apply (effects_weaken _ 0 0); [now apply effects_nothing | lia | lia]].
  destruct (goquery.Attr_ _ _) as [src|];
    [|apply (effects_weaken _ 0 0); [now apply effects_nothing | lia | lia]].
  apply (effects_bind _ _ 1 0 0 2).
  { apply effects_attempt, effects_fetchContent. right. eauto. }
  intros [jsContent|err];
    [|apply (effects_weaken _ 0 0); [now apply effects_nothing | lia | lia]].
  apply (effects_bind _ _ 0 1 0 1).
  { apply (effects_one (MkdirAll (str "scripts")) (EvMkdirAll (str "scripts")));
      [intros h; now right | reflexivity]. }
  intros [err|];
    [apply (effects_weaken _ 0 0); [now apply effects_nothing | lia | lia]|].
  apply (effects_bind _ _ 0 1 0 0).
  { apply (effects_one (WriteFile (str "scripts/prorcp.js") jsContent)
             (EvWriteFile (str "scripts/prorcp.js") jsContent));
      [intros h; now right | reflexivity]. }
  intros _. now apply effects_nothing.
Qed.

Lemma effects_decodeStreamURL (proRCPHTML : gostring) :
  effects (decodeStreamURL proRCPHTML) 1 2.
Proof.
  unfold decodeStreamURL. destruct (NewDocumentFromReader proRCPHTML) as [doc|err];
    [|apply (effects_weaken _ 0 0); [now apply effects_nothing | lia | lia]].
  apply (effects_bind _ _ 1 2 0 0); [apply effects_saveScript|]. intros _.
  apply (effects_bind _ _ 0 0 0 0); [now apply effects_nothing|]. intros divContent.
  now apply effects_nothing.
Qed.

Lemma effects_ResolveVariants (o : ResolveOptions) :
  effects (ResolveVariants o) 4 2.
Proof.
  unfold ResolveVariants.
  apply (effects_bind _ _ 0 0 4 2); [now apply effects_nothing|]. intros embedURL.
  apply (effects_bind _ _ 1 0 3 2); [apply effects_fetchContent; now left|].
  intros embedHTML.
  apply (effects_bind _ _ 0 0 3 2); [now apply effects_nothing|]. intros rcpURL.
  apply (effects_bind _ _ 1 0 2 2); [apply effects_fetchContent; now left|].
  intros rcpHTML.
  apply (effects_bind _ _ 0 0 2 2); [now apply effects_nothing|]. intros proRCPURL.
  apply (effects_bind _ _ 1 0 1 2); [apply effects_fetchContent; right; eauto|].
  intros proRCPHTML.
  apply (effects_bind _ _ 1 2 0 0); [apply effects_decodeStreamURL|].
  intros hlsURL. now apply effects_nothing.
Qed.

(** X10. Whatever the options and the answers of the world,
    [ResolveStreams] only adds to the history, and what it adds is at
    most five requests and at most two steps on the file system, which
    can only be the creation of the directory [scripts] and the writing
    of the file [scripts/prorcp.js]; a request that carries a [Referer]
    header carries [https://cloudnestra.com] and goes to a URL that
    starts with it. *)
Theorem ResolveStreams_effects (o : ResolveOptions) (h : list event) :
  exists evs,
    snd (ResolveStreams o h) = h ++ evs
    /\ (length (List.filter is_request evs) <= 5)%nat
    /\ (length (List.filter (fun e => negb (is_request e)) evs) <= 2)%nat
    /\ Forall permitted evs.
Proof.
  assert (Hrun : effects (ResolveStreams o) 5 2).
  { unfold ResolveStreams.
    apply (effects_bind _ _ 4 2 1 0); [apply effects_ResolveVariants|].
    intros masterURL.
    apply (effects_bind _ _ 1 0 0 0); [apply effects_client_Get|].
    intros [resp|err]; [|now apply effects_nothing].
    destruct (negb (StatusCode resp =? StatusOK)); [now apply effects_nothing|].
    destruct (Body resp); now apply effects_nothing. }
  exact (Hrun h).
Qed.

End Effects.

(** ** Tokens that [Deobfuscate] rejects *)

Lemma alien_ascii (c : ascii) : alien c = false -> byteZ c < 0x80.
Proof.
  destruct c as [[] [] [] [] [] [] [] []]; vm_compute; congruence.
Qed.

Lemma drop_newlines_alien (s : gostring) :
  Exists (fun c => alien c = true) s ->
  Exists (fun c => alien c = true) (drop (base64.newlines s) s).
Proof.
  induction s as [|c s IH]; intros Hs; [exact Hs|].
  cbn [base64.newlines]. destruct (base64.isNewline c) eqn:Hn; [|exact Hs].
  cbn [drop]. apply IH. apply Exists_cons in Hs. destruct Hs as [Hc|Hs]; [|exact Hs].
  unfold alien in Hc. rewrite Hn in Hc. destruct (base64.decodeMap c); discriminate.
Qed.

Lemma padding_alien (j : nat) (val si : Z) (rest : gostring) :
  Exists (fun c => alien c = true) rest ->
  exists e, base64.padding j val si rest = inr e.
Proof.
  intros Hrest. unfold base64.padding.
  assert (Hend : forall si' rest',
            Exists (fun c => alien c = true) rest' ->
            exists e,
              match drop (base64.newlines rest') rest' with
              | [] => inl (base64.quantum j (Z.shiftl val (6 * Z.of_nat (4 - j))))
              | _ :: _ => inr (base64.Corrupt (si' + Z.of_nat (base64.newlines rest')))
              end = @inr gostring _ e).
  { intros si' rest' Hr. apply drop_newlines_alien in Hr.
    destruct (drop _ rest'); [now apply Exists_nil in Hr | eauto]. }
  destruct j as [|[|[|j]]]; try (apply Hend; exact Hrest).
  apply drop_newlines_alien in Hrest.
  destruct (drop (base64.newlines rest) rest) as [|c rest'];
    [now apply Exists_nil in Hrest|].
  destruct (beq c base64.padChar) eqn:Hc; [|eauto].
  apply Hend. apply Exists_cons in Hrest. destruct Hrest as [Ha|Hr]; [|exact Hr].
  unfold alien in Ha. rewrite Hc in Ha.
  destruct (base64.decodeMap c); [discriminate|].
  now rewrite andb_false_r in Ha.
Qed.

Lemma decode_alien (src : gostring) (si : Z) (j : nat) (val : Z) :
  Exists (fun c => alien c = true) src ->
  exists e, base64.decode src si j val = inr e.
Proof.
  revert si j val. induction src as [|c rest IH]; intros si j val Hsrc;
    [now apply Exists_nil in Hsrc|].
  apply Exists_cons in Hsrc. cbn [base64.decode].
  destruct (base64.decodeMap c) as [out|] eqn:Hmap.
  - destruct Hsrc as [Hc|Hrest];
      [unfold alien in Hc; rewrite Hmap in Hc; discriminate|].
    destruct j as [|[|[|[|j]]]]; try (apply IH; exact Hrest).
    destruct (IH (si + 1) 0%nat 0 Hrest) as [e ->]. eauto.
  - destruct (base64.isNewline c) eqn:Hn.
    + destruct Hsrc as [Hc|Hrest];
        [unfold alien in Hc; rewrite Hmap, Hn in Hc; discriminate|].
      apply IH. exact Hrest.
    + destruct (beq c base64.padChar) eqn:Hp; cbn [negb]; [|eauto].
      destruct Hsrc as [Hc|Hrest].
      { unfold alien in Hc. rewrite Hmap, Hn, Hp in Hc. discriminate. }
      destruct j as [|[|j]]; [eauto|eauto|]. now apply padding_alien.
Qed.

Lemma runes_of_string_ascii (s : gostring) :
  isASCII s -> runes_of_string s = map byteZ s.
Proof.
  intros Hs. rewrite <- (string_of_runes_ascii s Hs) at 1.
  rewrite runes_of_string_of_runes. now apply sanitize_ascii.
Qed.

Lemma sanitize_small (r : Z) : sanitize r < 0x80 -> sanitize r = r.
Proof.
  unfold sanitize. destruct (valid r); [reflexivity|].
  unfold utf8.RuneError. lia.
Qed.

Lemma string_of_runes_alien (rs : list Z) (r : Z) :
  In r rs -> base64_rune r = false ->
  Exists (fun c => alien c = true) (string_of_runes rs).
Proof.
  intros Hin Hr.
  destruct (Exists_dec (fun c => alien c = true) (string_of_runes rs))
    as [Hex|Hno]; [exact Hex|]. exfalso.
  apply not_Exists_Forall in Hno; [|intros c; apply _].
  assert (Hok : Forall (fun c => alien c = false) (string_of_runes rs)).
  { eapply Forall_impl; [exact Hno|]. intros c Hc. cbn in Hc.
    now destruct (alien c). }
  assert (Hascii : isASCII (string_of_runes rs)).
  { eapply Forall_impl; [exact Hok|]. intros c. apply alien_ascii. }
  pose proof (runes_of_string_of_runes rs) as Hrunes.
  rewrite (runes_of_string_ascii _ Hascii) in Hrunes.
  assert (Hs : In (sanitize r) (map byteZ (string_of_runes rs))).
  { rewrite Hrunes. now apply in_map. }
  apply in_map_iff in Hs. destruct Hs as (c & Hc & Hcin).
  rewrite List.Forall_forall in Hok. specialize (Hok c Hcin).
  pose proof (alien_ascii c Hok) as Hsmall. pose proof (byteZ_range c) as Hrange.
  assert (Hrc : r = byteZ c).
  { rewrite <- (sanitize_small r); [now symmetry | rewrite <- Hc; exact Hsmall]. }
  unfold base64_rune in Hr. rewrite Hrc, byte_of_byteZ, Hok in Hr.
  destruct (Z.leb_spec 0 (byteZ c)); [|lia].
  destruct (Z.leb_spec (byteZ c) 0x7F); [discriminate|lia].
Qed.

(** X11. [Deobfuscate] does not skip what it cannot read: a token in
    which a character at an even distance from its end (the last one,
    the third last, ...) is not a character of the Base64 alphabet, [=]
    or a line break is rejected with the Base64 decoding error. *)
Theorem Deobfuscate_rejects (obfCode : gostring) (k : nat) (r : rune) :
  reverse (runes_of_string obfCode) !! (2 * k)%nat = Some r ->
  base64_rune r = false ->
  exists e, Deobfuscate obfCode = Err (ErrDecodingBase64 (CorruptInput e)).
Proof.
  intros Hk Hr. rewrite Deobfuscate_unfold.
  rewrite <- evens_lookup in Hk.
  apply list_elem_of_lookup_2, list_elem_of_In in Hk.
  pose proof (string_of_runes_alien _ r Hk Hr) as Halien.
  destruct (decode_alien _ 0 0%nat 0 Halien) as [e He].
  unfold base64.DecodeString. rewrite He. eauto.
Qed.

Lemma Deobfuscate_rejects_witness :
  exists e,
    Deobfuscate (str "=x8xGx-xsxVxGxa") = Err (ErrDecodingBase64 (CorruptInput e)).
Proof.
  apply (Deobfuscate_rejects (str "=x8xGx-xsxVxGxa") 4 45); reflexivity.
Defined.

(** ** The decoded URL is never empty *)

(** Once a sextet has been read, a successful decoding has output. *)
Lemma quantum_nonempty (j : nat) (val : Z) :
  (2 <= j)%nat -> base64.quantum j val <> [].
Proof.
  intros Hj. unfold base64.quantum.
  destruct j as [|[|j]]; [lia|lia|]. discriminate.
Qed.

Lemma padding_nonempty (j : nat) (val si : Z) (rest out : gostring) :
  (2 <= j)%nat -> base64.padding j val si rest = inl out -> out <> [].
Proof.
  intros Hj. unfold base64.padding.
  destruct (match j with
            | 2%nat => _
            | _ => _
            end) as [[si' rest']|e]; [|discriminate].
  destruct (drop _ rest'); [|discriminate].
  intros Heq. injection Heq as <-. now apply quantum_nonempty.
Qed.

Lemma decode_nonempty (src : gostring) (si : Z) (j : nat) (val : Z)
    (out : gostring) :
  (1 <= j)%nat -> base64.decode src si j val = inl out -> out <> [].
Proof.
  revert si j val out. induction src as [|c rest IH]; intros si j val out Hj.
  - cbn. destruct j; [lia | discriminate].
  - cbn [base64.decode]. destruct (base64.decodeMap c) as [x|].
    + destruct j as [|[|[|[|j]]]]; try lia; try (apply IH; lia).
      destruct (base64.decode rest (si + 1) 0 0); [|discriminate].
      intros Heq. injection Heq as <-. discriminate.
    + destruct (base64.isNewline c); [apply IH; lia|].
      destruct (negb (beq c base64.padChar)); [discriminate|].
      destruct j as [|[|j]]; [discriminate|discriminate|].
      apply padding_nonempty. lia.
Qed.

Lemma decode_first (c : ascii) (rest out : gostring) :
  base64.decode (c :: rest) 0 0 0 = inl out -> base64.isNewline c = false ->
  out <> [].
Proof.
  cbn [base64.decode]. intros Hd Hn. rewrite Hn in Hd.
  destruct (base64.decodeMap c) as [x|].
  - now apply decode_nonempty in Hd.
  - destruct (negb (beq c base64.padChar)); discriminate.
Qed.

Lemma first_Lead_cases (s0 : ascii) (sz : nat) (lo hi : Z) :
  utf8.first s0 = utf8.Lead sz lo hi ->
  (sz = 2%nat /\ 0xC2 <= byteZ s0 < 0xE0)
  \/ (sz = 3%nat /\ 0xE0 <= byteZ s0 < 0xF0 /\ hi <= 0xBF
      /\ (byteZ s0 = 0xE0 -> lo = 0xA0))
  \/ (sz = 4%nat /\ 0xF0 <= byteZ s0 <= 0xF4 /\ hi <= 0xBF
      /\ (byteZ s0 = 0xF0 -> lo = 0x90)).
Proof.
  unfold utf8.first, utf8.locb, utf8.hicb.
  repeat match goal with
         | |- context [if ?b then _ else _] => destruct b eqn:?
         end; intros Heq; try discriminate; injection Heq as <- <- <-;
    repeat match goal with
           | H : (_ <? _) = false |- _ => apply Z.ltb_ge in H
           | H : (_ <? _) = true |- _ => apply Z.ltb_lt in H
           | H : (_ =? _) = false |- _ => apply Z.eqb_neq in H
           | H : (_ =? _) = true |- _ => apply Z.eqb_eq in H
           end; [left|right;left|right;left|right;left|right;left|right;right|right;right|right;right]; lia.
Qed.

(** A rune below [RuneSelf] is decoded from one byte, itself. *)
Lemma DecodeRune_small (s : gostring) (r : Z) (size : nat) :
  utf8.DecodeRuneInString s = (r, size) -> r < 0x80 ->
  exists s0 t, s = s0 :: t /\ r = byteZ s0 /\ size = 1%nat.
Proof.
  assert (Herr : forall r' size',
            (utf8.RuneError, 1%nat) = (r', size') -> r' < 0x80 ->
            exists s0 t, s = s0 :: t /\ r' = byteZ s0 /\ size' = 1%nat).
  { intros r' size' Heq. injection Heq as <- <-. unfold utf8.RuneError. lia. }
  unfold utf8.DecodeRuneInString. destruct s as [|s0 t].
  { intros Heq. injection Heq as <- <-. unfold utf8.RuneError. lia. }
  destruct (utf8.first s0) as [| |sz lo hi] eqn:Hfirst.
  - intros Heq _. injection Heq as <- <-. eauto.
  - apply Herr.
  - apply first_Lead_cases in Hfirst.
    destruct (length (s0 :: t) <? sz)%nat; [apply Herr|].
    destruct t as [|s1 t1]; [apply Herr|].
    destruct (between lo hi s1) eqn:Hb1; cbn [negb]; [|apply Herr].
    apply between_bounds in Hb1. pose proof (byteZ_range s1) as Hr1.
    destruct (sz <=? 2)%nat eqn:Hsz2.
    { apply Nat.leb_le in Hsz2. intros Heq Hsmall. injection Heq as <- <-.
      exfalso. destruct Hfirst as [[_ H0]|[[? _]|[? _]]]; try lia.
      revert Hsmall. unfold utf8.mask2, utf8.maskx.
      rewrite land_1F, land_3F, shiftl_mul by lia.
      rewrite (lor_add _ _ 6); [| lia | dm | dm]. dm. }
    apply Nat.leb_gt in Hsz2.
    destruct t1 as [|s2 t2]; [apply Herr|].
    destruct (between utf8.locb utf8.hicb s2) eqn:Hb2; cbn [negb]; [|apply Herr].
    pose proof (byteZ_range s2) as Hr2.
    destruct (sz <=? 3)%nat eqn:Hsz3.
    { apply Nat.leb_le in Hsz3. intros Heq Hsmall. injection Heq as <- <-.
      exfalso. destruct Hfirst as [[? _]|[(_ & H0 & Hlo & HE0)|[? _]]]; try lia.
      revert Hsmall. unfold utf8.mask3, utf8.maskx.
      rewrite land_0F, !land_3F, !shiftl_mul by lia.
      rewrite (lor_add (byteZ s0 mod 16 * 2 ^ 12) _ 12); [| lia | dm | dm].
      rewrite (lor_add _ _ 6); [| lia | dm | dm].
      destruct (Z.eq_dec (byteZ s0) 0xE0) as [He|He]; [specialize (HE0 He)|]; dm. }
    apply Nat.leb_gt in Hsz3.
    destruct t2 as [|s3 t3]; [apply Herr|].
    destruct (between utf8.locb utf8.hicb s3) eqn:Hb3; cbn [negb]; [|apply Herr].
    pose proof (byteZ_range s3) as Hr3.
    intros Heq Hsmall. injection Heq as <- <-.
    exfalso. destruct Hfirst as [[? _]|[[? _]|(_ & H0 & Hlo & HF0)]]; try lia.
    revert Hsmall. unfold utf8.mask4, utf8.maskx.
    rewrite land_07, !land_3F, !shiftl_mul by lia.
    rewrite (lor_add (byteZ s0 mod 8 * 2 ^ 18) _ 18); [| lia | dm | dm].
    rewrite (lor_add (_ + _) (byteZ s2 mod 64 * 2 ^ 6) 12); [| lia | dm | dm].
    rewrite (lor_add _ _ 6); [| lia | dm | dm].
    destruct (Z.eq_dec (byteZ s0) 0xF0) as [He|He]; [specialize (HF0 He)|]; dm.
Qed.

Lemma runes_loop_nil (fuel : nat) (s : gostring) :
  runes_loop (S fuel) s = [] -> s = [].
Proof.
  destruct s as [|c t]; [reflexivity|]. cbn [runes_loop].
  destruct (utf8.DecodeRuneInString (c :: t)). discriminate.
Qed.

(** The last rune of a string, when below [RuneSelf], is its last byte. *)
Lemma runes_loop_last (fuel : nat) (s : gostring) (rs : list Z) (r : Z) :
  (length s <= fuel)%nat -> runes_loop fuel s = rs ++ [r] -> r < 0x80 ->
  exists u c, s = u ++ [c] /\ r = byteZ c.
Proof.
  revert s rs. induction fuel as [|fuel IH]; intros s rs Hfuel Hrun Hr.
  { cbn in Hrun. now destruct rs. }
  destruct s as [|s0 t]; [cbn in Hrun; now destruct rs|].
  cbn [runes_loop] in Hrun.
  destruct (utf8.DecodeRuneInString (s0 :: t)) as [r0 size] eqn:Hd.
  destruct (DecodeRune_consumed _ _ _ Hd) as (Hle & H1 & _).
  specialize (H1 ltac:(discriminate)).
  assert (Hdrop : (length (drop size (s0 :: t)) <= fuel)%nat).
  { rewrite length_drop. cbn [length] in *. lia. }
  destruct rs as [|r1 rs]; cbn [app] in Hrun; injection Hrun as -> Hrest.
  - destruct (DecodeRune_small _ _ _ Hd Hr) as (c & t' & Hs & -> & ->).
    injection Hs as <- <-. cbn [drop] in Hrest, Hdrop.
    rewrite drop_0 in Hrest, Hdrop.
    destruct fuel as [|fuel].
    + destruct t; [|cbn in Hdrop; lia]. exists [], s0. auto.
    + apply runes_loop_nil in Hrest. subst t. exists [], s0. auto.
  - destruct (IH _ _ Hdrop Hrest Hr) as (u & c & Hu & ->).
    exists (take size (s0 :: t) ++ u), c. split; [|reflexivity].
    rewrite <- app_assoc, <- Hu. now rewrite take_drop.
Qed.

Lemma asciiSpace_IsSpace (c : ascii) :
  strings.asciiSpace c = true -> unicode.IsSpace (byteZ c) = true.
Proof.
  destruct c as [[] [] [] [] [] [] [] []]; vm_compute; congruence.
Qed.

Lemma lastIndexFunc_found (fuel : nat) (f : rune -> bool) (s : gostring) (i : Z) :
  strings.lastIndexFunc_loop fuel f s i = -1
  \/ exists i' r size,
       0 < i' <= i
       /\ utf8.DecodeLastRuneInString (take (Z.to_nat i') s) = (r, size)
       /\ f r = false
       /\ strings.lastIndexFunc_loop fuel f s i = i' - Z.of_nat size.
Proof.
  revert i. induction fuel as [|fuel IH]; intros i; [now left|].
  cbn [strings.lastIndexFunc_loop].
  destruct (Z.ltb_spec 0 i) as [Hpos|Hzero]; [|now left].
  destruct (utf8.DecodeLastRuneInString (take (Z.to_nat i) s)) as [r size] eqn:Hd.
  destruct (f r) eqn:Hf.
  - destruct (IH (i - Z.of_nat size)) as [Hidx|(i' & r' & size' & Hi' & Hd' & Hf' & Hidx)].
    + now left.
    + right. exists i', r', size'. repeat split; try assumption; lia.
  - right. exists i, r, size. repeat split; try assumption; lia.
Qed.

(** When the rune that [DecodeLastRuneInString] finds starts at an
    ASCII byte, it is that byte. *)
Lemma DecodeLastRune_start_ascii (t : gostring) (r : Z) (size : nat) (b : ascii) :
  utf8.DecodeLastRuneInString t = (r, size) ->
  t !! (length t - size)%nat = Some b -> byteZ b < 0x80 -> r = byteZ b.
Proof.
  intros Hd Hb Hsmall.
  destruct t as [|x t'] using rev_ind; [discriminate|]. clear IHt'.
  unfold utf8.DecodeLastRuneInString in Hd. rewrite at_last in Hd.
  assert (Hlen : length (t' ++ [x]) = S (length t'))
    by (rewrite length_app; cbn; lia).
  rewrite Hlen in Hb.
  destruct (Z.ltb_spec (byteZ x) utf8.RuneSelf) as [Hx|Hx].
  - injection Hd as <- <-.
    replace (S (length t') - 1)%nat with (length t') in Hb by lia.
    rewrite list_lookup_middle in Hb by reflexivity. congruence.
  - set (e := len (t' ++ [x])) in *.
    set (start := Z.max (utf8.scan_start 4 (t' ++ [x]) (Z.max (e - 4) 0) (e - 1 - 1)) 0) in *.
    assert (He : e = Z.of_nat (S (length t'))) by (unfold e, len; now rewrite Hlen).
    assert (Hstart : 0 <= start < e).
    { unfold start.
      pose proof (scan_start_le 4 (t' ++ [x]) (Z.max (e - 4) 0) (e - 1 - 1)). lia. }
    destruct (utf8.DecodeRuneInString (drop (Z.to_nat start) (t' ++ [x])))
      as [r' size'] eqn:Hdec.
    destruct (Z.eqb_spec (start + Z.of_nat size') e) as [Heq|Hneq].
    + injection Hd as <- <-.
      replace (S (length t') - size')%nat with (Z.to_nat start) in Hb by lia.
      destruct (drop (Z.to_nat start) (t' ++ [x])) as [|b' rest] eqn:Hdrop.
      { apply (f_equal length) in Hdrop. rewrite length_drop, Hlen in Hdrop.
        cbn in Hdrop. lia. }
      assert (Hb' : (t' ++ [x]) !! (Z.to_nat start + 0)%nat = Some b').
      { rewrite <- lookup_drop, Hdrop. reflexivity. }
      rewrite Nat.add_0_r in Hb'. rewrite Hb in Hb'. injection Hb' as <-.
      rewrite Decode1 in Hdec by exact Hsmall. now injection Hdec as <- _.
    + injection Hd as <- <-.
      replace (S (length t') - 1)%nat with (length t') in Hb by lia.
      rewrite list_lookup_middle in Hb by reflexivity.
      injection Hb as <-. unfold utf8.RuneSelf in Hx. lia.
Qed.

(** What [TrimRightFunc] leaves does not end with an ASCII white space. *)
Lemma TrimRightFunc_last (s : gostring) (c : ascii) :
  last (strings.TrimRightFunc s unicode.IsSpace) = Some c ->
  strings.asciiSpace c = false.
Proof.
  unfold strings.TrimRightFunc.
  destruct (lastIndexFunc_found (S (length s)) unicode.IsSpace s (len s))
    as [Hidx|(i' & r & size & Hi' & Hd & Hf & Hidx)]; rewrite Hidx.
  { cbn. discriminate. }
  remember (Z.to_nat i') as n eqn:Hndef.
  assert (Hn : (0 < n <= length s)%nat) by (unfold len in Hi'; lia).
  assert (Hne : take n s <> []).
  { intros Hnil. apply (f_equal length) in Hnil.
    rewrite length_take in Hnil. cbn in Hnil. lia. }
  destruct (DecodeLastRune_consumed _ _ _ Hd Hne) as (Hsize & _).
  rewrite length_take in Hsize.
  replace (n `min` length s)%nat with n in Hsize by lia.
  replace (i' - Z.of_nat size) with (Z.of_nat (n - size)) by lia.
  rewrite at_nat.
  destruct (lookup_lt_is_Some_2 s (n - size)%nat ltac:(lia)) as [b Hb].
  rewrite Hb. rewrite Nat2Z.id.
  destruct (Z.leb_spec utf8.RuneSelf (byteZ b)) as [Hhigh|Hlow].
  - destruct (utf8.DecodeRuneInString (drop (n - size) s)) as [r2 size2] eqn:Hd2.
    cbn [snd].
    assert (Hne2 : drop (n - size) s <> []).
    { intros Hnil. apply (f_equal length) in Hnil.
      rewrite length_drop in Hnil. cbn in Hnil. lia. }
    destruct (DecodeRune_consumed _ _ _ Hd2) as (Hle2 & H1 & H2 & _).
    specialize (H1 Hne2).
    replace (Z.to_nat (Z.of_nat (n - size) + Z.of_nat size2))
      with ((n - size) + size2)%nat by lia.
    rewrite <- take_take_drop. intros Hlast.
    assert (Hall : Forall (fun x => 0x80 <= byteZ x) (take size2 (drop (n - size) s))).
    { destruct (decide (2 <= size2)%nat) as [Hs2|Hs2]; [now apply H2|].
      replace size2 with 1%nat by lia.
      rewrite (take_S_r _ 0 b); [|now rewrite lookup_drop, Nat.add_0_r].
      cbn. repeat constructor. unfold utf8.RuneSelf in Hhigh. lia. }
    apply last_app_Some in Hlast. destruct Hlast as [Hlast|[Hnone _]].
    + apply last_Some in Hlast. destruct Hlast as [l' Hl'].
      rewrite Hl' in Hall. apply Forall_app in Hall. destruct Hall as [_ Hc].
      apply Forall_cons in Hc. destruct Hc as [Hc _].
      destruct (strings.asciiSpace c) eqn:Hsp; [|reflexivity].
      apply asciiSpace_ascii in Hsp. lia.
    + exfalso. destruct (take size2 (drop (n - size) s)) as [|y l] eqn:Ht.
      * apply (f_equal length) in Ht. rewrite length_take in Ht. cbn in Ht. lia.
      * apply (f_equal length) in Ht.
        assert (Hsome : is_Some (last (y :: l))).
        { rewrite last_lookup. apply lookup_lt_is_Some_2. cbn. lia. }
        rewrite Hnone in Hsome. now destruct Hsome.
  - replace (Z.to_nat (Z.of_nat (n - size) + 1)) with (S (n - size)) by lia.
    rewrite (take_S_r _ _ b Hb), last_snoc. intros Hc. injection Hc as <-.
    assert (Hr : r = byteZ b).
    { apply (DecodeLastRune_start_ascii _ _ _ _ Hd); [|unfold utf8.RuneSelf in Hlow; lia].
      rewrite length_take. replace (n `min` length s)%nat with n by lia.
      rewrite lookup_take_lt by lia. exact Hb. }
    destruct (strings.asciiSpace b) eqn:Hsp; [|reflexivity].
    apply asciiSpace_IsSpace in Hsp. congruence.
Qed.

Lemma trimSpace_right_last (rs : gostring) (c : ascii) :
  last (strings.trimSpace_right rs) = Some c -> strings.asciiSpace c = false.
Proof.
  induction rs as [|x rs IH]; [discriminate|].
  cbn [strings.trimSpace_right].
  destruct (utf8.RuneSelf <=? byteZ x); [apply TrimRightFunc_last|].
  destruct (strings.asciiSpace x) eqn:Hx; [exact IH|].
  rewrite reverse_cons, last_snoc. intros Hc. now injection Hc as <-.
Qed.

(** What [TrimSpace] returns does not end with an ASCII white space. *)
Lemma TrimSpace_last (s : gostring) (c : ascii) :
  last (strings.TrimSpace s) = Some c -> strings.asciiSpace c = false.
Proof.
  induction s as [|x s IH]; [discriminate|].
  cbn [strings.TrimSpace].
  destruct (utf8.RuneSelf <=? byteZ x); [apply TrimRightFunc_last|].
  destruct (strings.asciiSpace x) eqn:Hx; [exact IH|].
  apply trimSpace_right_last.
Qed.

Lemma isNewline_cases (c : ascii) :
  base64.isNewline c = true <-> c = "010"%char \/ c = "013"%char.
Proof.
  unfold base64.isNewline. rewrite orb_true_iff, !beq_true. tauto.
Qed.

Lemma EncodeRune_first_newline (r : Z) (c : ascii) (e : gostring) :
  utf8.EncodeRune r = c :: e -> base64.isNewline c = true -> r = byteZ c.
Proof.
  intros He Hc.
  assert (Hsmall : byteZ c < 0x80).
  { apply isNewline_cases in Hc. destruct Hc as [->| ->]; reflexivity. }
  pose proof (Decode_Encode (sanitize r) [] (valid_sanitize r)) as Hd.
  rewrite EncodeRune_sanitize, He in Hd. cbn [app] in Hd.
  rewrite Decode1 in Hd by exact Hsmall. injection Hd as Hs _.
  rewrite <- (sanitize_small r); [now symmetry | now rewrite <- Hs].
Qed.

(** [Deobfuscate] decodes to nothing only a token that is empty or ends
    with a line break. *)
Lemma Deobfuscate_Ok_nil (t : gostring) :
  Deobfuscate t = Ok [] ->
  t = [] \/ exists u c, t = u ++ [c] /\ base64.isNewline c = true.
Proof.
  rewrite Deobfuscate_unfold. intros Hdec.
  destruct t as [|t0 t']; [now left|]. right.
  destruct (runes_of_string (t0 :: t')) as [|r rs'] eqn:Hrunes using rev_ind.
  { unfold runes_of_string in Hrunes. cbn [length] in Hrunes.
    now apply runes_loop_nil in Hrunes. }
  clear IHrs'.
  rewrite reverse_snoc in Hdec. 
  assert (Hev : exists l, evens (r :: reverse rs') = r :: l)
    by (cbn [evens]; eauto).
  destruct Hev as [l Hev]. rewrite Hev in Hdec.
  unfold string_of_runes in Hdec. cbn [map concat] in Hdec.
  destruct (utf8.EncodeRune r) as [|c e] eqn:He.
  { pose proof (EncodeRune_length r) as Hlen. rewrite He in Hlen. cbn in Hlen. lia. }
  cbn [app] in Hdec. unfold base64.DecodeString in Hdec.
  destruct (base64.decode (c :: e ++ concat (map utf8.EncodeRune l)) 0 0 0)
    as [out|err] eqn:Hd; [|discriminate].
  injection Hdec as ->.
  destruct (base64.isNewline c) eqn:Hc.
  - pose proof (EncodeRune_first_newline r c e He Hc) as Hr.
    assert (Hsmall : r < 0x80).
    { apply isNewline_cases in Hc. rewrite Hr. destruct Hc as [->| ->]; reflexivity. }
    unfold runes_of_string in Hrunes.
    destruct (runes_loop_last _ _ _ _ (le_n _) Hrunes Hsmall) as (u & c' & Hu & Hc').
    exists u, c'. split; [exact Hu|].
    assert (c' = c); [|now subst].
    rewrite <- (byte_of_byteZ c'), <- (byte_of_byteZ c). congruence.
  - now destruct (decode_first _ _ _ Hd Hc).
Qed.

(** X12. [Deobfuscate] returns the empty string only for a token that
    is empty or ends with a line break: in any other token the last
    character counts, and a Base64 text that starts decodes to at least
    one byte or not at all. *)
Theorem Deobfuscate_empty_result (obfCode : gostring) :
  Deobfuscate obfCode = Ok [] ->
  obfCode = []
  \/ exists before c,
       obfCode = before ++ [c] /\ (c = "010"%char \/ c = "013"%char).
Proof.
  intros Hdec. apply Deobfuscate_Ok_nil in Hdec.
  destruct Hdec as [->|(u & c & -> & Hc)]; [now left|].
  right. exists u, c. split; [reflexivity|]. now apply isNewline_cases.
Qed.

Lemma Deobfuscate_empty_result_witness :
  ["010"%char] = []
  \/ exists before c,
       ["010"%char] = before ++ [c] /\ (c = "010"%char \/ c = "013"%char).
Proof.
  apply (Deobfuscate_empty_result ["010"%char]). reflexivity.
Defined.

Section NeverEmpty.
Context `{Env}.

Lemma decodeContent_nonempty (s : gostring) :
  decodeContent (strings.TrimSpace s) <> Ok [].
Proof.
  unfold decodeContent.
  destruct (seq_dec (strings.TrimSpace s) []) eqn:Hempty; [discriminate|].
  cbn [negb].
  destruct (Deobfuscate (strings.TrimSpace s)) as [out|e|] eqn:Hdec;
    try discriminate.
  intros Hout. injection Hout as ->.
  apply Deobfuscate_Ok_nil in Hdec.
  destruct Hdec as [Hnil|(u & c & Hu & Hc)].
  - rewrite Hnil in Hempty. discriminate.
  - assert (Hlast : last (strings.TrimSpace s) = Some c)
      by (rewrite Hu; apply last_snoc).
    apply TrimSpace_last in Hlast.
    apply isNewline_cases in Hc. destruct Hc as [->| ->]; discriminate.
Qed.

Lemma decodeStreamURL_nonempty (proRCPHTML : gostring) (h : list event) :
  fst (decodeStreamURL proRCPHTML h) <> Ok [].
Proof.
  destruct (NewDocumentFromReader proRCPHTML) as [doc|err] eqn:Hdoc.
  - rewrite (decodeStreamURL_parsed _ _ _ Hdoc), hiddenDivContent_cases.
    destruct (goquery.Find doc hidden_div) as [|n rest]; [discriminate|].
    cbn [rbind]. apply decodeContent_nonempty.
  - unfold decodeStreamURL. rewrite Hdoc. discriminate.
Qed.

(** X13. The stream URL is never empty: whatever the page, stage 6
    returns an error or a non-empty string, and so does the pipeline up
    to the master playlist URL. The trimmed token does not end with a
    line break, so its last character is read by the Base64 decoder. *)
Theorem decodeStreamURL_never_empty (o : ResolveOptions)
    (proRCPHTML : gostring) (h : list event) :
  fst (decodeStreamURL proRCPHTML h) <> Ok []
  /\ fst (ResolveVariants o h) <> Ok [].
Proof.
  split; [apply decodeStreamURL_nonempty|].
  unfold ResolveVariants, bind, lift, ret.
  destruct (buildEmbedURL o) as [embedURL|e|]; try discriminate.
  destruct (fetchContent embedURL [] h) as [[embedHTML|e|] h1]; try discriminate.
  destruct (extractRCPURL embedHTML) as [rcpURL|e|]; try discriminate.
  destruct (fetchContent (str "https:" ++ rcpURL) [] h1) as [[rcpHTML|e|] h2];
    try discriminate.
  destruct (extractProRCPURL rcpHTML) as [proRCPURL|e|]; try discriminate.
  destruct (fetchContent (cloudnestra ++ proRCPURL) cloudnestra h2)
    as [[proRCPHTML'|e|] h3]; try discriminate.
  pose proof (decodeStreamURL_nonempty proRCPHTML' h3) as Hne.
  destruct (decodeStreamURL proRCPHTML' h3) as [[url|e|] h4]; try discriminate.
  exact Hne.
Qed.

End NeverEmpty.

(** ** What [strings.TrimSpace] removes *)

Lemma first_Lead_range (s0 : ascii) (sz : nat) (lo hi : Z) :
  utf8.first s0 = utf8.Lead sz lo hi ->
  (2 <= sz <= 4)%nat /\ 0x80 <= lo /\ hi <= 0xBF /\ 0xC2 <= byteZ s0.
Proof.
  unfold utf8.first, utf8.locb, utf8.hicb.
  repeat match goal with
         | |- context [if ?b then _ else _] => destruct b eqn:?
         end; intros Heq; try discriminate; injection Heq as <- <- <-;
    repeat match goal with
           | H : (_ <? _) = false |- _ => apply Z.ltb_ge in H
           | H : (_ <? _) = true |- _ => apply Z.ltb_lt in H
           end; lia.
Qed.

(** A rune of several bytes is decoded from these bytes alone. *)
Lemma DecodeRune_prefix (s : gostring) (r : Z) (size : nat) (t : gostring) :
  utf8.DecodeRuneInString s = (r, size) -> (2 <= size)%nat ->
  utf8.DecodeRuneInString (take size s ++ t) = (r, size).
Proof.
  unfold utf8.DecodeRuneInString at 1. destruct s as [|s0 t0].
  { intros Heq. injection Heq as <- <-. lia. }
  destruct (utf8.first s0) as [| |sz lo hi] eqn:Hfirst;
    try (intros Heq; injection Heq as <- <-; lia).
  pose proof (first_Lead_range _ _ _ _ Hfirst) as (Hsz & _).
  destruct (length (s0 :: t0) <? sz)%nat;
    [intros Heq; injection Heq as <- <-; lia|].
  destruct t0 as [|s1 t1]; [intros Heq; injection Heq as <- <-; lia|].
  destruct (between lo hi s1) eqn:Hb1; cbn [negb];
    [|intros Heq; injection Heq as <- <-; lia].
  destruct (sz <=? 2)%nat eqn:Hsz2.
  { intros Heq _. injection Heq as <- <-.
    change (take 2 (s0 :: s1 :: t1) ++ t) with (s0 :: s1 :: t).
    unfold utf8.DecodeRuneInString. rewrite Hfirst.
    pose proof (proj1 (Nat.leb_le _ _) Hsz2) as Hle2.
    destruct (Nat.ltb_spec (length (s0 :: s1 :: t)) sz); [cbn [length] in *; lia|].
    rewrite Hb1, Hsz2. reflexivity. }
  destruct t1 as [|s2 t2]; [intros Heq; injection Heq as <- <-; lia|].
  destruct (between utf8.locb utf8.hicb s2) eqn:Hb2; cbn [negb];
    [|intros Heq; injection Heq as <- <-; lia].
  destruct (sz <=? 3)%nat eqn:Hsz3.
  { intros Heq _. injection Heq as <- <-.
    change (take 3 (s0 :: s1 :: s2 :: t2) ++ t) with (s0 :: s1 :: s2 :: t).
    unfold utf8.DecodeRuneInString. rewrite Hfirst.
    pose proof (proj1 (Nat.leb_le _ _) Hsz3) as Hle3.
    destruct (Nat.ltb_spec (length (s0 :: s1 :: s2 :: t)) sz);
      [cbn [length] in *; lia|].
    rewrite Hb1, Hsz2, Hb2, Hsz3. reflexivity. }
  destruct t2 as [|s3 t3]; [intros Heq; injection Heq as <- <-; lia|].
  destruct (between utf8.locb utf8.hicb s3) eqn:Hb3; cbn [negb];
    [|intros Heq; injection Heq as <- <-; lia].
  intros Heq _. injection Heq as <- <-.
  change (take 4 (s0 :: s1 :: s2 :: s3 :: t3) ++ t) with (s0 :: s1 :: s2 :: s3 :: t).
  unfold utf8.DecodeRuneInString. rewrite Hfirst.
  destruct (Nat.ltb_spec (length (s0 :: s1 :: s2 :: s3 :: t)) sz);
    [cbn [length] in *; lia|].
  rewrite Hb1, Hsz2, Hb2, Hsz3, Hb3. reflexivity.
Qed.

(** A white-space rune is never the stand-in for an invalid byte: it is
    decoded from an ASCII byte or from several bytes. *)
Lemma DecodeRune_space (s : gostring) (r : Z) (size : nat) :
  utf8.DecodeRuneInString s = (r, size) -> unicode.IsSpace r = true ->
  (1 <= size <= length s)%nat
  /\ ((2 <= size)%nat
      \/ exists c t, s = c :: t /\ size = 1%nat /\ r = byteZ c
                     /\ strings.asciiSpace c = true).
Proof.
  intros Hd Hsp.
  destruct (DecodeRune_consumed _ _ _ Hd) as (Hle & H1 & _ & H4).
  assert (Hne : s <> []).
  { intros ->. cbn in Hd. injection Hd as <- <-. discriminate. }
  specialize (H1 Hne). split; [lia|].
  destruct (decide (2 <= size)%nat) as [H2|H2]; [now left|]. right.
  assert (Hone : size = 1%nat) by lia.
  destruct (H4 Hone Hsp) as (c & t & -> & Hc).
  exists c, t. split; [reflexivity|]. split; [exact Hone|]. split; [|exact Hc].
  rewrite Decode1 in Hd by (now apply asciiSpace_ascii). now injection Hd as <- _.
Qed.

Lemma DecodeRune_space_prefix (s : gostring) (r : Z) (size : nat) (t : gostring) :
  utf8.DecodeRuneInString s = (r, size) -> unicode.IsSpace r = true ->
  utf8.DecodeRuneInString (take size s ++ t) = (r, size).
Proof.
  intros Hd Hsp.
  destruct (DecodeRune_space _ _ _ Hd Hsp) as (_ & [H2|(c & t' & -> & -> & -> & Hc)]).
  - now apply DecodeRune_prefix.
  - cbn [take app]. apply Decode1. now apply asciiSpace_ascii.
Qed.

(** The runes of a string do not depend on the fuel of the loop. *)
Lemma runes_loop_fuel (fuel1 fuel2 : nat) (s : gostring) :
  (length s <= fuel1)%nat -> (length s <= fuel2)%nat ->
  runes_loop fuel1 s = runes_loop fuel2 s.
Proof.
  revert fuel2 s. induction fuel1 as [|fuel1 IH]; intros fuel2 s H1 H2.
  { destruct s; [|cbn in H1; lia]. now destruct fuel2. }
  destruct s as [|s0 t]; [now destruct fuel2|].
  destruct fuel2 as [|fuel2]; [cbn in H2; lia|].
  cbn [runes_loop].
  destruct (utf8.DecodeRuneInString (s0 :: t)) as [r size] eqn:Hd.
  destruct (DecodeRune_consumed _ _ _ Hd) as (Hle & Hpos & _).
  specialize (Hpos ltac:(discriminate)).
  f_equal. apply IH; rewrite length_drop; cbn [length] in *; lia.
Qed.

Lemma runes_of_string_step (s : gostring) (r : Z) (size : nat) :
  s <> [] -> utf8.DecodeRuneInString s = (r, size) ->
  runes_of_string s = r :: runes_of_string (drop size s).
Proof.
  intros Hne Hd. unfold runes_of_string.
  destruct s as [|s0 t]; [contradiction|].
  cbn [length runes_loop]. rewrite Hd. f_equal.
  destruct (DecodeRune_consumed _ _ _ Hd) as (Hle & Hpos & _).
  specialize (Hpos ltac:(discriminate)).
  apply runes_loop_fuel; rewrite ?length_drop; cbn [length] in *; lia.
Qed.

Lemma white_nil : white [].
Proof. constructor. Qed.

Lemma white_step (s : gostring) (r : Z) (size : nat) :
  s <> [] -> utf8.DecodeRuneInString s = (r, size) ->
  white s <-> unicode.IsSpace r = true /\ white (drop size s).
Proof.
  intros Hne Hd. unfold white.
  rewrite (runes_of_string_step s r size Hne Hd), Forall_cons. tauto.
Qed.

(** White space before white space is white space. *)
Lemma white_app (a b : gostring) : white a -> white b -> white (a ++ b).
Proof.
  remember (length a) as n eqn:Hn. revert a Hn.
  induction n as [n IH] using lt_wf_ind. intros a Hn Ha Hb.
  destruct a as [|a0 a']; [exact Hb|].
  destruct (utf8.DecodeRuneInString (a0 :: a')) as [r size] eqn:Hd.
  apply (white_step (a0 :: a') _ _ ltac:(discriminate) Hd) in Ha. destruct Ha as [Hsp Hrest].
  destruct (DecodeRune_space _ _ _ Hd Hsp) as (Hsize & _).
  assert (Hd' : utf8.DecodeRuneInString ((a0 :: a') ++ b) = (r, size)).
  { rewrite <- (take_drop size (a0 :: a')) at 1. rewrite <- app_assoc.
    now apply DecodeRune_space_prefix. }
  apply (white_step ((a0 :: a') ++ b) _ _ ltac:(discriminate) Hd'). split; [exact Hsp|].
  rewrite drop_app_le by lia.
  apply (IH (length (drop size (a0 :: a')))); try assumption; [|reflexivity].
  rewrite length_drop. subst n. cbn [length] in *. lia.
Qed.

Lemma white_ascii (c : ascii) : strings.asciiSpace c = true -> white [c].
Proof.
  intros Hc.
  apply (white_step [c] (byteZ c) 1 ltac:(discriminate)).
  - apply Decode1. now apply asciiSpace_ascii.
  - split; [now apply asciiSpace_IsSpace | apply white_nil].
Qed.

(** White space starts at the start of a character. *)
Lemma white_boundary (l : gostring) :
  white l ->
  l = [] \/ exists c t, l = c :: t /\ (byteZ c < 0x80 \/ 0xC2 <= byteZ c).
Proof.
  intros Hl. destruct l as [|c t]; [now left|]. right.
  exists c, t. split; [reflexivity|].
  destruct (utf8.DecodeRuneInString (c :: t)) as [r size] eqn:Hd.
  apply (white_step (c :: t) _ _ ltac:(discriminate) Hd) in Hl. destruct Hl as [Hsp _].
  unfold utf8.DecodeRuneInString in Hd.
  destruct (utf8.first c) as [| |sz lo hi] eqn:Hfirst.
  - left. unfold utf8.first in Hfirst.
    destruct (Z.ltb_spec (byteZ c) 128); [lia|].
    repeat match type of Hfirst with
           | (if ?b then _ else _) = _ => destruct b
           end; discriminate.
  - injection Hd as <- <-. discriminate.
  - right. now apply first_Lead_range in Hfirst.
Qed.

(** A byte that is not ASCII, before the start of a character, is
    decoded alone. *)
Lemma DecodeRune_lone (b : ascii) (rest : gostring) :
  0x80 <= byteZ b ->
  rest = [] \/ (exists c t, rest = c :: t /\ (byteZ c < 0x80 \/ 0xC2 <= byteZ c)) ->
  utf8.DecodeRuneInString (b :: rest) = (utf8.RuneError, 1%nat).
Proof.
  intros Hb Hrest. unfold utf8.DecodeRuneInString.
  destruct (utf8.first b) as [| |sz lo hi] eqn:Hfirst.
  - unfold utf8.first in Hfirst.
    destruct (Z.ltb_spec (byteZ b) 128); [lia|].
    repeat match type of Hfirst with
           | (if ?x then _ else _) = _ => destruct x
           end; discriminate.
  - reflexivity.
  - apply first_Lead_range in Hfirst. destruct Hfirst as (Hsz & Hlo & Hhi & _).
    destruct (length (b :: rest) <? sz)%nat; [reflexivity|].
    destruct Hrest as [->|(c & t & -> & Hc)]; [reflexivity|].
    destruct (between lo hi c) eqn:Hbt; [|reflexivity].
    apply between_bounds in Hbt. lia.
Qed.

(** [TrimLeftFunc] removes white space, up to the first character that
    is not white space. *)
Lemma trimLeftFunc_loop_white (fuel : nat) (s : gostring) :
  (length s <= fuel)%nat ->
  exists pre,
    s = pre ++ strings.trimLeftFunc_loop fuel unicode.IsSpace s
    /\ white pre
    /\ unicode.IsSpace
         (fst (utf8.DecodeRuneInString
                 (strings.trimLeftFunc_loop fuel unicode.IsSpace s))) = false.
Proof.
  revert s. induction fuel as [|fuel IH]; intros s Hfuel.
  { destruct s; [|cbn in Hfuel; lia]. exists []. cbn. auto using white_nil. }
  destruct s as [|s0 t]; [exists []; cbn; auto using white_nil|].
  cbn [strings.trimLeftFunc_loop].
  destruct (utf8.DecodeRuneInString (s0 :: t)) as [r size] eqn:Hd.
  destruct (unicode.IsSpace r) eqn:Hsp.
  - destruct (DecodeRune_space _ _ _ Hd Hsp) as (Hsize & _).
    destruct (IH (drop size (s0 :: t))) as (pre & Hs & Hpre & Hfirst).
    { rewrite length_drop. cbn [length] in *. lia. }
    exists (take size (s0 :: t) ++ pre). split; [|split; [|exact Hfirst]].
    + rewrite <- app_assoc, <- Hs. now rewrite take_drop.
    + assert (Hne : take size (s0 :: t) ++ pre <> []).
      { destruct size; [lia | discriminate]. }
      apply (white_step _ r size Hne).
      * now apply DecodeRune_space_prefix.
      * split; [exact Hsp|].
        rewrite drop_app_length'; [exact Hpre|].
        rewrite length_take. cbn [length] in *. lia.
  - exists []. split; [reflexivity|]. split; [apply white_nil|].
    rewrite Hd. exact Hsp.
Qed.

Lemma TrimLeftFunc_white (s : gostring) :
  exists pre,
    s = pre ++ strings.TrimLeftFunc s unicode.IsSpace
    /\ white pre
    /\ unicode.IsSpace
         (fst (utf8.DecodeRuneInString (strings.TrimLeftFunc s unicode.IsSpace)))
       = false.
Proof. unfold strings.TrimLeftFunc. now apply trimLeftFunc_loop_white. Qed.

(** What [DecodeLastRuneInString] decodes: the rune of the last [size]
    bytes when it is valid, and otherwise the stand-in for the last
    byte. *)
Lemma DecodeLastRune_cases (t : gostring) (r : Z) (size : nat) :
  utf8.DecodeLastRuneInString t = (r, size) -> t <> [] ->
  (1 <= size <= length t)%nat
  /\ (utf8.DecodeRuneInString (drop (length t - size) t) = (r, size)
      \/ (r = utf8.RuneError /\ size = 1%nat
          /\ exists x, last t = Some x /\ 0x80 <= byteZ x)).
Proof.
  intros Hd Hne.
  destruct (DecodeLastRune_consumed _ _ _ Hd Hne) as (Hsize & _).
  split; [exact Hsize|].
  destruct t as [|x t'] using rev_ind; [contradiction|]. clear IHt'.
  unfold utf8.DecodeLastRuneInString in Hd. rewrite at_last in Hd.
  assert (Hlen : length (t' ++ [x]) = S (length t'))
    by (rewrite length_app; cbn; lia).
  rewrite Hlen.
  destruct (Z.ltb_spec (byteZ x) utf8.RuneSelf) as [Hx|Hx].
  - injection Hd as <- <-. left.
    replace (S (length t') - 1)%nat with (length t') by lia.
    rewrite drop_app_length. now apply Decode1.
  - set (e := len (t' ++ [x])) in *.
    set (start := Z.max (utf8.scan_start 4 (t' ++ [x]) (Z.max (e - 4) 0) (e - 1 - 1)) 0) in *.
    assert (He : e = Z.of_nat (S (length t'))) by (unfold e, len; now rewrite Hlen).
    assert (Hstart : 0 <= start < e).
    { unfold start.
      pose proof (scan_start_le 4 (t' ++ [x]) (Z.max (e - 4) 0) (e - 1 - 1)). lia. }
    destruct (utf8.DecodeRuneInString (drop (Z.to_nat start) (t' ++ [x])))
      as [r' size'] eqn:Hdec.
    destruct (Z.eqb_spec (start + Z.of_nat size') e) as [Heq|Hneq].
    + injection Hd as <- <-. left.
      replace (S (length t') - size')%nat with (Z.to_nat start) by lia.
      exact Hdec.
    + injection Hd as <- <-. right. split; [reflexivity|]. split; [reflexivity|].
      exists x. split; [apply last_snoc | exact Hx].
Qed.

(** Before the start of a character, the rune found from the end is the
    rune found from its first byte. *)
Lemma DecodeLastRune_forward (t rest : gostring) (r : Z) (size : nat) :
  utf8.DecodeLastRuneInString t = (r, size) -> t <> [] ->
  rest = [] \/ (exists c u, rest = c :: u /\ (byteZ c < 0x80 \/ 0xC2 <= byteZ c)) ->
  exists b chunk,
    drop (length t - size) t = b :: chunk
    /\ length (b :: chunk) = size
    /\ (byteZ b < 0x80 -> size = 1%nat /\ r = byteZ b)
    /\ (0x80 <= byteZ b ->
        snd (utf8.DecodeRuneInString ((b :: chunk) ++ rest)) = size).
Proof.
  intros Hd Hne Hrest.
  destruct (DecodeLastRune_cases _ _ _ Hd Hne) as (Hsize & Hcase).
  assert (Hlen : length (drop (length t - size) t) = size)
    by (rewrite length_drop; lia).
  destruct (drop (length t - size) t) as [|b chunk] eqn:Hdrop;
    [cbn in Hlen; lia|].
  exists b, chunk. split; [reflexivity|]. split; [exact Hlen|].
  destruct Hcase as [Hdec|(-> & -> & x & Hlast & Hx)].
  - split.
    + intros Hb. rewrite Decode1 in Hdec by exact Hb. now injection Hdec as <- <-.
    + intros Hb. destruct (decide (2 <= size)%nat) as [H2|H2].
      * pose proof (DecodeRune_prefix _ _ _ rest Hdec H2) as Hp.
        rewrite take_ge in Hp by lia. now rewrite Hp.
      * assert (Hs1 : size = 1%nat) by lia. rewrite Hs1 in Hlen |- *.
        destruct chunk; [|cbn in Hlen; lia].
        cbn [app]. now rewrite DecodeRune_lone.
  - destruct chunk; [|cbn in Hlen; lia].
    assert (Hbx : b = x).
    { apply last_Some in Hlast. destruct Hlast as [l' ->].
      rewrite length_app in Hdrop. cbn [length] in Hdrop.
      replace (length l' + 1 - 1)%nat with (length l') in Hdrop by lia.
      rewrite drop_app_length in Hdrop. now injection Hdrop as <-. }
    subst x. split; [lia|]. intros _. cbn [app]. now rewrite DecodeRune_lone.
Qed.

(** The backward loop of [TrimRightFunc] stops after the last character
    that is not white space; what follows it is white. *)
Lemma lastIndexFunc_loop_white (fuel : nat) (s : gostring) (i : nat) :
  (i < fuel)%nat -> (i <= length s)%nat -> white (drop i s) ->
  let idx := strings.lastIndexFunc_loop fuel unicode.IsSpace s (Z.of_nat i) in
  (idx = -1 /\ white s)
  \/ exists (k : nat) r size,
       (0 < k <= i)%nat /\ white (drop k s)
       /\ utf8.DecodeLastRuneInString (take k s) = (r, size)
       /\ unicode.IsSpace r = false
       /\ idx = Z.of_nat k - Z.of_nat size.
Proof.
  revert i. induction fuel as [|fuel IH]; intros i Hfuel Hi Hwhite; [lia|].
  cbn [strings.lastIndexFunc_loop].
  destruct (Z.ltb_spec 0 (Z.of_nat i)) as [Hpos|Hzero].
  - rewrite Nat2Z.id.
    destruct (utf8.DecodeLastRuneInString (take i s)) as [r size] eqn:Hd.
    assert (Hne : take i s <> []).
    { intros Hnil. apply (f_equal length) in Hnil.
      rewrite length_take in Hnil. cbn in Hnil. lia. }
    destruct (unicode.IsSpace r) eqn:Hsp.
    + destruct (DecodeLastRune_cases _ _ _ Hd Hne) as (Hsize & Hcase).
      rewrite length_take in Hsize, Hcase.
      replace (i `min` length s)%nat with i in Hsize, Hcase by lia.
      destruct Hcase as [Hdec|(-> & _)]; [|discriminate].
      assert (Hmid : drop (i - size) s = drop (i - size) (take i s) ++ drop i s).
      { rewrite <- (take_drop i s) at 1. rewrite drop_app_le; [reflexivity|].
        rewrite length_take. lia. }
      assert (Hchunk : length (drop (i - size) (take i s)) = size).
      { rewrite length_drop, length_take. lia. }
      replace (Z.of_nat i - Z.of_nat size) with (Z.of_nat (i - size)) by lia.
      assert (Hwhite' : white (drop (i - size) s)).
      { rewrite Hmid.
        assert (Hne' : drop (i - size) (take i s) ++ drop i s <> []).
        { intros Hnil. apply (f_equal length) in Hnil.
          rewrite length_app, Hchunk in Hnil. cbn in Hnil. lia. }
        apply (white_step _ r size Hne').
        - pose proof (DecodeRune_space_prefix _ _ _ (drop i s) Hdec Hsp) as Hp.
          rewrite take_ge in Hp by lia. exact Hp.
        - split; [exact Hsp|].
          rewrite drop_app_length'; [exact Hwhite | now symmetry]. }
      destruct (IH (i - size)%nat ltac:(lia) ltac:(lia) Hwhite')
        as [[Hidx Hall]|(k & r' & size' & Hk & Hpost & Hd' & Hsp' & Hidx)].
      * left. auto.
      * right. exists k, r', size'. repeat split; try assumption; lia.
    + right. exists i, r, size. repeat split; try assumption; lia.
  - left. split; [reflexivity|].
    replace i with 0%nat in Hwhite by lia. exact Hwhite.
Qed.

(** [TrimRightFunc] removes white space, back to the last character
    that is not white space. *)
Lemma TrimRightFunc_white (s : gostring) :
  exists post,
    s = strings.TrimRightFunc s unicode.IsSpace ++ post
    /\ white post
    /\ unicode.IsSpace
         (fst (utf8.DecodeLastRuneInString
                 (strings.TrimRightFunc s unicode.IsSpace))) = false.
Proof.
  unfold strings.TrimRightFunc.
  pose proof (lastIndexFunc_loop_white (S (length s)) s (length s)
                ltac:(lia) ltac:(lia)) as Hspec.
  rewrite drop_all in Hspec. specialize (Hspec white_nil).
  cbn zeta in Hspec. fold (len s) in Hspec.
  destruct Hspec as [[Hidx Hall]|(k & r & size & Hk & Hpost & Hd & Hsp & Hidx)];
    rewrite Hidx.
  { cbn. exists s. auto. }
  assert (Hne : take k s <> []).
  { intros Hnil. apply (f_equal length) in Hnil.
    rewrite length_take in Hnil. cbn in Hnil. lia. }
  destruct (DecodeLastRune_forward _ (drop k s) _ _ Hd Hne (white_boundary _ Hpost))
    as (b & chunk & Hdrop & Hlen & Hlow & Hhigh).
  rewrite length_take in Hdrop.
  replace (k `min` length s)%nat with k in Hdrop by lia.
  assert (Hsize : (1 <= size <= k)%nat).
  { destruct (DecodeLastRune_consumed _ _ _ Hd Hne) as (Hc & _).
    rewrite length_take in Hc. lia. }
  assert (Hmid : drop (k - size) s = (b :: chunk) ++ drop k s).
  { rewrite <- Hdrop. rewrite <- (take_drop k s) at 1.
    rewrite drop_app_le; [reflexivity|]. rewrite length_take. lia. }
  assert (Hb : s !! (k - size)%nat = Some b).
  { rewrite <- (Nat.add_0_r (k - size)), <- lookup_drop, Hmid. reflexivity. }
  replace (Z.of_nat k - Z.of_nat size) with (Z.of_nat (k - size)) by lia.
  rewrite at_nat, Hb, Nat2Z.id.
  assert (Hfinal : Z.to_nat
                     (if utf8.RuneSelf <=? byteZ b
                      then Z.of_nat (k - size)
                           + Z.of_nat (utf8.DecodeRuneInString (drop (k - size) s)).2
                      else Z.of_nat (k - size) + 1) = k).
  { destruct (Z.leb_spec utf8.RuneSelf (byteZ b)) as [Hh|Hl].
    - rewrite Hmid, (Hhigh Hh). lia.
    - destruct (Hlow Hl) as [-> _]. lia. }
  rewrite Hfinal. exists (drop k s). split; [now rewrite take_drop|].
  split; [exact Hpost|]. now rewrite Hd.
Qed.

Lemma DecodeLastRune_ascii (l : gostring) (x : ascii) :
  byteZ x < 0x80 -> utf8.DecodeLastRuneInString (l ++ [x]) = (byteZ x, 1%nat).
Proof.
  intros Hx. unfold utf8.DecodeLastRuneInString. rewrite at_last.
  destruct (Z.ltb_spec (byteZ x) utf8.RuneSelf) as [_|Hge]; [reflexivity|].
  unfold utf8.RuneSelf in Hge. lia.
Qed.

Lemma not_asciiSpace_IsSpace (x : ascii) :
  byteZ x < 0x80 -> strings.asciiSpace x = false ->
  unicode.IsSpace (byteZ x) = false.
Proof.
  intros Hx Hsp. destruct (unicode.IsSpace (byteZ x)) eqn:His; [|reflexivity].
  apply (IsSpace_ascii x Hx) in His. congruence.
Qed.

Lemma trimSpace_right_white (rs : gostring) :
  exists post,
    reverse rs = strings.trimSpace_right rs ++ post
    /\ white post
    /\ unicode.IsSpace
         (fst (utf8.DecodeLastRuneInString (strings.trimSpace_right rs))) = false.
Proof.
  induction rs as [|x rs (post & Hrs & Hpost & Hlast)].
  - exists []. cbn. auto using white_nil.
  - cbn [strings.trimSpace_right].
    destruct (Z.leb_spec utf8.RuneSelf (byteZ x)) as [Hh|Hl];
      [apply TrimRightFunc_white|].
    destruct (strings.asciiSpace x) eqn:Hx.
    + exists (post ++ [x]). split; [|split; [|exact Hlast]].
      * now rewrite reverse_cons, Hrs, <- app_assoc.
      * apply white_app; [exact Hpost | now apply white_ascii].
    + exists []. split; [now rewrite app_nil_r|]. split; [apply white_nil|].
      rewrite reverse_cons, DecodeLastRune_ascii by exact Hl.
      now apply not_asciiSpace_IsSpace.
Qed.

(** What starts with a character that is not white space still does
    after something is cut off its end. *)
Lemma first_rune_prefix (x token post : gostring) :
  x = token ++ post ->
  unicode.IsSpace (fst (utf8.DecodeRuneInString x)) = false ->
  unicode.IsSpace (fst (utf8.DecodeRuneInString token)) = false.
Proof.
  intros Hx Hfirst.
  destruct (utf8.DecodeRuneInString token) as [r size] eqn:Hd. cbn [fst].
  destruct (unicode.IsSpace r) eqn:Hsp; [|reflexivity].
  destruct (DecodeRune_space _ _ _ Hd Hsp) as (Hsize & _).
  pose proof (DecodeRune_space_prefix _ _ _ (drop size token ++ post) Hd Hsp) as Hp.
  rewrite app_assoc, take_drop, <- Hx in Hp. rewrite Hp in Hfirst.
  cbn [fst] in Hfirst. congruence.
Qed.

(** [strings.TrimSpace] returns its argument without the white space at
    its two ends. *)
Lemma TrimSpace_trimmed (s : gostring) : trimmed s (strings.TrimSpace s).
Proof.
  induction s as [|c s (pre & post & Hs & Hpre & Hpost & Hfirst & Hlast)].
  - exists [], []. cbn. auto using white_nil.
  - cbn [strings.TrimSpace].
    destruct (Z.leb_spec utf8.RuneSelf (byteZ c)) as [Hh|Hl].
    { unfold strings.TrimFunc.
      destruct (TrimLeftFunc_white (c :: s)) as (pre' & Hl' & Hpre' & Hfirst').
      destruct (TrimRightFunc_white (strings.TrimLeftFunc (c :: s) unicode.IsSpace))
        as (post' & Hr' & Hpost' & Hlast').
      exists pre', post'. split; [now rewrite <- Hr'|].
      split; [exact Hpre'|]. split; [exact Hpost'|]. split; [|exact Hlast'].
      exact (first_rune_prefix _ _ _ Hr' Hfirst'). }
    destruct (strings.asciiSpace c) eqn:Hc.
    + exists (c :: pre), post. split; [cbn; now rewrite <- Hs|].
      split; [|auto].
      change (c :: pre) with ([c] ++ pre).
      apply white_app; [now apply white_ascii | exact Hpre].
    + destruct (trimSpace_right_white (reverse (c :: s))) as (post' & Hr & Hpost' & Hlast').
      rewrite reverse_involutive in Hr.
      exists [], post'. split; [exact Hr|]. split; [apply white_nil|].
      split; [exact Hpost'|]. split; [|exact Hlast'].
      apply (first_rune_prefix _ _ _ Hr).
      rewrite Decode1 by exact Hl. now apply not_asciiSpace_IsSpace.
Qed.

(** ** The hidden token: the first hidden div and its text *)

Lemma descendants_eq (n : html.Node) :
  descendants n = n :: flat_map descendants (html.children n).
Proof. destruct n. reflexivity. Qed.

Lemma nodeText_eq (n : html.Node) :
  goquery.nodeText n
  = (if html.isText n then html.Data n else [])
    ++ flat_map goquery.nodeText (html.children n).
Proof. destruct n. reflexivity. Qed.

(** [Selection.Text] on a node is the text content of the node. *)
Lemma nodeText_text_content (n : html.Node) :
  goquery.nodeText n = text_content n.
Proof.
  induction n as [t d a cs IH] using Node_ind_children.
  rewrite nodeText_eq. unfold text_content. rewrite descendants_eq.
  cbn [html.children List.filter].
  assert (Hcs : flat_map goquery.nodeText cs
                = concat (map html.Data
                            (List.filter html.isText (flat_map descendants cs)))).
  { induction IH as [|c cs Hc _ IHcs]; [reflexivity|].
    cbn [flat_map]. rewrite List.filter_app, map_app, concat_app, <- IHcs.
    f_equal. exact Hc. }
  rewrite Hcs. destruct (html.isText (html.mkNode t d a cs)); reflexivity.
Qed.

(** [MatchAll] keeps the matching nodes of the tree, in document order. *)
Lemma MatchAll_filter (sel : goquery.Selector) (n : html.Node) :
  goquery.MatchAll sel n = List.filter (goquery.matches sel) (descendants n).
Proof.
  induction n as [t d a cs IH] using Node_ind_children.
  rewrite MatchAll_eq, descendants_eq. cbn [html.children List.filter].
  assert (Hcs : flat_map (goquery.MatchAll sel) cs
                = List.filter (goquery.matches sel) (flat_map descendants cs)).
  { induction IH as [|c cs Hc _ IHcs]; [reflexivity|].
    cbn [flat_map]. now rewrite List.filter_app, <- IHcs, Hc. }
  rewrite Hcs. destruct (goquery.matches sel (html.mkNode t d a cs)); reflexivity.
Qed.

Lemma Find_filter (doc : html.Node) (sel : goquery.Selector) :
  goquery.Find doc sel = List.filter (goquery.matches sel) (document_nodes doc).
Proof.
  unfold goquery.Find, document_nodes.
  induction (html.children doc) as [|c cs IH]; [reflexivity|].
  cbn [flat_map List.filter]. rewrite IH.
  destruct (html.isElement c); [|reflexivity].
  cbn [flat_map]. now rewrite List.filter_app, MatchAll_filter.
Qed.

Lemma filter_first {A} (f : A -> bool) (l : list A) (x : A) (rest : list A) :
  List.filter f l = x :: rest ->
  exists before after,
    l = before ++ x :: after /\ Forall (fun y => f y = false) before
    /\ f x = true.
Proof.
  induction l as [|y l IH]; [discriminate|]. cbn [List.filter].
  destruct (f y) eqn:Hy.
  - intros Heq. injection Heq as -> _. exists [], l. auto.
  - intros Heq. destruct (IH Heq) as (before & after & -> & Hb & Hx).
    exists (y :: before), after. auto.
Qed.

(** The first node of [Find] is the first matching node of the
    document. *)
Lemma Find_first_hidden_div (doc n : html.Node) (rest : list html.Node) :
  goquery.Find doc hidden_div = n :: rest ->
  is_hidden_div n
  /\ exists before after,
       document_nodes doc = before ++ n :: after
       /\ Forall (fun m => ~ is_hidden_div m) before.
Proof.
  rewrite Find_filter. intros Hf.
  destruct (filter_first _ _ _ _ Hf) as (before & after & Hl & Hb & Hn).
  split; [now apply matches_hidden_div|].
  exists before, after. split; [exact Hl|].
  eapply Forall_impl; [exact Hb|]. intros m Hm Hd.
  apply matches_hidden_div in Hd. cbn in Hm. congruence.
Qed.

Section HiddenToken.
Context `{Env}.

(** C9. When the parsed stage-2 page contains no [div] element whose
    [style] attribute is exactly [display:none;], [decodeStreamURL] returns
    the "no hidden div found" error (the failure the specification calls
    ExtractionFailed with stage hidden-token): no panic, no success. When
    there is such a [div], the extracted token belongs to the first one
    in document order; it is the text content of that [div], the data of
    the text nodes of its tree in document order, without the white space
    at its two ends; it is what the stage decodes, and an empty token is
    an error, never a success. The stage never panics. *)
Theorem decodeStreamURL_hidden_token (proRCPHTML : gostring) (doc : html.Node)
    (h : list event) :
  NewDocumentFromReader proRCPHTML = inl doc ->
  (~ contains_hidden_div doc ->
   fst (decodeStreamURL proRCPHTML h) = Err ErrNoHiddenDiv)
  /\ (contains_hidden_div doc ->
      exists n rest,
        goquery.Find doc hidden_div = n :: rest /\ is_hidden_div n
        /\ (exists before after,
              document_nodes doc = before ++ n :: after
              /\ Forall (fun m => ~ is_hidden_div m) before)
        /\ goquery.nodeText n = text_content n
        /\ trimmed (text_content n) (strings.TrimSpace (goquery.nodeText n))
        /\ hiddenDivContent doc = Ok (strings.TrimSpace (goquery.nodeText n))
        /\ fst (decodeStreamURL proRCPHTML h)
           = decodeContent (strings.TrimSpace (goquery.nodeText n))
        /\ (strings.TrimSpace (goquery.nodeText n) = [] ->
            fst (decodeStreamURL proRCPHTML h) = Err ErrNoComponents))
  /\ fst (decodeStreamURL proRCPHTML h) <> Panic.
Proof.
  intros Hdoc. rewrite (decodeStreamURL_parsed _ _ _ Hdoc).
  rewrite hiddenDivContent_cases. split; [|split].
  - intros Hno. apply Find_hidden_div_nil in Hno. now rewrite Hno.
  - intros Hyes.
    destruct (goquery.Find doc hidden_div) as [|n rest] eqn:Hf.
    + exfalso. now apply (proj1 (Find_hidden_div_nil doc) Hf).
    + destruct (Find_first_hidden_div _ _ _ Hf) as (Hn & Hfirst).
      exists n, rest. split; [reflexivity|]. split; [exact Hn|].
      split; [exact Hfirst|]. split; [apply nodeText_text_content|].
      split.
      { rewrite <- nodeText_text_content. apply TrimSpace_trimmed. }
      split; [reflexivity|]. split; [reflexivity|].
      intros Hempty. cbn [rbind]. unfold decodeContent.
      now rewrite Hempty, seq_dec_true.
  - destruct (goquery.Find doc hidden_div) as [|n rest]; [discriminate|].
    cbn [rbind]. apply decodeContent_no_panic.
Qed.

End HiddenToken.

Lemma decodeStreamURL_hidden_token_witness :
  fst (decodeStreamURL (H := fixture_env near_miss_fixture) prorcp_page [])
  = Err ErrNoHiddenDiv
  /\ text_content
       (element "div" [("id", "xTyBxQyGTA"); ("style", "display:none;")]
          [ html.mkNode html.TextNode
              ("194"%char :: "160"%char :: str "
   ") [] [];
            element "b" [] [text "=x8xGx"];
            text "bxsxVxGxa
  ";
            html.mkNode html.TextNode ["194"%char; "160"%char; "009"%char] [] [] ])
     = "194"%char :: "160"%char :: str "
   =x8xGxbxsxVxGxa
  " ++ ["194"%char; "160"%char; "009"%char]
  /\ hiddenDivContent padded_doc = Ok (str hello_token)
  /\ fst (decodeStreamURL (H := fixture_env padded_fixture) prorcp_page [])
     = Ok (str "hello").
Proof.
  split.
  { apply (proj1 (@decodeStreamURL_hidden_token (fixture_env near_miss_fixture)
                    prorcp_page near_miss_doc [] eq_refl)).
    apply Find_hidden_div_nil. vm_compute. reflexivity. }
  destruct (proj1 (proj2 (@decodeStreamURL_hidden_token
                            (fixture_env padded_fixture)
                            prorcp_page padded_doc [] eq_refl)))
    as (n & rest & Hf & _ & _ & _ & _ & Hcontent & Hdec & _).
  { assert (Hin : In (element "div" [("style", "display:none;")] [text master_token])
                     (goquery.Find padded_doc hidden_div)).
    { vm_compute. right. left. reflexivity. }
    apply Find_hidden_div_In in Hin. destruct Hin as (c & Hc & He & Hin & Hd).
    exists c. eauto. }
  vm_compute in Hf. injection Hf as <- _.
  split; [vm_compute; reflexivity|].
  split.
  - rewrite Hcontent. vm_compute. reflexivity.
  - rewrite Hdec. vm_compute. reflexivity.
Defined.
